(** * idverify: MRZ / TCKN validation and the card-geometry pipeline

    A shallow embedding of [VisionProcessor.cpp], [VisionProcessor.h] and
    [ROIMapper.h] of the idverify SDK, and of the entry points of
    [native-lib.cpp] that return a number.  C++ [int] is a 32-bit
    two's-complement integer carried by [Z]; [std::string] is a
    [list ascii]; [float] is IEEE binary32, carried by exact dyadic
    rationals. *)

From Stdlib Require Import String Ascii ZArith List Bool Lia.
From Stdlib Require Import Permutation Sorted.
From Stdlib Require Floats.SpecFloat.
Import ListNotations.
Local Open Scope Z_scope.

(* ================================================================== *)
(** * Part I. Definitions *)
(* ================================================================== *)

(** ** C++ [int]: 32-bit two's complement *)

Module Int32.

Definition INT_MIN : Z := -2147483648.
Definition INT_MAX : Z := 2147483647.

(** Reduction of a mathematical integer into the [int] range. *)
Definition wrap (z : Z) : Z := (z + 2147483648) mod 4294967296 - 2147483648.

Definition in_range (z : Z) : Prop := INT_MIN <= z <= INT_MAX.

Definition add (a b : Z) : Z := wrap (a + b).
Definition sub (a b : Z) : Z := wrap (a - b).
Definition mul (a b : Z) : Z := wrap (a * b).

(** [a % b]: C++ division truncates toward zero, so the remainder takes the
    sign of the dividend. *)
Definition rem (a b : Z) : Z := Z.rem a b.

(** [std::min] and [std::max] on [int]. *)
Definition min (a b : Z) : Z := if b <? a then b else a.
Definition max (a b : Z) : Z := if a <? b then b else a.

End Int32.

(** ** [std::string] *)

Module Str.

(** A string literal as a sequence of [char]. *)
Definition lit (s : string) : list ascii := list_ascii_of_string s.

(** [s[i]]; reading at [i = s.size()] yields the terminating NUL. *)
Definition at_ (s : list ascii) (i : nat) : ascii := nth i s zero.

(** [s.substr(pos, n)]: the characters [pos, min(pos + n, size)).  It
    throws only for [pos > size]; every call site below is guarded by a
    length test that excludes this. *)
Definition substr (s : list ascii) (pos n : nat) : list ascii :=
  firstn n (skipn pos s).

(** [s.resize(n, c)]: the first [n] characters when [n <= size], otherwise
    [s] followed by [n - size] copies of [c]. *)
Definition resize (s : list ascii) (n : nat) (c : ascii) : list ascii :=
  if (n <=? length s)%nat then firstn n s
  else s ++ repeat c (n - length s).

End Str.

(** ** MRZValidator *)

Section MRZValidator.

(** Whether plain [char] is signed is fixed by the target ABI (unsigned on
    ARM, signed on x86); the validator is modelled for both. *)
Variable char_is_signed : bool.

(** Integral promotion [char -> int]. *)
Definition int_of_char (c : ascii) : Z :=
  let n := Z.of_N (N_of_ascii c) in
  if char_is_signed && (128 <=? n) then n - 256 else n.

(** [static_cast<unsigned char>(c)], promoted to [int]. *)
Definition uchar_of_char (c : ascii) : Z := Z.of_N (N_of_ascii c).

(** [static_cast<char>(i)]. *)
Definition char_of_int (i : Z) : ascii := ascii_of_N (Z.to_N (i mod 256)).

(** [<cctype>] in the C locale, on the promoted character: range tests,
    which also reject the negative values of a signed [char]. *)
Definition isdigit (c : Z) : bool := (48 <=? c) && (c <=? 57).
Definition toupper (c : Z) : Z :=
  if (97 <=? c) && (c <=? 122) then c - 32 else c.

(** [c >= lo && c <= hi] on promoted characters. *)
Definition char_between (lo hi c : ascii) : bool :=
  (int_of_char lo <=? int_of_char c) && (int_of_char c <=? int_of_char hi).

(** The body of the [for (char c : line)] loop of [correctOCRErrors]: the
    character appended to [corrected]. *)
Definition correctChar (c : ascii) : ascii :=
  let upper := char_of_int (toupper (uchar_of_char c)) in
  match upper with
  | "O" => "0"
  | "I" => "1"
  | "S" => "5"
  | "B" => "8"
  | "G" => "6"
  | "D" => "0"
  | "Q" => "0"
  | "Z" => "2"
  | " " => "<"
  | "." => "<"
  | _ =>
      if char_between "A" "Z" upper || char_between "0" "9" upper
         || Ascii.eqb upper "<"
      then upper
      else "<"
  end%char.

Fixpoint correctOCRErrors (line : list ascii) : list ascii :=
  match line with
  | [] => []
  | c :: rest => correctChar c :: correctOCRErrors rest
  end.

Definition WEIGHTS : list Z := [7; 3; 1].

Definition charToValue (c : ascii) : Z :=
  if char_between "0" "9" c then Int32.sub (int_of_char c) (int_of_char "0")
  else if char_between "A" "Z" c
       then Int32.add (Int32.sub (int_of_char c) (int_of_char "A")) 10
  else if Ascii.eqb c "<" then 0
  else 0.

(** The [for (size_t i = 0; i < data.length(); ++i)] loop of
    [calculateChecksum], entered at index [i] with accumulator [sum];
    [data] holds the characters from index [i] on. *)
Fixpoint checksum_loop (data : list ascii) (i : nat) (sum : Z) : Z :=
  match data with
  | [] => sum
  | c :: rest =>
      let value := charToValue c in
      let weight := nth (i mod 3) WEIGHTS 0 in
      checksum_loop rest (S i) (Int32.add sum (Int32.mul value weight))
  end.

Definition calculateChecksum (data : list ascii) : Z :=
  Int32.rem (checksum_loop data 0 0) 10.

Definition validateCheckDigit (data : list ascii) (checkDigit : ascii) : bool :=
  if negb (isdigit (int_of_char checkDigit)) then false
  else
    let expected := calculateChecksum data in
    let actual := Int32.sub (int_of_char checkDigit) (int_of_char "0") in
    expected =? actual.

(** The digit loop of [validateTCKN]: [k] iterations remain, the next index
    is [i]; [None] is the early [return false] on a non-digit. *)
Fixpoint tckn_loop (tckn : list ascii) (k i : nat) (odds evens sum10 : Z)
  : option (Z * Z * Z) :=
  match k with
  | O => Some (odds, evens, sum10)
  | S k' =>
      if negb (isdigit (int_of_char (Str.at_ tckn i))) then None
      else
        let digit := Int32.sub (int_of_char (Str.at_ tckn i)) (int_of_char "0") in
        if (i mod 2 =? 0)%nat
        then tckn_loop tckn k' (S i) (Int32.add odds digit) evens (Int32.add sum10 digit)
        else tckn_loop tckn k' (S i) odds (Int32.add evens digit) (Int32.add sum10 digit)
  end.

Definition validateTCKN (tckn : list ascii) : bool :=
  if negb (length tckn =? 11)%nat || Ascii.eqb (Str.at_ tckn 0) "0" then false
  else
    match tckn_loop tckn 9 0 0 0 0 with
    | None => false
    | Some (odds, evens, sum10) =>
        let digit10 := Int32.rem (Int32.sub (Int32.mul odds 7) evens) 10 in
        let digit10 := if digit10 <? 0 then Int32.add digit10 10 else digit10 in
        if negb (digit10 =? Int32.sub (int_of_char (Str.at_ tckn 9)) (int_of_char "0"))
        then false
        else
          let sum10 := Int32.add sum10 digit10 in
          let digit11 := Int32.rem sum10 10 in
          digit11 =? Int32.sub (int_of_char (Str.at_ tckn 10)) (int_of_char "0")
    end.

Record ValidationScore : Type := mkValidationScore {
  totalScore : Z;
  docNumScore : Z;
  dobScore : Z;
  expiryScore : Z;
  compositeScore : Z;
  docNumValid : bool;
  dobValid : bool;
  expiryValid : bool;
  compositeValid : bool;
  correctedLine1 : list ascii;
  correctedLine2 : list ascii;
  correctedLine3 : list ascii
}.

(** [ValidationScore score = {0, 0, 0, 0, 0, false, false, false, false,
    "", "", ""}]. *)
Definition initialScore : ValidationScore :=
  mkValidationScore 0 0 0 0 0 false false false false [] [] [].

Definition setCorrectedLines (l1 l2 l3 : list ascii) (s : ValidationScore)
  : ValidationScore :=
  mkValidationScore (totalScore s) (docNumScore s) (dobScore s) (expiryScore s)
    (compositeScore s) (docNumValid s) (dobValid s) (expiryValid s)
    (compositeValid s) l1 l2 l3.

(** [score.docNumValid = true; score.docNumScore = 15;] *)
Definition awardDocNum (s : ValidationScore) : ValidationScore :=
  mkValidationScore (totalScore s) 15 (dobScore s) (expiryScore s)
    (compositeScore s) true (dobValid s) (expiryValid s) (compositeValid s)
    (correctedLine1 s) (correctedLine2 s) (correctedLine3 s).

(** [score.dobValid = true; score.dobScore = 15;] *)
Definition awardDob (s : ValidationScore) : ValidationScore :=
  mkValidationScore (totalScore s) (docNumScore s) 15 (expiryScore s)
    (compositeScore s) (docNumValid s) true (expiryValid s) (compositeValid s)
    (correctedLine1 s) (correctedLine2 s) (correctedLine3 s).

(** [score.expiryValid = true; score.expiryScore = 15;] *)
Definition awardExpiry (s : ValidationScore) : ValidationScore :=
  mkValidationScore (totalScore s) (docNumScore s) (dobScore s) 15
    (compositeScore s) (docNumValid s) (dobValid s) true (compositeValid s)
    (correctedLine1 s) (correctedLine2 s) (correctedLine3 s).

(** [score.compositeValid = true; score.compositeScore = 15;] *)
Definition awardComposite (s : ValidationScore) : ValidationScore :=
  mkValidationScore (totalScore s) (docNumScore s) (dobScore s) (expiryScore s)
    15 (docNumValid s) (dobValid s) (expiryValid s) true
    (correctedLine1 s) (correctedLine2 s) (correctedLine3 s).

(** [score.totalScore = score.docNumScore + score.dobScore +
    score.expiryScore + score.compositeScore;] *)
Definition sumTotal (s : ValidationScore) : ValidationScore :=
  mkValidationScore
    (Int32.add (Int32.add (Int32.add (docNumScore s) (dobScore s))
                          (expiryScore s)) (compositeScore s))
    (docNumScore s) (dobScore s) (expiryScore s)
    (compositeScore s) (docNumValid s) (dobValid s) (expiryValid s)
    (compositeValid s)
    (correctedLine1 s) (correctedLine2 s) (correctedLine3 s).

(** [line = correctOCRErrors(raw); line.resize(30, '<')]: the line every
    substring read of [validateWithScore] goes through. *)
Definition paddedLine (raw : list ascii) : list ascii :=
  Str.resize (correctOCRErrors raw) 30 "<".

(** 1. Document number (line 1, positions 5-13, check at 14).  The TCKN test
    nested in this branch only writes to the log. *)
Definition checkDocNum (line1 : list ascii) (score : ValidationScore)
  : ValidationScore :=
  if (15 <=? length line1)%nat then
    let docNum := Str.substr line1 5 9 in
    let docNumCheck := Str.at_ line1 14 in
    let score :=
      if validateCheckDigit docNum docNumCheck then awardDocNum score
      else score in
    if (27 <=? length line1)%nat then
      let tckn := Str.substr line1 16 11 in
      if validateTCKN tckn then score else score
    else score
  else score.

(** 2. Birth date (line 2, positions 0-5, check at 6). *)
Definition checkDob (line2 : list ascii) (score : ValidationScore)
  : ValidationScore :=
  if (7 <=? length line2)%nat then
    let dob := Str.substr line2 0 6 in
    let dobCheck := Str.at_ line2 6 in
    if validateCheckDigit dob dobCheck then awardDob score else score
  else score.

(** 3. Expiry date (line 2, positions 8-13, check at 14). *)
Definition checkExpiry (line2 : list ascii) (score : ValidationScore)
  : ValidationScore :=
  if (15 <=? length line2)%nat then
    let expiry := Str.substr line2 8 6 in
    let expiryCheck := Str.at_ line2 14 in
    if validateCheckDigit expiry expiryCheck then awardExpiry score else score
  else score.

(** The string assembled for the composite check. *)
Definition compositeData (line1 line2 : list ascii) : list ascii :=
  ((Str.substr line1 5 25 ++ Str.substr line2 0 7)
   ++ Str.substr line2 8 7) ++ Str.substr line2 18 11.

(** 4. Composite (check at line 2, position 29). *)
Definition checkComposite (line1 line2 : list ascii) (score : ValidationScore)
  : ValidationScore :=
  if (30 <=? length line1)%nat && (30 <=? length line2)%nat then
    let compositeCheck := Str.at_ line2 29 in
    if validateCheckDigit (compositeData line1 line2) compositeCheck
    then awardComposite score
    else score
  else score.

(** Line 3 is corrected and padded like the other two, and never read. *)
Definition validateWithScore (line1Raw line2Raw line3Raw : list ascii)
  : ValidationScore :=
  let score := initialScore in
  let score :=
    setCorrectedLines (correctOCRErrors line1Raw) (correctOCRErrors line2Raw)
                      (correctOCRErrors line3Raw) score in
  let line1 := paddedLine line1Raw in
  let line2 := paddedLine line2Raw in
  let score := checkDocNum line1 score in
  let score := checkDob line2 score in
  let score := checkExpiry line2 score in
  let score := checkComposite line1 line2 score in
  sumTotal score.

End MRZValidator.

(** ** IEEE 754 binary floating point

    A finite value is [mant * 2^expo].  [round prec n d] is the value of
    precision [prec] nearest to the rational [n / d], ties to even.  The
    exponent range is not modelled: every value that occurs below is zero or
    has a magnitude between 2^-31 and 2^62, far inside the normal range of
    both [float] and [double]. *)

Module Fp.

Record t : Type := mk { mant : Z; expo : Z }.

(** The integer nearest to [n / d] for [0 <= n], [0 < d], ties to even. *)
Definition rne (n d : Z) : Z :=
  let q := n / d in
  let r := n mod d in
  if 2 * r <? d then q
  else if d <? 2 * r then q + 1
  else if Z.even q then q else q + 1.

(** [n / d / 2^e] as a fraction of integers. *)
Definition num_at (n e : Z) : Z := n * 2 ^ Z.max 0 (- e).
Definition den_at (d e : Z) : Z := d * 2 ^ Z.max 0 e.

Definition round_pos (prec n d : Z) : t :=
  if n <=? 0 then mk 0 0
  else
    let e0 := Z.log2 n - Z.log2 d - (prec - 1) in
    let e := if num_at n e0 <? 2 ^ (prec - 1) * den_at d e0 then e0 - 1 else e0 in
    mk (rne (num_at n e) (den_at d e)) e.

Definition round (prec n d : Z) : t :=
  if n <? 0 then let r := round_pos prec (- n) d in mk (- mant r) (expo r)
  else round_pos prec n d.

(** [a] and [b] over the common exponent [Z.min (expo a) (expo b)]. *)
Definition aligned (a b : t) : Z * Z :=
  let e := Z.min (expo a) (expo b) in
  (mant a * 2 ^ (expo a - e), mant b * 2 ^ (expo b - e)).

Definition leb (a b : t) : bool := fst (aligned a b) <=? snd (aligned a b).
Definition ltb (a b : t) : bool := fst (aligned a b) <? snd (aligned a b).

Definition add (prec : Z) (a b : t) : t :=
  let e := Z.min (expo a) (expo b) in
  round prec ((fst (aligned a b) + snd (aligned a b)) * 2 ^ Z.max 0 e)
             (2 ^ Z.max 0 (- e)).

Definition sub (prec : Z) (a b : t) : t := add prec a (mk (- mant b) (expo b)).

Definition mul (prec : Z) (a b : t) : t :=
  let e := expo a + expo b in
  round prec (mant a * mant b * 2 ^ Z.max 0 e) (2 ^ Z.max 0 (- e)).

(** Division by zero (an infinity or a NaN) is outside the model. *)
Definition div (prec : Z) (a b : t) : t :=
  let e := expo a - expo b in
  let s := if mant b <? 0 then -1 else 1 in
  round prec (s * mant a * 2 ^ Z.max 0 e) (s * mant b * 2 ^ Z.max 0 (- e)).

(** The correctly rounded square root of a non-negative value. *)
Definition sqrt (prec : Z) (a : t) : t :=
  if mant a <=? 0 then mk 0 0
  else
    (* an even exponent [e2], and enough extra bits for [prec + 1] digits *)
    let e2 := if Z.even (expo a) then expo a else expo a - 1 in
    let m2 := if Z.even (expo a) then mant a else 2 * mant a in
    let k := Z.max 0 (prec + 1 - Z.log2 m2 / 2) in
    let s := m2 * 2 ^ (2 * k) in
    let r := Z.sqrt s in
    (* [r <= sqrt s < r + 1]; the sticky digit keeps the rounding exact *)
    let sticky := if r * r =? s then 0 else 1 in
    round prec ((2 * r + sticky) * 2 ^ Z.max 0 (e2 / 2 - k - 1))
               (2 ^ Z.max 0 (- (e2 / 2 - k - 1))).

(** Truncation toward zero. *)
Definition trunc (a : t) : Z :=
  if 0 <=? expo a then mant a * 2 ^ expo a
  else Z.quot (mant a) (2 ^ (- expo a)).

End Fp.

(** C++ [float]. *)

Module F32.

Definition prec : Z := 24.

(** A decimal literal [n/d] with the suffix [f]. *)
Definition lit (n d : Z) : Fp.t := Fp.round prec n d.

(** [static_cast<float>(z)] and the implicit conversion [int -> float]. *)
Definition of_int (z : Z) : Fp.t := Fp.round prec z 1.

Definition mul : Fp.t -> Fp.t -> Fp.t := Fp.mul prec.
Definition div : Fp.t -> Fp.t -> Fp.t := Fp.div prec.
Definition sub : Fp.t -> Fp.t -> Fp.t := Fp.sub prec.

(** [static_cast<int>(x)]: truncation; a value outside the [int] range has
    no defined result in C++ and is reduced into the range here. *)
Definition to_int (x : Fp.t) : Z := Int32.wrap (Fp.trunc x).

Definition zero : Fp.t := lit 0 1.
Definition one : Fp.t := lit 1 1.

End F32.

(** ** Exceptions

    An OpenCV call either returns or throws [cv::Exception]. *)

Inductive result (A : Type) : Type :=
| Ok (a : A)
| Thrown.

Arguments Ok {A} a.
Arguments Thrown {A}.

Definition bind {A B : Type} (r : result A) (k : A -> result B) : result B :=
  match r with
  | Ok a => k a
  | Thrown => Thrown
  end.

Notation "x <- e ;; k" := (bind e (fun x => k))
  (at level 61, e at next level, right associativity).

(** ** ROIMapper.h *)

Module ROIType.

Inductive t : Type :=
| TCKN | SURNAME | NAME | MRZ | PHOTO | SERIAL | BIRTHDATE | EXPIRY.

End ROIType.

Record ROIRegion : Type := mkROIRegion {
  region_x : Fp.t;
  region_y : Fp.t;
  region_width : Fp.t;
  region_height : Fp.t;
  invertColors : bool;
  binarizeBlockSize : Z;
  binarizeC : Z
}.

Module FrontROI.

Definition TCKN : ROIRegion :=
  mkROIRegion (F32.lit 3 100) (F32.lit 20 100) (F32.lit 28 100) (F32.lit 12 100)
              false 15 8.
Definition SURNAME : ROIRegion :=
  mkROIRegion (F32.lit 3 100) (F32.lit 38 100) (F32.lit 55 100) (F32.lit 10 100)
              false 21 5.
Definition NAME : ROIRegion :=
  mkROIRegion (F32.lit 3 100) (F32.lit 48 100) (F32.lit 55 100) (F32.lit 10 100)
              false 21 5.
Definition BIRTHDATE : ROIRegion :=
  mkROIRegion (F32.lit 3 100) (F32.lit 58 100) (F32.lit 40 100) (F32.lit 10 100)
              false 17 6.
Definition SERIAL : ROIRegion :=
  mkROIRegion (F32.lit 3 100) (F32.lit 68 100) (F32.lit 35 100) (F32.lit 10 100)
              false 15 7.
Definition PHOTO : ROIRegion :=
  mkROIRegion (F32.lit 68 100) (F32.lit 18 100) (F32.lit 28 100) (F32.lit 45 100)
              false 0 0.

End FrontROI.

Module BackROI.

Definition MRZ : ROIRegion :=
  mkROIRegion (F32.lit 0 1) (F32.lit 72 100) (F32.lit 1 1) (F32.lit 28 100)
              true 11 4.

End BackROI.

Definition getROIRegion (type : ROIType.t) (isBackSide : bool) : ROIRegion :=
  if isBackSide then
    match type with
    | ROIType.MRZ => BackROI.MRZ
    | _ => BackROI.MRZ
    end
  else
    match type with
    | ROIType.TCKN => FrontROI.TCKN
    | ROIType.SURNAME => FrontROI.SURNAME
    | ROIType.NAME => FrontROI.NAME
    | ROIType.PHOTO => FrontROI.PHOTO
    | ROIType.SERIAL => FrontROI.SERIAL
    | ROIType.BIRTHDATE => FrontROI.BIRTHDATE
    | _ => FrontROI.TCKN
    end.

(** ** VisionProcessor.h: constants *)

Definition TARGET_WIDTH : Z := 856.
Definition TARGET_HEIGHT : Z := 540.
Definition MRZ_TOP_RATIO : Fp.t := F32.lit 72 100.

(** ** The OpenCV interface

    The image type and the library calls the pipeline makes.  Their pixel
    results are the library's; the pipeline is modelled over every
    implementation of this interface, and each call may throw. *)

Record Rect : Type := mkRect {
  rect_x : Z; rect_y : Z; rect_width : Z; rect_height : Z
}.

(** [cv::Point] and [cv::Point2f]. *)
Definition Point : Type := (Z * Z)%type.
Definition Point2f : Type := (Fp.t * Fp.t)%type.

Inductive ColorConversionCode : Type := COLOR_BGR2GRAY | COLOR_BGRA2GRAY.
Inductive ThresholdType : Type := THRESH_BINARY | THRESH_BINARY_OTSU.
Inductive AdaptiveMethod : Type := ADAPTIVE_THRESH_GAUSSIAN_C.
Inductive MorphType : Type := MORPH_CLOSE.
Inductive MorphShape : Type := MORPH_RECT.
Inductive Interpolation : Type := INTER_CUBIC.

Class OpenCV (Mat : Type) : Type := {
  (** [Mat()] *)
  Mat_new : Mat;
  rows : Mat -> Z;
  cols : Mat -> Z;
  channels : Mat -> Z;
  empty : Mat -> bool;
  clone : Mat -> Mat;
  (** [src(rect)] *)
  roi : Mat -> Rect -> result Mat;
  cvtColor : Mat -> ColorConversionCode -> result Mat;
  (** [createCLAHE(); setClipLimit(clip); setTilesGridSize(tiles); apply] *)
  claheApply : Z -> Z * Z -> Mat -> result Mat;
  fastNlMeansDenoising : Mat -> Z -> Z -> Z -> result Mat;
  adaptiveThreshold :
    Mat -> Z -> AdaptiveMethod -> ThresholdType -> Z -> Z -> result Mat;
  (** [morphologyEx(src, dst, op, getStructuringElement(shape, ksize))] *)
  morphologyEx : Mat -> MorphType -> MorphShape -> Z * Z -> result Mat;
  medianBlur : Mat -> Z -> result Mat;
  GaussianBlur : Mat -> Z * Z -> Z -> result Mat;
  bitwise_not : Mat -> result Mat;
  threshold : Mat -> Z -> Z -> ThresholdType -> result Mat;
  (** [(float) norm(p)] of a [Point2f] *)
  norm : Point2f -> Fp.t;
  getPerspectiveTransform : list Point2f -> list Point2f -> result Mat;
  warpPerspective : Mat -> Mat -> Z * Z -> Interpolation -> result Mat;
  (** [std::sort] by ascending [y]; the standard leaves the order of points
      of equal [y] to the implementation *)
  sort_by_y : list Point2f -> list Point2f
}.

(** ** VisionProcessor *)

Section VisionProcessor.

Context {Mat : Type} {cv : OpenCV Mat}.

(** The grayscale step every routine starts with. *)
Definition toGray (src : Mat) : result Mat :=
  if (channels src =? 3) || (channels src =? 4)
  then cvtColor src (if channels src =? 4 then COLOR_BGRA2GRAY else COLOR_BGR2GRAY)
  else Ok (clone src).

Definition binarizeForOCR (src : Mat) : result Mat :=
  if empty src then Ok Mat_new
  else
    gray <- toGray src ;;
    enhanced <- claheApply 2 (8, 8) gray ;;
    denoised <- fastNlMeansDenoising enhanced 10 7 21 ;;
    binary <- adaptiveThreshold denoised 255 ADAPTIVE_THRESH_GAUSSIAN_C
                                THRESH_BINARY 15 10 ;;
    binary <- morphologyEx binary MORPH_CLOSE MORPH_RECT (1, 1) ;;
    medianBlur binary 3.

(** [static_cast<int>(src.rows * MRZ_TOP_RATIO)] *)
Definition mrzTopOf (srcRows : Z) : Z :=
  F32.to_int (F32.mul (F32.of_int srcRows) MRZ_TOP_RATIO).

Definition mrzRectOf (srcRows srcCols : Z) : Rect :=
  let mrzTop := mrzTopOf srcRows in
  let mrzHeight := Int32.sub srcRows mrzTop in
  mkRect 0 mrzTop srcCols mrzHeight.

Definition extractMRZRegion (src : Mat) : result Mat :=
  if empty src then Ok Mat_new
  else
    let mrzRect := mrzRectOf (rows src) (cols src) in
    cropped <- roi src mrzRect ;;
    let mrzRegion := clone cropped in
    binarizeForOCR mrzRegion.

(** The pixel rectangle of [extractROI]: the percentages scaled by the card
    size, then clamped. *)
Definition roiRectOf (cardCols cardRows : Z) (region : ROIRegion) : Rect :=
  let x := F32.to_int (F32.mul (region_x region) (F32.of_int cardCols)) in
  let y := F32.to_int (F32.mul (region_y region) (F32.of_int cardRows)) in
  let w := F32.to_int (F32.mul (region_width region) (F32.of_int cardCols)) in
  let h := F32.to_int (F32.mul (region_height region) (F32.of_int cardRows)) in
  let x := Int32.max 0 (Int32.min x (Int32.sub cardCols 1)) in
  let y := Int32.max 0 (Int32.min y (Int32.sub cardRows 1)) in
  let w := Int32.max 1 (Int32.min w (Int32.sub cardCols x)) in
  let h := Int32.max 1 (Int32.min h (Int32.sub cardRows y)) in
  mkRect x y w h.

Definition binarizeROI (roiMat : Mat) (region : ROIRegion) : result Mat :=
  if empty roiMat then Ok Mat_new
  else
    gray <- toGray roiMat ;;
    enhanced <- claheApply 3 (4, 4) gray ;;
    enhanced <- (if invertColors region then bitwise_not enhanced else Ok enhanced) ;;
    binary <-
      (if 0 <? binarizeBlockSize region then
         let blockSize := binarizeBlockSize region in
         let blockSize :=
           if Int32.rem blockSize 2 =? 0 then Int32.add blockSize 1 else blockSize in
         let blockSize := Int32.max 3 blockSize in
         adaptiveThreshold enhanced 255 ADAPTIVE_THRESH_GAUSSIAN_C THRESH_BINARY
                           blockSize (binarizeC region)
       else threshold enhanced 0 255 THRESH_BINARY_OTSU) ;;
    morphologyEx binary MORPH_CLOSE MORPH_RECT (1, 1).

(** The preprocessing of the MRZ branch of [extractROI]. *)
Definition mrzProfile (roiMat : Mat) : result Mat :=
  gray <- toGray roiMat ;;
  blurred <- GaussianBlur gray (3, 3) 0 ;;
  adaptiveThreshold blurred 255 ADAPTIVE_THRESH_GAUSSIAN_C THRESH_BINARY 13 10.

Definition extractROI (warpedCard : Mat) (type : ROIType.t) (isBackSide : bool)
  : result Mat :=
  if empty warpedCard then Ok Mat_new
  else
    let region := getROIRegion type isBackSide in
    let roiRect := roiRectOf (cols warpedCard) (rows warpedCard) region in
    cropped <- roi warpedCard roiRect ;;
    let roiMat := clone cropped in
    match type with
    | ROIType.PHOTO => Ok roiMat
    | ROIType.MRZ => mrzProfile roiMat
    | _ => binarizeROI roiMat region
    end.

Definition point2f_sub (a b : Point2f) : Point2f :=
  (F32.sub (fst a) (fst b), F32.sub (snd a) (snd b)).

Definition orderCorners (corners : list Point) : list Point2f :=
  if negb (length corners =? 4)%nat then []
  else
    let pts := map (fun p => (F32.of_int (fst p), F32.of_int (snd p))) corners in
    match sort_by_y pts with
    | [p0; p1; p2; p3] =>
        let '(p0, p1) := if Fp.ltb (fst p1) (fst p0) then (p1, p0) else (p0, p1) in
        let '(p2, p3) := if Fp.ltb (fst p3) (fst p2) then (p3, p2) else (p2, p3) in
        [p0; p1; p3; p2]
    | other => other
    end.

Definition f32_max (a b : Fp.t) : Fp.t := if Fp.ltb a b then b else a.

Definition warpToID1 (src : Mat) (corners : list Point) : result Mat :=
  if negb (length corners =? 4)%nat || empty src then Ok Mat_new
  else
    let orderedCorners := orderCorners corners in
    let at_ i := nth i orderedCorners (F32.zero, F32.zero) in
    let widthTop := norm (point2f_sub (at_ 1%nat) (at_ 0%nat)) in
    let widthBottom := norm (point2f_sub (at_ 2%nat) (at_ 3%nat)) in
    let heightLeft := norm (point2f_sub (at_ 3%nat) (at_ 0%nat)) in
    let heightRight := norm (point2f_sub (at_ 2%nat) (at_ 1%nat)) in
    let maxWidth := f32_max widthTop widthBottom in
    let maxHeight := f32_max heightLeft heightRight in
    let '(dstWidth, dstHeight) :=
      if Fp.ltb maxWidth maxHeight then (TARGET_HEIGHT, TARGET_WIDTH)
      else (TARGET_WIDTH, TARGET_HEIGHT) in
    let dstPoints :=
      [ (F32.of_int 0, F32.of_int 0);
        (F32.of_int (Int32.sub dstWidth 1), F32.of_int 0);
        (F32.of_int (Int32.sub dstWidth 1), F32.of_int (Int32.sub dstHeight 1));
        (F32.of_int 0, F32.of_int (Int32.sub dstHeight 1)) ] in
    M <- getPerspectiveTransform orderedCorners dstPoints ;;
    warpPerspective src M (dstWidth, dstHeight) INTER_CUBIC.

End VisionProcessor.

(** ** OpenCV as a record of calls

    An image is known by its shape and by the library calls that produced
    it from a source image.  The calls check the preconditions OpenCV
    asserts on shapes and throw when they fail. *)

Module Trace.

Inductive Call : Type :=
| Roi (r : Rect)
| CvtColor (code : ColorConversionCode)
| CLAHE (clipLimit : Z) (tiles : Z * Z)
| FastNlMeansDenoising (h templateWindow searchWindow : Z)
| AdaptiveThreshold (maxValue : Z) (method : AdaptiveMethod)
                    (type : ThresholdType) (blockSize C : Z)
| MorphologyEx (op : MorphType) (shape : MorphShape) (ksize : Z * Z)
| MedianBlur (ksize : Z)
| GaussianBlurCall (ksize : Z * Z) (sigma : Z)
| BitwiseNot
| Threshold (thresh maxval : Z) (type : ThresholdType)
| GetPerspectiveTransform (srcPts dstPts : list Point2f)
| WarpPerspective (transform : option (list Point2f * list Point2f))
                  (dsize : Z * Z) (flags : Interpolation).

Record Mat : Type := mkMat {
  mat_rows : Z;
  mat_cols : Z;
  mat_channels : Z;
  calls : list Call
}.

(** A source image, as the caller hands it in. *)
Definition image (r c ch : Z) : Mat := mkMat r c ch [].

Definition after (m : Mat) (c : Call) : Mat :=
  mkMat (mat_rows m) (mat_cols m) (mat_channels m) (calls m ++ [c]).

Definition is_empty (m : Mat) : bool := mat_rows m * mat_cols m =? 0.

Definition inside (m : Mat) (r : Rect) : bool :=
  (0 <=? rect_x r) && (0 <=? rect_width r)
  && (rect_x r + rect_width r <=? mat_cols m)
  && (0 <=? rect_y r) && (0 <=? rect_height r)
  && (rect_y r + rect_height r <=? mat_rows m).

Definition do_roi (m : Mat) (r : Rect) : result Mat :=
  if inside m r
  then Ok (mkMat (rect_height r) (rect_width r) (mat_channels m) (calls m ++ [Roi r]))
  else Thrown.

Definition do_cvtColor (m : Mat) (code : ColorConversionCode) : result Mat :=
  if (mat_channels m =? 3) || (mat_channels m =? 4)
  then Ok (mkMat (mat_rows m) (mat_cols m) 1 (calls m ++ [CvtColor code]))
  else Thrown.

Definition do_adaptiveThreshold (m : Mat) (maxValue : Z) (method : AdaptiveMethod)
  (type : ThresholdType) (blockSize C : Z) : result Mat :=
  if (mat_channels m =? 1) && Z.odd blockSize && (1 <? blockSize)
  then Ok (after m (AdaptiveThreshold maxValue method type blockSize C))
  else Thrown.

(** The point pairs a transform was computed from. *)
Definition transform_of (M : Mat) : option (list Point2f * list Point2f) :=
  match calls M with
  | [GetPerspectiveTransform s d] => Some (s, d)
  | _ => None
  end.

(** [sqrt((double)x*x + (double)y*y)], narrowed to [float]. *)
Definition do_norm (p : Point2f) : Fp.t :=
  let xx := Fp.mul 53 (fst p) (fst p) in
  let yy := Fp.mul 53 (snd p) (snd p) in
  let d := Fp.sqrt 53 (Fp.add 53 xx yy) in
  Fp.round F32.prec (Fp.mant d * 2 ^ Z.max 0 (Fp.expo d)) (2 ^ Z.max 0 (- Fp.expo d)).

Fixpoint insert_by_y (p : Point2f) (l : list Point2f) : list Point2f :=
  match l with
  | [] => [p]
  | q :: rest => if Fp.ltb (snd q) (snd p) then q :: insert_by_y p rest else p :: l
  end.

Definition do_sort_by_y (l : list Point2f) : list Point2f :=
  fold_right insert_by_y [] l.

#[global] Instance opencv : OpenCV Mat := {|
  Mat_new := mkMat 0 0 1 [];
  rows := mat_rows;
  cols := mat_cols;
  channels := mat_channels;
  empty := is_empty;
  clone := fun m => m;
  roi := do_roi;
  cvtColor := do_cvtColor;
  claheApply := fun clip tiles m => Ok (after m (CLAHE clip tiles));
  fastNlMeansDenoising := fun m h t s => Ok (after m (FastNlMeansDenoising h t s));
  adaptiveThreshold := do_adaptiveThreshold;
  morphologyEx := fun m op shape k => Ok (after m (MorphologyEx op shape k));
  medianBlur := fun m k => Ok (after m (MedianBlur k));
  GaussianBlur := fun m k sigma => Ok (after m (GaussianBlurCall k sigma));
  bitwise_not := fun m => Ok (after m BitwiseNot);
  threshold := fun m t mv ty => Ok (after m (Threshold t mv ty));
  norm := do_norm;
  getPerspectiveTransform :=
    fun s d => Ok (mkMat 3 3 1 [GetPerspectiveTransform s d]);
  warpPerspective :=
    fun m M dsize flags =>
      Ok (mkMat (snd dsize) (fst dsize) (mat_channels m)
                (calls m ++ [WarpPerspective (transform_of M) dsize flags]));
  sort_by_y := do_sort_by_y
|}.

End Trace.

(** ** OpenCV on pixels: [detectGlare]

    The glare score reads pixel values, so here an image is its samples: an
    8-bit matrix of [rows * cols] pixels in row-major order, each pixel a
    list of [channels] samples. *)

Module Pixel.

Record Mat : Type := mkMat {
  rows : Z;
  cols : Z;
  channels : Z;
  data : list (list Z)
}.

Definition well_formed (m : Mat) : Prop :=
  0 <= rows m /\ 0 <= cols m
  /\ Z.of_nat (length (data m)) = rows m * cols m
  /\ Forall (fun px => Z.of_nat (length px) = channels m) (data m).

(** [m.empty()]: no element. *)
Definition empty (m : Mat) : bool := rows m * cols m =? 0.

Definition clone (m : Mat) : Mat := m.

Section Glare.

(** The gray level OpenCV computes from the samples of one colour pixel. *)
Variable luma : list Z -> Z.

(** [cvtColor(src, gray, COLOR_BGR2GRAY)] and [COLOR_BGRA2GRAY]. *)
Definition cvtColor (m : Mat) (code : ColorConversionCode) : result Mat :=
  if (channels m =? 3) || (channels m =? 4)
  then Ok (mkMat (rows m) (cols m) 1 (map (fun px => [luma px]) (data m)))
  else Thrown.

(** [threshold(src, dst, thresh, maxval, THRESH_BINARY)]: a sample becomes
    [maxval] when it is greater than [thresh], and 0 otherwise. *)
Definition threshold (m : Mat) (thresh maxval : Z) : Mat :=
  mkMat (rows m) (cols m) (channels m)
        (map (map (fun v => if thresh <? v then maxval else 0)) (data m)).

(** [countNonZero(m)]; it throws unless the matrix has one channel. *)
Definition countNonZero (m : Mat) : result Z :=
  if channels m =? 1
  then Ok (Z.of_nat (length (filter (fun px => negb (hd 0 px =? 0)) (data m))))
  else Thrown.

Definition toGray (src : Mat) : result Mat :=
  if (channels src =? 3) || (channels src =? 4)
  then cvtColor src (if channels src =? 4 then COLOR_BGRA2GRAY else COLOR_BGR2GRAY)
  else Ok (clone src).

Definition detectGlare (src : Mat) : result Fp.t :=
  if empty src then Ok (F32.lit 1 1)
  else
    gray <- toGray src ;;
    let bright := threshold gray 240 255 in
    let totalPixels := Int32.mul (rows gray) (cols gray) in
    brightPixels <- countNonZero bright ;;
    Ok (F32.div (F32.of_int brightPixels) (F32.of_int totalPixels)).

(** The gray level of one pixel of [src], as [detectGlare] sees it. *)
Definition gray_level (src : Mat) (px : list Z) : Z :=
  if (channels src =? 3) || (channels src =? 4) then luma px else hd 0 px.

End Glare.

End Pixel.

(** ** The reference semantics of IEEE 754

    The standard library's executable specification of binary floating
    point, against which the model [Fp] is compared on samples. *)

Module Reference.

Definition of_Fp (prec emax : Z) (x : Fp.t) : SpecFloat.spec_float :=
  if Fp.mant x =? 0 then SpecFloat.S754_zero false
  else SpecFloat.binary_normalize prec emax (Fp.mant x) (Fp.expo x) false.

Definition of_int (prec emax z : Z) : SpecFloat.spec_float :=
  SpecFloat.binary_normalize prec emax z 0 false.

Definition agree (prec emax : Z) (x : Fp.t) (y : SpecFloat.spec_float) : bool :=
  match SpecFloat.SFcompare (of_Fp prec emax x) y with
  | Some Eq => true
  | _ => false
  end.

Definition samples : list Z :=
  [1; 2; 3; 7; 10; 25; 100; 540; 856; 1000; 4095; 65535; 728193; 16777215;
   16777217; 33554435; 2147483647].

Definition sample_pairs : list (Z * Z) := list_prod samples samples.

End Reference.

(** ** The validator as the specification words it

    These definitions follow the prose of the specification, not the code;
    Part II compares them with the embedding above. *)

Module Spec.

Definition code (c : ascii) : Z := Z.of_N (N_of_ascii c).

Definition is_digit (c : ascii) : Prop := 48 <= code c <= 57.
Definition is_digitb (c : ascii) : bool := (48 <=? code c) && (code c <=? 57).
Definition is_upperb (c : ascii) : bool := (65 <=? code c) && (code c <=? 90).
Definition digit_val (c : ascii) : Z := code c - 48.
Definition digit_char (d : Z) : ascii := ascii_of_N (Z.to_N (48 + d)).

(** value(c): the digit value for '0'-'9', 10 + (c - 'A') for 'A'-'Z', 0 for
    '<' or anything unrecognized. *)
Definition value (c : ascii) : Z :=
  if is_digitb c then code c - 48
  else if is_upperb c then 10 + (code c - 65)
  else 0.

(** The weights cycle [7,3,1] by character index mod 3. *)
Definition weight (i : nat) : Z :=
  match (i mod 3)%nat with
  | 0%nat => 7
  | 1%nat => 3
  | _ => 1
  end.

(** The sum of value(c_i) * weight(i mod 3) over the characters of [data],
    the first of which has index [i]. *)
Fixpoint weighted_sum (i : nat) (data : list ascii) : Z :=
  match data with
  | [] => 0
  | c :: rest => value c * weight i + weighted_sum (S i) rest
  end.

Definition checksum (data : list ascii) : Z := weighted_sum 0 data mod 10.

(** Uppercasing of one character. *)
Definition upcase (c : ascii) : ascii :=
  if (97 <=? code c) && (code c <=? 122)
  then ascii_of_N (Z.to_N (code c - 32)) else c.

(** O->0, I->1, S->5, B->8, G->6, D->0, Q->0, Z->2, space->'<', '.'->'<';
    any other character of [A-Z0-9<] is kept, everything else becomes '<'. *)
Definition correct_char (c : ascii) : ascii :=
  let u := upcase c in
  if Ascii.eqb u "O" then "0"
  else if Ascii.eqb u "I" then "1"
  else if Ascii.eqb u "S" then "5"
  else if Ascii.eqb u "B" then "8"
  else if Ascii.eqb u "G" then "6"
  else if Ascii.eqb u "D" then "0"
  else if Ascii.eqb u "Q" then "0"
  else if Ascii.eqb u "Z" then "2"
  else if Ascii.eqb u " " then "<"
  else if Ascii.eqb u "." then "<"
  else if is_upperb u || is_digitb u || Ascii.eqb u "<" then u
  else "<"%char.

(** The characters [a, b) of [s]. *)
Definition slice (s : list ascii) (a b : nat) : list ascii :=
  firstn (b - a) (skipn a s).

(** Padding to a 30-character minimum, with no truncation. *)
Definition pad_min30 (s : list ascii) : list ascii :=
  s ++ repeat "<"%char (30 - length s).

(** The digit d(i+1) of the specification: the value of the character at
    0-indexed position [i]. *)
Definition digit_at (s : list ascii) (i : nat) : Z := digit_val (nth i s zero).

(** The TCKN rule: eleven characters, the first not '0', the first nine
    digits, and the two check digits. *)
Definition tckn_valid (s : list ascii) : Prop :=
  length s = 11%nat /\
  nth 0 s zero <> "0"%char /\
  (forall i, (i < 9)%nat -> is_digit (nth i s zero)) /\
  let d := digit_at s in
  let oddSum := d 0%nat + d 2%nat + d 4%nat + d 6%nat + d 8%nat in
  let evenSum := d 1%nat + d 3%nat + d 5%nat + d 7%nat in
  let digit10 := (oddSum * 7 - evenSum) mod 10 in
  let digit11 := (oddSum + evenSum + digit10) mod 10 in
  nth 9 s zero = digit_char digit10 /\ nth 10 s zero = digit_char digit11.

(** glareScore = (count of pixels >= 240) / totalPixels, on the gray
    levels of the image. *)
Definition glare_count_ge (levels : list Z) : Z :=
  Z.of_nat (length (filter (fun v => 240 <=? v) levels)).

(** The count the code takes: gray levels above 240. *)
Definition glare_count_gt (levels : list Z) : Z :=
  Z.of_nat (length (filter (fun v => 240 <? v) levels)).

(** binarizeForOCR, the general profile: grayscale, contrast-limited
    equalization on 8x8 tiles, non-local-means denoising (10, 7, 21),
    adaptive threshold with block 15 and constant 10, a 1x1 close, a 3x3
    median blur. *)
Definition general_profile {Mat : Type} {cv : OpenCV Mat} (m : Mat) : result Mat :=
  if empty m then Ok Mat_new
  else
    gray <- toGray m ;;
    enhanced <- claheApply 2 (8, 8) gray ;;
    denoised <- fastNlMeansDenoising enhanced 10 7 21 ;;
    binary <- adaptiveThreshold denoised 255 ADAPTIVE_THRESH_GAUSSIAN_C
                                THRESH_BINARY 15 10 ;;
    closed <- morphologyEx binary MORPH_CLOSE MORPH_RECT (1, 1) ;;
    medianBlur closed 3.

(** The lighter MRZ profile: grayscale, a 3x3 Gaussian blur, adaptive
    threshold with block 13 and constant 10; no denoising, no CLAHE. *)
Definition mrz_light_profile {Mat : Type} {cv : OpenCV Mat} (m : Mat) : result Mat :=
  gray <- toGray m ;;
  blurred <- GaussianBlur gray (3, 3) 0 ;;
  adaptiveThreshold blurred 255 ADAPTIVE_THRESH_GAUSSIAN_C THRESH_BINARY 13 10.

(** The rows [floor(0.72 H), H) of a card at full width. *)
Definition bottom_28_percent (cardRows cardCols : Z) : Rect :=
  mkRect 0 (72 * cardRows / 100) cardCols (cardRows - 72 * cardRows / 100).

(** extractMRZRegion as the specification describes it: the bottom 28% of
    the card, binarized with the lighter MRZ profile. *)
Definition extractMRZRegion_light {Mat : Type} {cv : OpenCV Mat} (src : Mat)
  : result Mat :=
  if empty src then Ok Mat_new
  else
    cropped <- roi src (bottom_28_percent (rows src) (cols src)) ;;
    mrz_light_profile (clone cropped).

(** [f] holds on the [n] integers from [r] on. *)
Fixpoint all_from (n : nat) (r : Z) (f : Z -> bool) : bool :=
  match n with
  | O => true
  | S k => f r && all_from k (r + 1) f
  end.

End Spec.

(** ** Vocabulary for further properties of the validator *)

Module Props.

(** [s] with the character at position [i] replaced by [c]. *)
Definition replace_at (i : nat) (c : ascii) (s : list ascii) : list ascii :=
  firstn i s ++ c :: skipn (S i) s.

(** The characters [correctOCRErrors] can produce. *)
Definition corrected_alphabet : list ascii :=
  Str.lit "ACEFHJKLMNPRTUVWXY0123456789<".

(** The scores and flags of a result, without the corrected lines. *)
Definition verdict (s : ValidationScore)
  : Z * Z * Z * Z * Z * bool * bool * bool * bool :=
  (totalScore s, docNumScore s, dobScore s, expiryScore s, compositeScore s,
   docNumValid s, dobValid s, expiryValid s, compositeValid s).

(** Rows, columns and channels of a traced image. *)
Definition shape (m : Trace.Mat) : Z * Z * Z :=
  (Trace.mat_rows m, Trace.mat_cols m, Trace.mat_channels m).

(** An 8-bit image the pipeline is fed: gray, BGR or BGRA, at least one
    pixel, its dimensions [int]s. *)
Definition image_like (m : Trace.Mat) : Prop :=
  1 <= Trace.mat_rows m <= Int32.INT_MAX
  /\ 1 <= Trace.mat_cols m <= Int32.INT_MAX
  /\ (Trace.mat_channels m = 1 \/ Trace.mat_channels m = 3
      \/ Trace.mat_channels m = 4).

End Props.

(** ** Further routines of VisionProcessor

    Corner detection, the frame orchestration and the blur and stability
    scores, over the OpenCV calls they add to the interface.  What the
    library measures (areas, perimeters, deviations, means) is a finite
    value of the model [Fp]; infinities and NaN are not modelled. *)

(** C++ [double]. *)

Module F64.

Definition prec : Z := 53.

Definition lit (n d : Z) : Fp.t := Fp.round prec n d.

(** The implicit conversion [int -> double]. *)
Definition of_int (z : Z) : Fp.t := Fp.round prec z 1.

Definition mul : Fp.t -> Fp.t -> Fp.t := Fp.mul prec.
Definition div : Fp.t -> Fp.t -> Fp.t := Fp.div prec.

(** [std::min(a, b)]: [b] when [b < a], and [a] otherwise. *)
Definition min (a b : Fp.t) : Fp.t := if Fp.ltb b a then b else a.

End F64.

(** [static_cast<float>(x)] of a [double], and the conversion on
    assignment to a [float]. *)
Definition narrow (x : Fp.t) : Fp.t :=
  Fp.round F32.prec (Fp.mant x * 2 ^ Z.max 0 (Fp.expo x))
           (2 ^ Z.max 0 (- Fp.expo x)).

(** [a + b] on [float]. *)
Definition f32_add : Fp.t -> Fp.t -> Fp.t := Fp.add F32.prec.

Class OpenCVStats (Mat : Type) {cv : OpenCV Mat} : Type := {
  countNonZero : Mat -> result Z;
  (** [Laplacian(src, dst, CV_64F)] *)
  Laplacian : Mat -> result Mat;
  (** [meanStdDev(m, mean, stddev)]: the pair [mean[0]], [stddev[0]] *)
  meanStdDev : Mat -> result (Fp.t * Fp.t);
  resize : Mat -> Z * Z -> result Mat;
  absdiff : Mat -> Mat -> result Mat;
  (** [mean(m)[0]] *)
  mean : Mat -> result Fp.t;
  (** [m.reshape(1, 1).copyTo(sorted); cv::sort(sorted, sorted, ...);
      sorted.at<uchar>(sorted.cols / 2)] *)
  sortedMiddle : Mat -> result Z;
  Canny : Mat -> Z -> Z -> result Mat;
  (** [dilate(src, dst, getStructuringElement(shape, ksize), Point(-1,-1),
      iterations)] *)
  dilate : Mat -> MorphShape -> Z * Z -> Z -> result Mat;
  (** [findContours(m, contours, RETR_LIST, CHAIN_APPROX_SIMPLE)] *)
  findContours : Mat -> result (list (list Point));
  contourArea : list Point -> Fp.t;
  arcLength : list Point -> bool -> Fp.t;
  approxPolyDP : list Point -> Fp.t -> bool -> result (list Point);
  isContourConvex : list Point -> bool;
  (** [cvtColor(src, dst, COLOR_RGBA2BGR)] *)
  cvtColorRGBA2BGR : Mat -> result Mat
}.

Module CornerResult.

Record t : Type := mk {
  corners : list Point;
  confidence : Fp.t;
  detected : bool
}.

End CornerResult.

Module ProcessedFrame.

Record t (Mat : Type) : Type := mk {
  normalized : Mat;
  binarized : Mat;
  mrzRegion : Mat;
  cardDetected : bool;
  perspectiveConfidence : Fp.t;
  glareScore : Fp.t;
  cardWidth : Z;
  cardHeight : Z
}.

Arguments mk {Mat}.
Arguments normalized {Mat}.
Arguments binarized {Mat}.
Arguments mrzRegion {Mat}.
Arguments cardDetected {Mat}.
Arguments perspectiveConfidence {Mat}.
Arguments glareScore {Mat}.
Arguments cardWidth {Mat}.
Arguments cardHeight {Mat}.

End ProcessedFrame.

Section Detection.

Context {Mat : Type} {cv : OpenCV Mat} {stats : OpenCVStats Mat}.

(** [detectGlare] over the interface ([Pixel.detectGlare] is the same
    routine with the calls read on pixels).  The code does not use its
    [mask] argument. *)
Definition detectGlare (src : Mat) : result Fp.t :=
  if empty src then Ok (F32.lit 1 1)
  else
    gray <- toGray src ;;
    bright <- threshold gray 240 255 THRESH_BINARY ;;
    let totalPixels := Int32.mul (rows gray) (cols gray) in
    brightPixels <- countNonZero bright ;;
    Ok (F32.div (F32.of_int brightPixels) (F32.of_int totalPixels)).

Definition calculateAspectRatio (corners : list Point) : Fp.t :=
  if negb (length corners =? 4)%nat then F32.lit 0 1
  else
    let ordered := orderCorners corners in
    let at_ i := nth i ordered (F32.zero, F32.zero) in
    let width1 := norm (point2f_sub (at_ 1%nat) (at_ 0%nat)) in
    let width2 := norm (point2f_sub (at_ 2%nat) (at_ 3%nat)) in
    let avgWidth := F32.div (f32_add width1 width2) (F32.lit 2 1) in
    let height1 := norm (point2f_sub (at_ 3%nat) (at_ 0%nat)) in
    let height2 := norm (point2f_sub (at_ 2%nat) (at_ 1%nat)) in
    let avgHeight := F32.div (f32_add height1 height2) (F32.lit 2 1) in
    if Fp.ltb avgHeight (F32.lit 1 1) then F32.lit 0 1
    else F32.div avgWidth avgHeight.

(** The state of the contour loop of [findCardCorners]: [bestApprox],
    [bestScore] and [result.confidence]. *)
Definition Best : Type := (list Point * Fp.t * Fp.t)%type.

(** [std::min(1.0, area / (src.rows * src.cols * 0.5))], stored in a
    [float]. *)
Definition confidenceOf (src : Mat) (area : Fp.t) : Fp.t :=
  narrow (F64.min (F64.lit 1 1)
            (F64.div area
               (F64.mul (F64.of_int (Int32.mul (rows src) (cols src)))
                        (F64.lit 5 10)))).

(** One iteration of [for (const auto& contour : contours)]; a [continue]
    leaves the state as it is. *)
Definition considerContour (src : Mat) (minArea : Fp.t) (st : Best)
  (contour : list Point) : result Best :=
  let '(bestApprox, bestScore, conf) := st in
  let area := contourArea contour in
  if Fp.ltb area minArea then Ok st
  else
    let peri := arcLength contour true in
    approx <- approxPolyDP contour (F64.mul (F64.lit 2 100) peri) true ;;
    if negb (length approx =? 4)%nat then Ok st
    else if negb (isContourConvex approx) then Ok st
    else
      let aspectRatio := calculateAspectRatio approx in
      if Fp.ltb aspectRatio (F32.lit 2 10) || Fp.ltb (F32.lit 5 1) aspectRatio
      then Ok st
      else
        let score := area in
        if Fp.ltb bestScore score
        then Ok (approx, score, confidenceOf src area)
        else Ok st.

(** A contour that passes every test of the loop, with the quadrilateral
    [approxPolyDP] makes of it. *)
Definition candidate (minArea : Fp.t) (contour approx : list Point) : Prop :=
  Fp.ltb (contourArea contour) minArea = false
  /\ approxPolyDP contour (F64.mul (F64.lit 2 100) (arcLength contour true)) true
     = Ok approx
  /\ length approx = 4%nat
  /\ isContourConvex approx = true
  /\ Fp.ltb (calculateAspectRatio approx) (F32.lit 2 10) = false
  /\ Fp.ltb (F32.lit 5 1) (calculateAspectRatio approx) = false.

Fixpoint contourLoop (src : Mat) (minArea : Fp.t) (contours : list (list Point))
  (st : Best) : result Best :=
  match contours with
  | [] => Ok st
  | contour :: rest =>
      st' <- considerContour src minArea st contour ;;
      contourLoop src minArea rest st'
  end.

Definition findCardCorners (src : Mat) : result CornerResult.t :=
  let result := CornerResult.mk [] (F32.lit 0 1) false in
  if empty src then Ok result
  else
    gray <- toGray src ;;
    blurred <- GaussianBlur gray (5, 5) 0 ;;
    median <- sortedMiddle blurred ;;
    edged <- Canny blurred 30 100 ;;
    edged <- dilate edged MORPH_RECT (3, 3) 2 ;;
    contours <- findContours edged ;;
    match contours with
    | [] => Ok result
    | _ =>
        let minArea :=
          F64.mul (F64.of_int (Int32.mul (rows src) (cols src))) (F64.lit 5 100) in
        st <- contourLoop src minArea contours ([], F64.lit 0 1, F32.lit 0 1) ;;
        let '(bestApprox, bestScore, conf) := st in
        if (length bestApprox =? 4)%nat
        then Ok (CornerResult.mk bestApprox conf true)
        else Ok (CornerResult.mk [] conf false)
    end.

Definition processForOCR (inputRGB : Mat) : result (ProcessedFrame.t Mat) :=
  let result := ProcessedFrame.mk Mat_new Mat_new Mat_new false (F32.lit 0 1)
                                  (F32.lit 1 1) 0 0 in
  if empty inputRGB then Ok result
  else
    corners <- findCardCorners inputRGB ;;
    if negb (CornerResult.detected corners) then Ok result
    else
      let confidence := CornerResult.confidence corners in
      glare <- detectGlare inputRGB ;;
      warped <- warpToID1 inputRGB (CornerResult.corners corners) ;;
      if empty warped
      then Ok (ProcessedFrame.mk Mat_new Mat_new Mat_new false confidence glare 0 0)
      else
        let normalized := clone warped in
        binarized <- binarizeForOCR warped ;;
        mrzRegion <- extractMRZRegion warped ;;
        Ok (ProcessedFrame.mk normalized binarized mrzRegion true confidence glare
                              (cols warped) (rows warped)).

Definition calculateBlurScore (src : Mat) : result Fp.t :=
  if empty src then Ok (F32.lit 0 1)
  else
    gray <- toGray src ;;
    laplacian <- Laplacian gray ;;
    ms <- meanStdDev laplacian ;;
    let stddev := snd ms in
    let variance := F64.mul stddev stddev in
    let scaledVariance := F64.mul variance (F64.lit 20 1) in
    Ok (narrow (F64.min (F64.lit 100 1) scaledVariance)).

(** The grayscale step of [calculateStability]: a single-channel frame is
    used as it is, not cloned. *)
Definition grayOrSame (m : Mat) : result Mat :=
  if (channels m =? 3) || (channels m =? 4)
  then cvtColor m (if channels m =? 4 then COLOR_BGRA2GRAY else COLOR_BGR2GRAY)
  else Ok m.

Definition calculateStability (current previous : Mat) : result Fp.t :=
  if empty current || empty previous then Ok (F32.lit 0 1)
  else
    pair <-
      (if negb ((cols current =? cols previous) && (rows current =? rows previous))
       then
         curr <- resize current (200, 126) ;;
         prev <- resize previous (200, 126) ;;
         Ok (curr, prev)
       else Ok (current, previous)) ;;
    currGray <- grayOrSame (fst pair) ;;
    prevGray <- grayOrSame (snd pair) ;;
    diff <- absdiff currGray prevGray ;;
    meanDiff <- mean diff ;;
    Ok (F32.sub (F32.lit 1 1) (F32.div (narrow meanDiff) (F32.lit 255 1))).

End Detection.

(** ** native-lib.cpp

    The JNI entry points that return a number.  Their argument here is the
    image [bitmapToMat] produced from the bitmap, which is empty when the
    bitmap could not be read. *)


Section NativeLib.

Context {Mat : Type} {cv : OpenCV Mat} {stats : OpenCVStats Mat}.


End NativeLib.

Module PixelNative.

Section Glare.

Variable luma : list Z -> Z.

(** [cvtColor(src, bgr, COLOR_RGBA2BGR)] on pixels: the first three samples
    in reverse order; it throws unless the source has 3 or 4 channels. *)
Definition cvtColorRGBA2BGR (m : Pixel.Mat) : result Pixel.Mat :=
  if (Pixel.channels m =? 3) || (Pixel.channels m =? 4)
  then Ok (Pixel.mkMat (Pixel.rows m) (Pixel.cols m) 3
             (map (fun px => [nth 2 px 0; nth 1 px 0; nth 0 px 0]) (Pixel.data m)))
  else Thrown.


End Glare.

End PixelNative.

(** ** Library answers for one frame

    An implementation of the measuring calls on traced images that reports
    one quadrilateral contour and fixed statistics; the theorems hold for
    every implementation, and are exercised on this one. *)

Module Fixture.

Definition quad : list Point := [(20, 10); (180, 10); (180, 90); (20, 90)].

Definition stats : OpenCVStats Trace.Mat := {|
  countNonZero := fun _ => Ok 0;
  Laplacian := fun m => Ok m;
  meanStdDev := fun _ => Ok (F64.lit 0 1, F64.lit 3 2);
  resize := fun m dsize =>
    Ok (Trace.mkMat (snd dsize) (fst dsize) (Trace.mat_channels m) (Trace.calls m));
  absdiff := fun a _ => Ok a;
  mean := fun _ => Ok (F64.lit 51 1);
  sortedMiddle := fun _ => Ok 128;
  Canny := fun m _ _ => Ok m;
  dilate := fun m _ _ _ => Ok m;
  findContours := fun _ => Ok [quad];
  contourArea := fun _ => F64.lit 12800 1;
  arcLength := fun _ _ => F64.lit 480 1;
  approxPolyDP := fun contour _ _ => Ok contour;
  isContourConvex := fun _ => true;
  cvtColorRGBA2BGR := fun m =>
    Ok (Trace.mkMat (Trace.mat_rows m) (Trace.mat_cols m) 3 (Trace.calls m))
|}.

Definition frame : Trace.Mat := Trace.image 200 300 3.

End Fixture.

(** ** Floating-point values against integers

    The value [mant * 2^expo] of [x] compared with an integer, and read over
    a common scale. *)

Module Bound.

Definition at_most (x : Fp.t) (K : Z) : Prop :=
  Fp.mant x * 2 ^ Z.max 0 (Fp.expo x) <= K * 2 ^ Z.max 0 (- Fp.expo x).
Definition at_least (x : Fp.t) (K : Z) : Prop :=
  K * 2 ^ Z.max 0 (- Fp.expo x) <= Fp.mant x * 2 ^ Z.max 0 (Fp.expo x).
Definition within (lo hi : Z) (x : Fp.t) : Prop := at_least x lo /\ at_most x hi.

End Bound.

(** [mant x * 2^(expo x + s)]: the value of [x] in units of [2^-s]. *)
Definition scaled (s : Z) (x : Fp.t) : Z := Fp.mant x * 2 ^ (Fp.expo x + s).

(** A scale that suits two, or three, values. *)
Definition scale2 (a b : Fp.t) : Z := Z.abs (Fp.expo a) + Z.abs (Fp.expo b).
Definition scale3 (a b c : Fp.t) : Z :=
  Z.abs (Fp.expo a) + Z.abs (Fp.expo b) + Z.abs (Fp.expo c).

(** ** Proof tactics *)

(** Side conditions "the value is an [int]". *)
Ltac in_range_lia :=
  unfold Int32.in_range, Int32.INT_MIN, Int32.INT_MAX in *; lia.

(** The 256 characters, one goal each. *)
Ltac each_char c :=
  destruct c as [[] [] [] [] [] [] [] []].

(** One goal per outcome of the tests of a branching program. *)
Ltac split_ifs :=
  repeat match goal with
         | |- context [if ?b then _ else _] => destruct b
         end.

(* ================================================================== *)
(** * Part II. Theorems *)
(* ================================================================== *)

(** ** Machine arithmetic *)

Lemma wrap_small (z : Z) : Int32.in_range z -> Int32.wrap z = z.
Proof.
  unfold Int32.in_range, Int32.INT_MIN, Int32.INT_MAX, Int32.wrap.
  intros Hz. rewrite Z.mod_small by lia. lia.
Qed.

Lemma add_small (a b : Z) : Int32.in_range (a + b) -> Int32.add a b = a + b.
Proof. apply wrap_small. Qed.

Lemma sub_small (a b : Z) : Int32.in_range (a - b) -> Int32.sub a b = a - b.
Proof. apply wrap_small. Qed.

Lemma mul_small (a b : Z) : Int32.in_range (a * b) -> Int32.mul a b = a * b.
Proof. apply wrap_small. Qed.

(** The sign fix-up after [%] computes the mathematical residue. *)
Lemma rem_fixup_mod (x : Z) :
  (if Int32.rem x 10 <? 0 then Int32.rem x 10 + 10 else Int32.rem x 10) = x mod 10.
Proof.
  unfold Int32.rem.
  destruct (Z.ltb_spec (Z.rem x 10) 0);
    Z.to_euclidean_division_equations; lia.
Qed.

(** ** Characters, case by case *)

Lemma charToValue_value (sgn : bool) (c : ascii) :
  charToValue sgn c = Spec.value c.
Proof. destruct sgn; each_char c; reflexivity. Qed.

Lemma value_bounds (c : ascii) : 0 <= Spec.value c <= 35.
Proof. each_char c; vm_compute; split; discriminate. Qed.

Lemma weight_bounds (i : nat) : 1 <= Spec.weight i <= 7.
Proof.
  unfold Spec.weight. destruct (i mod 3)%nat as [|[|?]]; lia.
Qed.

Lemma WEIGHTS_weight (i : nat) : nth (i mod 3) WEIGHTS 0 = Spec.weight i.
Proof.
  unfold Spec.weight, WEIGHTS.
  pose proof (Nat.mod_upper_bound i 3 ltac:(lia)) as Hlt.
  destruct (i mod 3)%nat as [|[|[|?]]]; try reflexivity; lia.
Qed.

Lemma correctChar_correct_char (sgn : bool) (c : ascii) :
  correctChar sgn c = Spec.correct_char c.
Proof. destruct sgn; each_char c; reflexivity. Qed.

Lemma isdigit_is_digitb (sgn : bool) (c : ascii) :
  isdigit (int_of_char sgn c) = Spec.is_digitb c.
Proof. destruct sgn; each_char c; reflexivity. Qed.

Lemma is_digitb_spec (c : ascii) : Spec.is_digitb c = true <-> Spec.is_digit c.
Proof. unfold Spec.is_digitb, Spec.is_digit. lia. Qed.

Lemma digit_int_of_char (sgn : bool) (c : ascii) :
  Spec.is_digitb c = true -> int_of_char sgn c = Spec.code c.
Proof.
  unfold Spec.is_digitb, int_of_char, Spec.code. intros H.
  destruct (128 <=? Z.of_N (N_of_ascii c)) eqn:E; [lia|].
  now rewrite andb_false_r.
Qed.

Lemma code_bounds (c : ascii) : 0 <= Spec.code c < 256.
Proof.
  unfold Spec.code. pose proof (N_ascii_bounded c). lia.
Qed.

Lemma ascii_of_code (c : ascii) : ascii_of_N (Z.to_N (Spec.code c)) = c.
Proof. unfold Spec.code. rewrite N2Z.id. apply ascii_N_embedding. Qed.

Lemma int_of_char_cases (sgn : bool) (c : ascii) :
  int_of_char sgn c = Spec.code c
  \/ (128 <= Spec.code c /\ int_of_char sgn c = Spec.code c - 256).
Proof.
  unfold int_of_char. fold (Spec.code c).
  destruct sgn; simpl; [|now left].
  destruct (Z.leb_spec 128 (Spec.code c)); [right|left]; auto.
Qed.

Lemma code_digit_char (d : Z) : 0 <= d <= 9 -> Spec.code (Spec.digit_char d) = 48 + d.
Proof.
  intros Hd. unfold Spec.code, Spec.digit_char.
  rewrite N_ascii_embedding by lia. lia.
Qed.

(** A character minus ['0'] is the digit [d] exactly for the digit
    character of [d], whatever the signedness of [char]. *)
Lemma check_char_digit (sgn : bool) (c : ascii) (d : Z) :
  0 <= d <= 9 ->
  (d =? Int32.sub (int_of_char sgn c) (int_of_char sgn "0")) = true
  <-> c = Spec.digit_char d.
Proof.
  intros Hd.
  assert (H0 : int_of_char sgn "0" = 48) by (destruct sgn; reflexivity).
  rewrite H0.
  pose proof (code_bounds c) as Hc.
  rewrite Z.eqb_eq. split.
  - intros Heq.
    destruct (int_of_char_cases sgn c) as [Hi | [Hhi Hi]];
      rewrite Hi in Heq; rewrite sub_small in Heq by in_range_lia; [|lia].
    unfold Spec.digit_char. replace (48 + d) with (Spec.code c) by lia.
    symmetry. apply ascii_of_code.
  - intros ->.
    pose proof (code_digit_char d Hd) as Hcd.
    destruct (int_of_char_cases sgn (Spec.digit_char d)) as [Hi | [Hhi Hi]];
      [|lia].
    rewrite Hi, Hcd, sub_small by in_range_lia. lia.
Qed.

(** ** The ICAO 9303 checksum *)

Lemma term_bounds (c : ascii) (i : nat) : 0 <= Spec.value c * Spec.weight i <= 245.
Proof.
  pose proof (value_bounds c). pose proof (weight_bounds i). nia.
Qed.

Lemma weighted_sum_bounds (data : list ascii) :
  forall i, 0 <= Spec.weighted_sum i data <= 245 * Z.of_nat (length data).
Proof.
  induction data as [|c rest IH]; intros i; cbn [Spec.weighted_sum length].
  - lia.
  - pose proof (term_bounds c i). pose proof (IH (S i)). lia.
Qed.

(** As long as the accumulator cannot leave the [int] range, the loop adds
    the weighted sum of the remaining characters. *)
Lemma checksum_loop_sum (sgn : bool) (data : list ascii) :
  forall (i : nat) (sum : Z),
    0 <= sum ->
    sum + 245 * Z.of_nat (length data) <= Int32.INT_MAX ->
    checksum_loop sgn data i sum = sum + Spec.weighted_sum i data.
Proof.
  induction data as [|c rest IH]; intros i sum Hsum Hmax;
    cbn [checksum_loop Spec.weighted_sum].
  - lia.
  - cbn [length] in Hmax.
    pose proof (term_bounds c i) as Ht.
    rewrite charToValue_value, WEIGHTS_weight.
    rewrite mul_small by in_range_lia.
    rewrite add_small by in_range_lia.
    rewrite IH by lia. lia.
Qed.

Lemma calculateChecksum_checksum (sgn : bool) (data : list ascii) :
  245 * Z.of_nat (length data) <= Int32.INT_MAX ->
  calculateChecksum sgn data = Spec.checksum data.
Proof.
  intros Hlen. unfold calculateChecksum, Spec.checksum, Int32.rem.
  rewrite checksum_loop_sum by lia. rewrite Z.add_0_l.
  pose proof (weighted_sum_bounds data 0).
  apply Z.rem_mod_nonneg; lia.
Qed.

Lemma checksum_range (data : list ascii) : 0 <= Spec.checksum data <= 9.
Proof.
  unfold Spec.checksum.
  pose proof (Z.mod_pos_bound (Spec.weighted_sum 0 data) 10). lia.
Qed.

(** [validateCheckDigit] on data short enough for the accumulator: the check
    character is the digit of the checksum. *)
Lemma validateCheckDigit_spec (sgn : bool) (data : list ascii) (c : ascii) :
  245 * Z.of_nat (length data) <= Int32.INT_MAX ->
  validateCheckDigit sgn data c = true
  <-> Spec.is_digit c /\ Spec.checksum data = Spec.digit_val c.
Proof.
  intros Hlen. unfold validateCheckDigit.
  rewrite isdigit_is_digitb, calculateChecksum_checksum by exact Hlen.
  pose proof (checksum_range data) as Hr.
  destruct (Spec.is_digitb c) eqn:Hd; cbn [negb].
  - rewrite check_char_digit by exact Hr.
    apply is_digitb_spec in Hd.
    unfold Spec.digit_val, Spec.is_digit in *. split.
    + intros ->. rewrite code_digit_char by exact Hr. lia.
    + intros [_ Heq]. unfold Spec.digit_char.
      replace (48 + Spec.checksum data) with (Spec.code c) by lia.
      symmetry. apply ascii_of_code.
  - split; [discriminate|].
    intros [Hdig _]. apply is_digitb_spec in Hdig. congruence.
Qed.

(** C1.  On every string whose length keeps the [int] accumulator in range
    (all strings the validator passes have at most 50 characters),
    [calculateChecksum] is the sum of value times weight [7,3,1] modulo 10;
    the checksum of "123456789" is 7, and [validateCheckDigit] accepts for it
    exactly the check character '7'. *)
Theorem calculateChecksum_icao (sgn : bool) :
  (forall data : list ascii,
      245 * Z.of_nat (length data) <= Int32.INT_MAX ->
      calculateChecksum sgn data = Spec.checksum data)
  /\ calculateChecksum sgn (Str.lit "123456789") = 7
  /\ (forall c : ascii,
         validateCheckDigit sgn (Str.lit "123456789") c = true <-> c = "7"%char).
Proof.
  split; [|split].
  - intros data Hlen. now apply calculateChecksum_checksum.
  - destruct sgn; reflexivity.
  - intros c. rewrite validateCheckDigit_spec by (vm_compute; discriminate).
    change (Spec.checksum (Str.lit "123456789")) with 7.
    unfold Spec.is_digit, Spec.digit_val. split.
    + intros [_ Heq]. rewrite <- (ascii_of_code c).
      replace (Spec.code c) with 55 by lia. reflexivity.
    + intros ->. vm_compute. repeat split; discriminate.
Qed.

Lemma calculateChecksum_icao_witness :
  245 * Z.of_nat (length (Str.lit "L898902C3")) <= Int32.INT_MAX
  /\ calculateChecksum false (Str.lit "L898902C3") = Spec.checksum (Str.lit "L898902C3")
  /\ Spec.checksum (Str.lit "L898902C3") = 6.
Proof.
  split; [vm_compute; discriminate|]. split; [|reflexivity].
  apply (proj1 (calculateChecksum_icao false)). vm_compute; discriminate.
Defined.

(** ** OCR correction *)

Lemma correctOCRErrors_map (sgn : bool) (line : list ascii) :
  correctOCRErrors sgn line = map Spec.correct_char line.
Proof.
  induction line as [|c rest IH]; cbn [correctOCRErrors map].
  - reflexivity.
  - now rewrite correctChar_correct_char, IH.
Qed.

(** C4.  [correctOCRErrors] rewrites every character on its own, by the
    substitution table of the specification (uppercase first; O, I, S, B, G,
    D, Q, Z to their digits; space and dot to the filler; other characters
    of [A-Z0-9<] kept; anything else to the filler), so the length is kept. *)
Theorem correctOCRErrors_pointwise (sgn : bool) (line : list ascii) :
  correctOCRErrors sgn line = map Spec.correct_char line
  /\ length (correctOCRErrors sgn line) = length line
  /\ correctOCRErrors sgn (Str.lit "O1S B.") = Str.lit "015<8<"
  /\ correctOCRErrors sgn (Str.lit "oisbgdqz xy<9#") = Str.lit "01586002<XY<9<".
Proof.
  repeat split.
  - apply correctOCRErrors_map.
  - rewrite correctOCRErrors_map. apply length_map.
  - destruct sgn; reflexivity.
  - destruct sgn; reflexivity.
Qed.

(** ** Padding *)

Lemma resize_length (s : list ascii) (n : nat) (c : ascii) :
  length (Str.resize s n c) = n.
Proof.
  unfold Str.resize. destruct (Nat.leb_spec n (length s)).
  - apply firstn_length_le. assumption.
  - rewrite length_app, repeat_length. lia.
Qed.

Lemma resize_firstn_pad (s : list ascii) :
  Str.resize s 30 "<" = firstn 30 (Spec.pad_min30 s).
Proof.
  unfold Str.resize, Spec.pad_min30.
  destruct (Nat.leb_spec 30 (length s)) as [Hle | Hlt].
  - rewrite firstn_app. replace (30 - length s)%nat with 0%nat by lia.
    cbn [firstn repeat]. now rewrite app_nil_r.
  - rewrite firstn_all2; [reflexivity|].
    rewrite length_app, repeat_length. lia.
Qed.

Lemma paddedLine_length (sgn : bool) (raw : list ascii) :
  length (paddedLine sgn raw) = 30%nat.
Proof. apply resize_length. Qed.

(** Reads below position 30 do not see whether the line was cut at 30. *)
Lemma slice_firstn (s : list ascii) (a b : nat) :
  (b <= 30)%nat -> Spec.slice (firstn 30 s) a b = Spec.slice s a b.
Proof.
  intros Hb. unfold Spec.slice.
  rewrite skipn_firstn_comm, firstn_firstn.
  f_equal. lia.
Qed.

Lemma nth_firstn_29 (s : list ascii) : nth 29 (firstn 30 s) zero = nth 29 s zero.
Proof. now rewrite nth_firstn. Qed.

(** C5, as the code has it.  The line used for the substring reads always
    has exactly 30 characters: a corrected line of at most 30 characters is
    filled up with '<', a longer one is cut down to its first 30 characters.
    Only the [correctedLine] fields of the result keep the full corrected
    text. *)
Theorem paddedLine_exactly_30 (sgn : bool) (raw : list ascii) :
  let corrected := correctOCRErrors sgn raw in
  length (paddedLine sgn raw) = 30%nat
  /\ ((length corrected <= 30)%nat ->
      paddedLine sgn raw = corrected ++ repeat "<"%char (30 - length corrected))
  /\ ((30 <= length corrected)%nat -> paddedLine sgn raw = firstn 30 corrected)
  /\ correctedLine1 (validateWithScore sgn raw raw raw) = corrected.
Proof.
  intros corrected. split; [apply paddedLine_length|].
  unfold paddedLine, Str.resize. fold corrected. repeat split.
  - intros Hle. destruct (Nat.leb_spec 30 (length corrected)) as [Hge | Hlt].
    + assert (Hlen : length corrected = 30%nat) by lia.
      rewrite Hlen. cbn [Nat.sub repeat]. rewrite app_nil_r.
      apply firstn_all2. lia.
    + reflexivity.
  - intros Hge. destruct (Nat.leb_spec 30 (length corrected)) as [_ | Hlt]; [reflexivity|lia].
  - unfold validateWithScore, checkDocNum, checkDob, checkExpiry, checkComposite.
    repeat match goal with
           | |- context [if ?b then _ else _] => destruct b
           end; reflexivity.
Qed.

Lemma paddedLine_exactly_30_witness :
  (30 <= length (correctOCRErrors false (repeat "a"%char 31)))%nat
  /\ paddedLine false (repeat "a"%char 31) = repeat "A"%char 30.
Proof.
  split; [vm_compute; lia|].
  rewrite (proj1 (proj2 (proj2 (paddedLine_exactly_30 false (repeat "a"%char 31)))))
    by (vm_compute; lia).
  reflexivity.
Defined.

(** C5, refuted as stated: a corrected line of 31 characters is not used
    as it is; the line the substring reads see has lost its last character. *)
Lemma paddedLine_truncates :
  (30 < length (correctOCRErrors false (repeat "A"%char 31)))%nat
  /\ paddedLine false (repeat "A"%char 31) <> correctOCRErrors false (repeat "A"%char 31)
  /\ paddedLine false (repeat "A"%char 31)
     <> Spec.pad_min30 (correctOCRErrors false (repeat "A"%char 31))
  /\ length (paddedLine false (repeat "A"%char 31)) = 30%nat.
Proof.
  repeat split; try (vm_compute; lia);
    intros H; apply (f_equal (@length ascii)) in H; vm_compute in H; discriminate.
Qed.

(** ** The score record *)

(** C10.  Each of the four partial scores is 0 or 15, it is 15 exactly when
    the flag of its check is set, the total is their sum, and so the total
    is one of 0, 15, 30, 45, 60. *)
Theorem validateWithScore_score_invariant
  (sgn : bool) (line1 line2 line3 : list ascii) :
  let s := validateWithScore sgn line1 line2 line3 in
  (docNumScore s = 0 \/ docNumScore s = 15)
  /\ (dobScore s = 0 \/ dobScore s = 15)
  /\ (expiryScore s = 0 \/ expiryScore s = 15)
  /\ (compositeScore s = 0 \/ compositeScore s = 15)
  /\ (docNumScore s = 15 <-> docNumValid s = true)
  /\ (dobScore s = 15 <-> dobValid s = true)
  /\ (expiryScore s = 15 <-> expiryValid s = true)
  /\ (compositeScore s = 15 <-> compositeValid s = true)
  /\ totalScore s = docNumScore s + dobScore s + expiryScore s + compositeScore s
  /\ In (totalScore s) [0; 15; 30; 45; 60].
Proof.
  unfold validateWithScore, checkDocNum, checkDob, checkExpiry, checkComposite.
  rewrite !paddedLine_length. cbn [Nat.leb andb].
  split_ifs; vm_compute; intuition (try discriminate; try congruence).
Qed.

(** ** The composite check *)

Lemma compositeScore_frame (sgn : bool) (line1 line2 line3 : list ascii) :
  compositeScore (validateWithScore sgn line1 line2 line3)
  = if validateCheckDigit sgn
         (compositeData (paddedLine sgn line1) (paddedLine sgn line2))
         (Str.at_ (paddedLine sgn line2) 29)
    then 15 else 0.
Proof.
  unfold validateWithScore, checkComposite.
  rewrite !paddedLine_length. cbn [Nat.leb andb].
  unfold checkDocNum, checkDob, checkExpiry.
  split_ifs; reflexivity.
Qed.

Lemma compositeData_slices (p1 p2 : list ascii) :
  compositeData p1 p2
  = Spec.slice p1 5 30 ++ Spec.slice p2 0 7 ++ Spec.slice p2 8 15 ++ Spec.slice p2 18 29.
Proof. unfold compositeData. now rewrite <- !app_assoc. Qed.

Lemma compositeData_length (p1 p2 : list ascii) :
  (length (compositeData p1 p2) <= 50)%nat.
Proof.
  unfold compositeData, Str.substr. rewrite !length_app.
  pose proof (firstn_le_length 25 (skipn 5 p1)).
  pose proof (firstn_le_length 7 (skipn 0 p2)).
  pose proof (firstn_le_length 7 (skipn 8 p2)).
  pose proof (firstn_le_length 11 (skipn 18 p2)).
  lia.
Qed.

(** C3.  The composite check awards its 15 points exactly when the check
    character at position 29 of the padded line 2 is a digit equal to the
    checksum of line1[5,30) + line2[0,7) + line2[8,15) + line2[18,29); the
    characters read are the same whether "padded" cuts the line at 30 or
    only fills it up. *)
Theorem composite_check_award (sgn : bool) (line1 line2 line3 : list ascii) :
  let p1 := paddedLine sgn line1 in
  let p2 := paddedLine sgn line2 in
  let data := Spec.slice p1 5 30 ++ Spec.slice p2 0 7
              ++ Spec.slice p2 8 15 ++ Spec.slice p2 18 29 in
  let check := nth 29 p2 zero in
  let score := validateWithScore sgn line1 line2 line3 in
  let q1 := Spec.pad_min30 (correctOCRErrors sgn line1) in
  let q2 := Spec.pad_min30 (correctOCRErrors sgn line2) in
  (compositeScore score = 15
   <-> Spec.is_digit check /\ Spec.checksum data = Spec.digit_val check)
  /\ (compositeScore score = 15 \/ compositeScore score = 0)
  /\ data = Spec.slice q1 5 30 ++ Spec.slice q2 0 7
            ++ Spec.slice q2 8 15 ++ Spec.slice q2 18 29
  /\ check = nth 29 q2 zero.
Proof.
  intros p1 p2 data check score q1 q2.
  assert (Hscore : compositeScore score
                   = if validateCheckDigit sgn data check then 15 else 0).
  { unfold score. rewrite compositeScore_frame.
    fold p1 p2. now rewrite compositeData_slices. }
  assert (Hlen : 245 * Z.of_nat (length data) <= Int32.INT_MAX).
  { unfold data. rewrite <- compositeData_slices.
    pose proof (compositeData_length p1 p2). unfold Int32.INT_MAX. lia. }
  pose proof (validateCheckDigit_spec sgn data check Hlen) as Hspec.
  split; [|split; [|split]].
  - rewrite <- Hspec, Hscore.
    destruct (validateCheckDigit sgn data check); split; auto; discriminate.
  - rewrite Hscore. destruct (validateCheckDigit sgn data check); auto.
  - unfold data, p1, p2, paddedLine, q1, q2.
    rewrite !resize_firstn_pad, !slice_firstn by lia. reflexivity.
  - unfold check, p2, paddedLine, q2.
    rewrite resize_firstn_pad. apply nth_firstn_29.
Qed.

(** ** The TCKN rule *)

Lemma digit_val_bounds (c : ascii) :
  Spec.is_digitb c = true -> 0 <= Spec.digit_val c <= 9.
Proof. unfold Spec.is_digitb, Spec.digit_val. lia. Qed.

Lemma tckn_loop_nondigit (sgn : bool) (s : list ascii) (k i : nat) (o e t : Z) :
  Spec.is_digitb (Str.at_ s i) = false ->
  tckn_loop sgn s (S k) i o e t = None.
Proof.
  intros H. cbn [tckn_loop]. now rewrite isdigit_is_digitb, H.
Qed.

(** One iteration on a digit, with the three accumulators far from the
    bounds of [int]. *)
Lemma tckn_loop_digit (sgn : bool) (s : list ascii) (k i : nat) (o e t : Z) :
  Spec.is_digitb (Str.at_ s i) = true ->
  0 <= o <= 1000 -> 0 <= e <= 1000 -> 0 <= t <= 1000 ->
  tckn_loop sgn s (S k) i o e t
  = if (i mod 2 =? 0)%nat
    then tckn_loop sgn s k (S i) (o + Spec.digit_val (Str.at_ s i)) e
                   (t + Spec.digit_val (Str.at_ s i))
    else tckn_loop sgn s k (S i) o (e + Spec.digit_val (Str.at_ s i))
                   (t + Spec.digit_val (Str.at_ s i)).
Proof.
  intros H Ho He Ht. cbn [tckn_loop].
  rewrite isdigit_is_digitb, H. cbn [negb].
  pose proof (digit_val_bounds _ H) as Hd.
  rewrite (digit_int_of_char sgn _ H).
  replace (int_of_char sgn "0") with 48 by (destruct sgn; reflexivity).
  rewrite sub_small by (unfold Spec.digit_val in Hd; in_range_lia).
  fold (Spec.digit_val (Str.at_ s i)).
  rewrite !add_small by in_range_lia. reflexivity.
Qed.

(** The nine iterations: the loop fails on the first non-digit, and
    otherwise leaves the odd-place sum, the even-place sum and the sum of
    the nine digits. *)
Lemma tckn_loop_nine (sgn : bool) (s : list ascii) :
  tckn_loop sgn s 9 0 0 0 0
  = if forallb (fun i => Spec.is_digitb (Str.at_ s i)) (seq 0 9)
    then Some (0 + Spec.digit_at s 0 + Spec.digit_at s 2 + Spec.digit_at s 4
               + Spec.digit_at s 6 + Spec.digit_at s 8,
               0 + Spec.digit_at s 1 + Spec.digit_at s 3 + Spec.digit_at s 5
               + Spec.digit_at s 7,
               0 + Spec.digit_at s 0 + Spec.digit_at s 1 + Spec.digit_at s 2
               + Spec.digit_at s 3 + Spec.digit_at s 4 + Spec.digit_at s 5
               + Spec.digit_at s 6 + Spec.digit_at s 7 + Spec.digit_at s 8)
    else None.
Proof.
  unfold Spec.digit_at. fold (Str.at_ s 0) (Str.at_ s 1) (Str.at_ s 2)
    (Str.at_ s 3) (Str.at_ s 4) (Str.at_ s 5) (Str.at_ s 6) (Str.at_ s 7)
    (Str.at_ s 8).
  cbn [seq forallb].
  repeat
    match goal with
    | |- context [Spec.is_digitb (Str.at_ s ?i) && _] =>
        let H := fresh "Hdig" in
        destruct (Spec.is_digitb (Str.at_ s i)) eqn:H;
        [ pose proof (digit_val_bounds _ H);
          rewrite (tckn_loop_digit sgn s _ i) by (assumption || lia);
          cbn [Nat.modulo Nat.divmod Nat.eqb fst snd Nat.sub andb]
        | now rewrite tckn_loop_nondigit by assumption ]
    end.
  reflexivity.
Qed.

Lemma digit10_fixup (x : Z) :
  -1000 <= x <= 1000 ->
  (if Int32.rem x 10 <? 0 then Int32.add (Int32.rem x 10) 10 else Int32.rem x 10)
  = x mod 10.
Proof.
  intros Hx. rewrite <- rem_fixup_mod.
  destruct (Z.ltb_spec (Int32.rem x 10) 0) as [Hneg | Hpos]; [|reflexivity].
  apply add_small. unfold Int32.rem in *.
  Z.to_euclidean_division_equations. in_range_lia.
Qed.

Lemma check_char_digit_eqb (sgn : bool) (c : ascii) (d : Z) :
  0 <= d <= 9 ->
  (d =? Int32.sub (int_of_char sgn c) (int_of_char sgn "0"))
  = Ascii.eqb c (Spec.digit_char d).
Proof.
  intros Hd. pose proof (check_char_digit sgn c d Hd) as Hiff.
  destruct (Ascii.eqb_spec c (Spec.digit_char d)) as [Heq | Hne].
  - now apply Hiff.
  - destruct (d =? _) eqn:E; [|reflexivity].
    exfalso. apply Hne. now apply Hiff.
Qed.

Lemma all_digits_forallb (s : list ascii) :
  forallb (fun i => Spec.is_digitb (Str.at_ s i)) (seq 0 9) = true
  <-> (forall i, (i < 9)%nat -> Spec.is_digit (nth i s zero)).
Proof.
  rewrite forallb_forall. split.
  - intros H i Hi. apply is_digitb_spec. apply H. apply in_seq. lia.
  - intros H i Hi. apply is_digitb_spec. apply H. apply in_seq in Hi. lia.
Qed.

Lemma validateTCKN_tckn_valid (sgn : bool) (s : list ascii) :
  validateTCKN sgn s = true <-> Spec.tckn_valid s.
Proof.
  unfold validateTCKN, Spec.tckn_valid.
  destruct (Nat.eqb_spec (length s) 11) as [Hlen | Hlen]; cbn [negb orb];
    [|split; [discriminate | intros [H _]; contradiction]].
  unfold Str.at_ at 1.
  destruct (Ascii.eqb_spec (nth 0 s zero) "0") as [H0 | H0];
    [split; [discriminate | intros (_ & H & _); contradiction]|].
  rewrite tckn_loop_nine. cbv zeta.
  destruct (forallb _ (seq 0 9)) eqn:Hall.
  2:{ split; [discriminate|]. intros (_ & _ & Hdig & _).
      apply all_digits_forallb in Hdig. congruence. }
  pose proof (proj1 (all_digits_forallb s) Hall) as Hdig.
  assert (Hb : forall i, (i < 9)%nat -> 0 <= Spec.digit_at s i <= 9).
  { intros i Hi. apply digit_val_bounds, is_digitb_spec, Hdig, Hi. }
  pose proof (Hb 0%nat ltac:(lia)). pose proof (Hb 1%nat ltac:(lia)).
  pose proof (Hb 2%nat ltac:(lia)). pose proof (Hb 3%nat ltac:(lia)).
  pose proof (Hb 4%nat ltac:(lia)). pose proof (Hb 5%nat ltac:(lia)).
  pose proof (Hb 6%nat ltac:(lia)). pose proof (Hb 7%nat ltac:(lia)).
  pose proof (Hb 8%nat ltac:(lia)).
  unfold Str.at_.
  set (oddSum := Spec.digit_at s 0 + Spec.digit_at s 2 + Spec.digit_at s 4
                 + Spec.digit_at s 6 + Spec.digit_at s 8).
  set (evenSum := Spec.digit_at s 1 + Spec.digit_at s 3 + Spec.digit_at s 5
                  + Spec.digit_at s 7).
  replace (0 + Spec.digit_at s 0 + Spec.digit_at s 2 + Spec.digit_at s 4
           + Spec.digit_at s 6 + Spec.digit_at s 8)
    with oddSum by (unfold oddSum; lia).
  replace (0 + Spec.digit_at s 1 + Spec.digit_at s 3 + Spec.digit_at s 5
           + Spec.digit_at s 7)
    with evenSum by (unfold evenSum; lia).
  replace (0 + Spec.digit_at s 0 + Spec.digit_at s 1 + Spec.digit_at s 2
           + Spec.digit_at s 3 + Spec.digit_at s 4 + Spec.digit_at s 5
           + Spec.digit_at s 6 + Spec.digit_at s 7 + Spec.digit_at s 8)
    with (oddSum + evenSum) by (unfold oddSum, evenSum; lia).
  assert (Ho : 0 <= oddSum <= 45) by (unfold oddSum; lia).
  assert (He : 0 <= evenSum <= 36) by (unfold evenSum; lia).
  rewrite mul_small, sub_small by in_range_lia.
  rewrite digit10_fixup by lia.
  set (digit10 := (oddSum * 7 - evenSum) mod 10).
  assert (H10 : 0 <= digit10 <= 9).
  { unfold digit10. pose proof (Z.mod_pos_bound (oddSum * 7 - evenSum) 10). lia. }
  rewrite add_small by in_range_lia.
  unfold Int32.rem. rewrite Z.rem_mod_nonneg by lia.
  set (digit11 := (oddSum + evenSum + digit10) mod 10).
  assert (H11 : 0 <= digit11 <= 9).
  { unfold digit11. pose proof (Z.mod_pos_bound (oddSum + evenSum + digit10) 10). lia. }
  rewrite !check_char_digit_eqb by assumption.
  destruct (Ascii.eqb_spec (nth 9 s zero) (Spec.digit_char digit10)) as [E9 | E9];
    cbn [negb].
  - destruct (Ascii.eqb_spec (nth 10 s zero) (Spec.digit_char digit11)) as [E10 | E10].
    + split; [|reflexivity]. intros _. split; [assumption|]. split; [assumption|].
      split; [exact Hdig|]. split; assumption.
    + split; [discriminate|]. intros (_ & _ & _ & _ & Hbad). contradiction.
  - split; [discriminate|]. intros (_ & _ & _ & Hbad & _). contradiction.
Qed.

(** C2.  [validateTCKN] accepts exactly the strings of eleven characters
    whose first is not '0', whose first nine are digits, whose tenth is the
    digit ((d1+d3+d5+d7+d9)*7 - (d2+d4+d6+d8)) mod 10 and whose eleventh is
    the digit (d1+...+d9+digit10) mod 10; it accepts "12345678950" and no
    other string that differs from it in the last character only. *)
Theorem validateTCKN_spec (sgn : bool) :
  (forall s : list ascii, validateTCKN sgn s = true <-> Spec.tckn_valid s)
  /\ validateTCKN sgn (Str.lit "12345678950") = true
  /\ (forall c : ascii,
         validateTCKN sgn (Str.lit "1234567895" ++ [c]) = true <-> c = "0"%char).
Proof.
  split; [|split].
  - apply validateTCKN_tckn_valid.
  - destruct sgn; reflexivity.
  - intros c. destruct sgn; each_char c; vm_compute;
      (split; [try discriminate; reflexivity | try discriminate; reflexivity]).
Qed.

(** ** The crop rectangle of [extractROI] *)

Lemma wrap_range (z : Z) : Int32.in_range (Int32.wrap z).
Proof.
  unfold Int32.in_range, Int32.INT_MIN, Int32.INT_MAX, Int32.wrap.
  pose proof (Z.mod_pos_bound (z + 2147483648) 4294967296). lia.
Qed.

Lemma to_int_range (x : Fp.t) : Int32.in_range (F32.to_int x).
Proof. apply wrap_range. Qed.

(** Clamping a start [v0] and an extent [len0] along an axis of [dim >= 1]
    pixels leaves a non-empty interval inside [0, dim). *)
Lemma clamp_axis (v0 len0 dim : Z) :
  Int32.in_range v0 -> Int32.in_range len0 -> 1 <= dim <= Int32.INT_MAX ->
  let v := Int32.max 0 (Int32.min v0 (Int32.sub dim 1)) in
  let len := Int32.max 1 (Int32.min len0 (Int32.sub dim v)) in
  0 <= v <= dim - 1 /\ 1 <= len /\ v + len <= dim.
Proof.
  intros Hv Hlen Hdim. cbv zeta.
  rewrite (sub_small dim 1) by in_range_lia.
  assert (Hvr : 0 <= Int32.max 0 (Int32.min v0 (dim - 1)) <= dim - 1).
  { unfold Int32.max, Int32.min.
    destruct (Z.ltb_spec (dim - 1) v0);
      match goal with |- context [?a <? ?b] => destruct (Z.ltb_spec a b) end; lia. }
  set (v := Int32.max 0 (Int32.min v0 (dim - 1))) in *.
  rewrite (sub_small dim v) by in_range_lia.
  unfold Int32.max, Int32.min.
  destruct (Z.ltb_spec (dim - v) len0);
    match goal with |- context [?a <? ?b] => destruct (Z.ltb_spec a b) end; lia.
Qed.

Lemma roiRectOf_inside (cardCols cardRows : Z) (region : ROIRegion) :
  1 <= cardRows <= Int32.INT_MAX ->
  1 <= cardCols <= Int32.INT_MAX ->
  let r := roiRectOf cardCols cardRows region in
  (0 <= rect_x r <= cardCols - 1 /\ 1 <= rect_width r
   /\ rect_x r + rect_width r <= cardCols)
  /\ (0 <= rect_y r <= cardRows - 1 /\ 1 <= rect_height r
      /\ rect_y r + rect_height r <= cardRows).
Proof.
  intros Hrows Hcols. unfold roiRectOf. cbv zeta. cbn [rect_x rect_y rect_width rect_height].
  split; apply clamp_axis; auto using to_int_range.
Qed.

(** C8.  For a card of at least one row and one column, any field and any
    side, the rectangle [extractROI] computes has 0 <= x <= cols-1,
    0 <= y <= rows-1, w >= 1, h >= 1, x + w <= cols and y + h <= rows; on
    an image that checks its crops, the crop is therefore accepted. *)
Theorem extractROI_rect_inside
  (cardRows cardCols : Z) (type : ROIType.t) (isBackSide : bool) :
  1 <= cardRows <= Int32.INT_MAX ->
  1 <= cardCols <= Int32.INT_MAX ->
  let r := roiRectOf cardCols cardRows (getROIRegion type isBackSide) in
  0 <= rect_x r <= cardCols - 1
  /\ 0 <= rect_y r <= cardRows - 1
  /\ 1 <= rect_width r
  /\ 1 <= rect_height r
  /\ rect_x r + rect_width r <= cardCols
  /\ rect_y r + rect_height r <= cardRows
  /\ (forall ch calls,
         roi (Trace.mkMat cardRows cardCols ch calls) r
         = Ok (Trace.mkMat (rect_height r) (rect_width r) ch (calls ++ [Trace.Roi r]))).
Proof.
  intros Hrows Hcols r.
  destruct (roiRectOf_inside cardCols cardRows (getROIRegion type isBackSide)
                             Hrows Hcols) as [(Hx & Hw & Hxw) (Hy & Hh & Hyh)].
  fold r in Hx, Hw, Hxw, Hy, Hh, Hyh.
  repeat (split; [assumption || lia|]).
  intros ch calls. cbn [roi Trace.opencv]. unfold Trace.do_roi, Trace.inside.
  cbn [Trace.mat_rows Trace.mat_cols Trace.mat_channels Trace.calls].
  repeat match goal with
         | |- context [?a <=? ?b] =>
             destruct (Z.leb_spec a b); [|lia]
         end.
  reflexivity.
Qed.

Lemma extractROI_rect_inside_witness :
  let r := roiRectOf 856 540 (getROIRegion ROIType.TCKN false) in
  r = mkRect 25 108 239 64
  /\ 0 <= rect_x r <= 856 - 1 /\ rect_x r + rect_width r <= 856.
Proof.
  cbv zeta. split; [vm_compute; reflexivity|].
  pose proof (extractROI_rect_inside 540 856 ROIType.TCKN false
                ltac:(vm_compute; split; discriminate)
                ltac:(vm_compute; split; discriminate)) as H.
  cbv zeta in H. destruct H as (Hx & _ & _ & _ & Hxw & _). split; assumption.
Defined.

(** ** The guard of [warpToID1] *)

(** C9.  With a corner list that does not have exactly four points, or with
    an empty frame, [warpToID1] returns the default-constructed (empty)
    image without calling OpenCV, hence without raising, whatever the
    library would do. *)
Theorem warpToID1_guard
  (Mat : Type) (cv : OpenCV Mat) (src : Mat) (corners : list Point) :
  length corners <> 4%nat \/ empty src = true ->
  warpToID1 src corners = Ok Mat_new
  /\ empty (Mat_new (Mat := Trace.Mat)) = true.
Proof.
  intros Hguard. split; [|reflexivity].
  unfold warpToID1.
  destruct Hguard as [Hlen | Hemp].
  - apply Nat.eqb_neq in Hlen. now rewrite Hlen.
  - rewrite Hemp. now rewrite orb_true_r.
Qed.

Lemma warpToID1_guard_witness :
  warpToID1 (Trace.image 480 640 3) [(10, 10); (600, 12); (590, 400)] = Ok Mat_new
  /\ warpToID1 (Trace.image 0 0 3) [(10, 10); (600, 12); (590, 400); (8, 410)]
     = Ok Mat_new.
Proof.
  split.
  - apply (warpToID1_guard Trace.Mat Trace.opencv). left. cbn. lia.
  - apply (warpToID1_guard Trace.Mat Trace.opencv). right. reflexivity.
Defined.

(* ------------------------------------------------------------------ *)
(** ** Binary32 arithmetic *)

(** ** Rounding to the nearest integer *)

Lemma rne_bounds (n d : Z) :
  0 < d -> n / d <= Fp.rne n d <= n / d + 1.
Proof.
  intros Hd. unfold Fp.rne.
  destruct (2 * (n mod d) <? d); [lia|].
  destruct (d <? 2 * (n mod d)); [lia|].
  destruct (Z.even (n / d)); lia.
Qed.

Lemma rne_exact (n d : Z) :
  0 < d -> n mod d = 0 -> Fp.rne n d = n / d.
Proof.
  intros Hd Hm. unfold Fp.rne. rewrite Hm.
  destruct (Z.ltb_spec (2 * 0) d); [reflexivity|lia].
Qed.

Lemma rne_nonneg (n d : Z) : 0 <= n -> 0 < d -> 0 <= Fp.rne n d.
Proof.
  intros Hn Hd. pose proof (rne_bounds n d Hd).
  pose proof (Z.div_pos n d Hn Hd). lia.
Qed.

Lemma rne_le_int (n d N : Z) : 0 < d -> n <= N * d -> Fp.rne n d <= N.
Proof.
  intros Hd Hle.
  destruct (Z.eq_dec n (N * d)) as [-> | Hne].
  - rewrite rne_exact by (auto using Z.mod_mul; try apply Z.mod_mul; lia).
    rewrite Z.div_mul by lia. lia.
  - pose proof (rne_bounds n d Hd).
    assert (n / d < N) by (apply Z.div_lt_upper_bound; lia).
    lia.
Qed.

Lemma rne_ge_int (n d N : Z) : 0 < d -> N * d <= n -> N <= Fp.rne n d.
Proof.
  intros Hd Hle. pose proof (rne_bounds n d Hd).
  assert (N <= n / d) by (apply Z.div_le_lower_bound; lia).
  lia.
Qed.

Lemma rne_mono (n1 n2 d : Z) :
  0 < d -> n1 <= n2 -> Fp.rne n1 d <= Fp.rne n2 d.
Proof.
  intros Hd Hle.
  pose proof (Z.div_le_mono n1 n2 d Hd Hle) as Hq.
  pose proof (rne_bounds n1 d Hd). pose proof (rne_bounds n2 d Hd).
  destruct (Z.eq_dec (n1 / d) (n2 / d)) as [Heq | Hne]; [|lia].
  assert (Hr : n1 mod d <= n2 mod d).
  { pose proof (Z.div_mod n1 d ltac:(lia)). pose proof (Z.div_mod n2 d ltac:(lia)).
    rewrite Heq in *. nia. }
  unfold Fp.rne. rewrite Heq.
  destruct (Z.ltb_spec (2 * (n1 mod d)) d); destruct (Z.ltb_spec (2 * (n2 mod d)) d);
    destruct (Z.ltb_spec d (2 * (n1 mod d))); destruct (Z.ltb_spec d (2 * (n2 mod d)));
    destruct (Z.even (n2 / d)); lia.
Qed.

(** ** Conversion [int -> float] *)

Lemma den_at_pos (d e : Z) : 0 < d -> 0 < Fp.den_at d e.
Proof.
  intros Hd. unfold Fp.den_at.
  pose proof (Z.pow_pos_nonneg 2 (Z.max 0 e) ltac:(lia) ltac:(lia)). nia.
Qed.

Lemma num_at_nonneg (n e : Z) : 0 <= n -> 0 <= Fp.num_at n e.
Proof.
  intros Hn. unfold Fp.num_at.
  pose proof (Z.pow_pos_nonneg 2 (Z.max 0 (- e)) ltac:(lia) ltac:(lia)). nia.
Qed.

(** At the exponent [log2 n - 23] the scaled integer has exactly 24 bits. *)
Lemma of_int_scaled (n : Z) :
  0 < n ->
  let e := Z.log2 n - 23 in
  8388608 * Fp.den_at 1 e <= Fp.num_at n e < 16777216 * Fp.den_at 1 e.
Proof.
  intros Hn e.
  pose proof (Z.log2_spec n Hn) as [Hlo Hhi].
  pose proof (Z.log2_nonneg n) as HL.
  unfold Fp.num_at, Fp.den_at.
  destruct (Z_le_gt_dec 0 e) as [He | He].
  - rewrite (Z.max_r 0 e), (Z.max_l 0 (- e)) by lia.
    replace (Z.log2 n) with (23 + e) in Hlo by (unfold e; lia).
    replace (Z.succ (Z.log2 n)) with (24 + e) in Hhi by (unfold e; lia).
    rewrite Z.pow_add_r in Hlo, Hhi by lia.
    change (2 ^ 23) with 8388608 in Hlo. change (2 ^ 24) with 16777216 in Hhi.
    change (2 ^ 0) with 1. lia.
  - rewrite (Z.max_l 0 e), (Z.max_r 0 (- e)) by lia.
    change (2 ^ 0) with 1.
    assert (H23 : 2 ^ Z.log2 n * 2 ^ (- e) = 8388608).
    { rewrite <- Z.pow_add_r by lia.
      replace (Z.log2 n + - e) with 23 by (unfold e; lia). reflexivity. }
    assert (H24 : 2 ^ Z.succ (Z.log2 n) * 2 ^ (- e) = 16777216).
    { rewrite <- Z.pow_add_r by lia.
      replace (Z.succ (Z.log2 n) + - e) with 24 by (unfold e; lia). reflexivity. }
    pose proof (Z.pow_pos_nonneg 2 (- e) ltac:(lia) ltac:(lia)). nia.
Qed.

Lemma of_int_pos (n : Z) :
  0 < n ->
  F32.of_int n
  = Fp.mk (Fp.rne (Fp.num_at n (Z.log2 n - 23)) (Fp.den_at 1 (Z.log2 n - 23)))
          (Z.log2 n - 23).
Proof.
  intros Hn. unfold F32.of_int, Fp.round, Fp.round_pos, F32.prec.
  destruct (Z.ltb_spec n 0); [lia|].
  destruct (Z.leb_spec n 0); [lia|].
  change (Z.log2 1) with 0. change (24 - 1) with 23.
  replace (Z.log2 n - 0 - 23) with (Z.log2 n - 23) by lia.
  change (2 ^ 23) with 8388608.
  pose proof (of_int_scaled n Hn) as Hs. cbv zeta in Hs.
  destruct (Z.ltb_spec (Fp.num_at n (Z.log2 n - 23))
                       (8388608 * Fp.den_at 1 (Z.log2 n - 23))); [lia|].
  reflexivity.
Qed.

Lemma of_int_zero : F32.of_int 0 = Fp.mk 0 0.
Proof. reflexivity. Qed.

Lemma of_int_mant_bounds (n : Z) :
  0 < n -> 8388608 <= Fp.mant (F32.of_int n) <= 16777216.
Proof.
  intros Hn. rewrite of_int_pos by assumption. cbn [Fp.mant].
  pose proof (of_int_scaled n Hn) as Hs. cbv zeta in Hs.
  pose proof (den_at_pos 1 (Z.log2 n - 23) ltac:(lia)).
  split; [apply rne_ge_int | apply rne_le_int]; lia.
Qed.

Lemma of_int_mant_nonneg (n : Z) : 0 <= n -> 0 <= Fp.mant (F32.of_int n).
Proof.
  intros Hn. destruct (Z.eq_dec n 0) as [-> | Hne]; [cbn; lia|].
  pose proof (of_int_mant_bounds n ltac:(lia)). lia.
Qed.

(** The conversion is monotone. *)
Lemma of_int_mono (b t : Z) :
  0 <= b <= t -> Fp.leb (F32.of_int b) (F32.of_int t) = true.
Proof.
  intros [Hb Hbt]. unfold Fp.leb, Fp.aligned. cbn [fst snd]. apply Z.leb_le.
  destruct (Z.eq_dec b 0) as [-> | Hb0].
  - rewrite of_int_zero. cbn [Fp.mant Fp.expo]. rewrite Z.mul_0_l.
    pose proof (of_int_mant_nonneg t ltac:(lia)).
    pose proof (Z.pow_nonneg 2 (Fp.expo (F32.of_int t)
                                - Z.min 0 (Fp.expo (F32.of_int t))) ltac:(lia)).
    nia.
  - assert (Hbpos : 0 < b) by lia. assert (Htpos : 0 < t) by lia.
    pose proof (of_int_mant_bounds b Hbpos) as Hmb.
    pose proof (of_int_mant_bounds t Htpos) as Hmt.
    pose proof (Z.log2_le_mono b t Hbt) as Hlog.
    assert (Heb : Fp.expo (F32.of_int b) = Z.log2 b - 23)
      by (rewrite of_int_pos by assumption; reflexivity).
    assert (Het : Fp.expo (F32.of_int t) = Z.log2 t - 23)
      by (rewrite of_int_pos by assumption; reflexivity).
    rewrite Heb, Het. rewrite Z.min_l by lia.
    replace (Z.log2 b - 23 - (Z.log2 b - 23)) with 0 by lia.
    change (2 ^ 0) with 1. rewrite Z.mul_1_r.
    destruct (Z.eq_dec (Z.log2 b) (Z.log2 t)) as [Heq | Hne].
    + replace (Z.log2 t - 23 - (Z.log2 b - 23)) with 0 by lia.
      change (2 ^ 0) with 1. rewrite Z.mul_1_r.
      rewrite !of_int_pos by assumption. cbn [Fp.mant]. rewrite Heq.
      apply rne_mono; [apply den_at_pos; lia|].
      unfold Fp.num_at.
      pose proof (Z.pow_nonneg 2 (Z.max 0 (- (Z.log2 t - 23))) ltac:(lia)). nia.
    + assert (Hk : 1 <= Z.log2 t - 23 - (Z.log2 b - 23)) by lia.
      pose proof (Z.pow_le_mono_r 2 1 (Z.log2 t - 23 - (Z.log2 b - 23))
                    ltac:(lia) Hk) as Hp.
      change (2 ^ 1) with 2 in Hp. nia.
Qed.

(** The model and the reference agree on conversions, products, quotients,
    differences, square roots and comparisons of the samples. *)
Example Fp_agrees_with_reference :
  forallb (fun z => Reference.agree 24 128 (F32.of_int z) (Reference.of_int 24 128 z))
          Reference.samples = true
  /\ forallb (fun '(a, b) =>
                Reference.agree 24 128 (F32.mul (F32.of_int a) (F32.of_int b))
                  (SpecFloat.SFmul 24 128 (Reference.of_int 24 128 a)
                                   (Reference.of_int 24 128 b)))
             Reference.sample_pairs = true
  /\ forallb (fun '(a, b) =>
                Reference.agree 24 128 (F32.div (F32.of_int a) (F32.of_int b))
                  (SpecFloat.SFdiv 24 128 (Reference.of_int 24 128 a)
                                   (Reference.of_int 24 128 b)))
             Reference.sample_pairs = true
  /\ forallb (fun '(a, b) =>
                Reference.agree 24 128 (F32.sub (F32.of_int a) (F32.of_int b))
                  (SpecFloat.SFsub 24 128 (Reference.of_int 24 128 a)
                                   (Reference.of_int 24 128 b)))
             Reference.sample_pairs = true
  /\ forallb (fun a =>
                Reference.agree 24 128 (F32.mul (F32.of_int a) MRZ_TOP_RATIO)
                  (SpecFloat.SFmul 24 128 (Reference.of_int 24 128 a)
                     (SpecFloat.SFdiv 24 128 (Reference.of_int 24 128 72)
                                      (Reference.of_int 24 128 100))))
             Reference.samples = true
  /\ forallb (fun '(a, b) =>
                Reference.agree 53 1024
                  (Fp.sqrt 53 (Fp.div 53 (Fp.round 53 a 1) (Fp.round 53 b 1)))
                  (SpecFloat.SFsqrt 53 1024
                     (SpecFloat.SFdiv 53 1024 (Reference.of_int 53 1024 a)
                                      (Reference.of_int 53 1024 b))))
             Reference.sample_pairs = true
  /\ forallb (fun '(a, b) =>
                Bool.eqb (Fp.ltb (F32.div (F32.of_int a) (F32.of_int 7)) (F32.of_int b))
                  (SpecFloat.SFltb
                     (SpecFloat.SFdiv 24 128 (Reference.of_int 24 128 a)
                                      (Reference.of_int 24 128 7))
                     (Reference.of_int 24 128 b)))
             Reference.sample_pairs = true.
Proof. repeat apply conj; vm_compute; reflexivity. Qed.

(** ** Quotients in the unit interval *)

Lemma F32_zero_eq : F32.zero = Fp.mk 0 0.
Proof. reflexivity. Qed.

Lemma F32_one_eq : F32.one = Fp.mk 8388608 (-23).
Proof. reflexivity. Qed.

(** Rounding a fraction [n / d <= 1] yields at most 1. *)
Lemma round_pos_le_one (n d : Z) :
  0 < n <= d ->
  let r := Fp.round_pos 24 n d in
  Fp.expo r <= -23 /\ 0 <= Fp.mant r <= 2 ^ (- Fp.expo r).
Proof.
  intros [Hn Hnd]. cbv zeta. unfold Fp.round_pos.
  destruct (Z.leb_spec n 0); [lia|].
  change (24 - 1) with 23.
  pose proof (Z.log2_le_mono n d Hnd) as Hlog.
  set (e0 := Z.log2 n - Z.log2 d - 23).
  set (e := if Fp.num_at n e0 <? 2 ^ 23 * Fp.den_at d e0 then e0 - 1 else e0).
  assert (He : e <= -23) by (unfold e, e0; destruct (_ <? _); lia).
  cbn [Fp.expo Fp.mant]. split; [exact He|].
  assert (Hnum : Fp.num_at n e = n * 2 ^ (- e))
    by (unfold Fp.num_at; rewrite Z.max_r by lia; reflexivity).
  assert (Hden : Fp.den_at d e = d)
    by (unfold Fp.den_at; rewrite Z.max_l by lia; change (2 ^ 0) with 1; lia).
  rewrite Hnum, Hden.
  pose proof (Z.pow_pos_nonneg 2 (- e) ltac:(lia) ltac:(lia)) as Hp.
  split.
  - apply rne_nonneg; nia.
  - apply rne_le_int; nia.
Qed.

Lemma div_unit_interval (a c : Fp.t) :
  0 <= Fp.mant a -> 0 < Fp.mant c -> Fp.leb a c = true ->
  Fp.leb F32.zero (F32.div a c) = true /\ Fp.leb (F32.div a c) F32.one = true.
Proof.
  intros Ha Hc Hle.
  unfold F32.div, Fp.div, F32.prec.
  destruct (Z.ltb_spec (Fp.mant c) 0); [lia|].
  rewrite !Z.mul_1_l.
  set (e := Fp.expo a - Fp.expo c).
  set (n := Fp.mant a * 2 ^ Z.max 0 e).
  set (d := Fp.mant c * 2 ^ Z.max 0 (- e)).
  assert (Hnd : 0 <= n <= d).
  { unfold Fp.leb, Fp.aligned in Hle. cbn [fst snd] in Hle. apply Z.leb_le in Hle.
    unfold n, d.
    destruct (Z_le_gt_dec (Fp.expo c) (Fp.expo a)) as [Hec | Hec].
    - rewrite Z.min_r in Hle by lia.
      rewrite (Z.max_r 0 e), (Z.max_l 0 (- e)) by (unfold e; lia).
      replace (Fp.expo c - Fp.expo c) with 0 in Hle by lia.
      fold e in Hle.
      pose proof (Z.pow_nonneg 2 e ltac:(lia)). change (2 ^ 0) with 1 in *. nia.
    - rewrite Z.min_l in Hle by lia.
      rewrite (Z.max_l 0 e), (Z.max_r 0 (- e)) by (unfold e; lia).
      replace (Fp.expo a - Fp.expo a) with 0 in Hle by lia.
      replace (- e) with (Fp.expo c - Fp.expo a) by (unfold e; lia).
      pose proof (Z.pow_nonneg 2 (Fp.expo c - Fp.expo a) ltac:(lia)).
      change (2 ^ 0) with 1 in *. nia. }
  unfold Fp.round. destruct (Z.ltb_spec n 0); [lia|].
  destruct (Z.eq_dec n 0) as [Hn0 | Hn0].
  - rewrite Hn0. split; reflexivity.
  - pose proof (round_pos_le_one n d ltac:(lia)) as Hr. cbv zeta in Hr.
    destruct Hr as [He [Hm0 Hm1]].
    set (r := Fp.round_pos 24 n d) in *.
    rewrite F32_zero_eq, F32_one_eq. unfold Fp.leb, Fp.aligned.
    cbn [fst snd Fp.mant Fp.expo]. split; apply Z.leb_le.
    + rewrite Z.mul_0_l.
      pose proof (Z.pow_nonneg 2 (Fp.expo r - Z.min 0 (Fp.expo r)) ltac:(lia)). nia.
    + rewrite Z.min_l by lia.
      replace (Fp.expo r - Fp.expo r) with 0 by lia. change (2 ^ 0) with 1.
      replace 8388608 with (2 ^ 23) by reflexivity.
      rewrite <- Z.pow_add_r by lia.
      replace (23 + (-23 - Fp.expo r)) with (- Fp.expo r) by lia. lia.
Qed.

(** ** The glare score *)

Lemma bright_samples_gray (g : list Z -> Z) (pixels : list (list Z)) :
  length (filter (fun px => negb (hd 0 px =? 0))
            (map (map (fun v => if 240 <? v then 255 else 0))
                 (map (fun px => [g px]) pixels)))
  = length (filter (fun v => 240 <? v) (map g pixels)).
Proof.
  induction pixels as [|px rest IH]; [reflexivity|].
  cbn [map filter hd]. destruct (240 <? g px); cbn [negb Z.eqb length];
    now rewrite IH.
Qed.

Lemma bright_samples_plain (pixels : list (list Z)) :
  length (filter (fun px => negb (hd 0 px =? 0))
            (map (map (fun v => if 240 <? v then 255 else 0)) pixels))
  = length (filter (fun v => 240 <? v) (map (hd 0) pixels)).
Proof.
  induction pixels as [|px rest IH]; [reflexivity|].
  cbn [map filter]. destruct px as [|v px']; cbn [map hd].
  - cbn. exact IH.
  - destruct (240 <? v); cbn [negb Z.eqb length]; now rewrite IH.
Qed.

Lemma glare_count_gt_le (levels : list Z) :
  0 <= Spec.glare_count_gt levels <= Z.of_nat (length levels).
Proof.
  unfold Spec.glare_count_gt.
  pose proof (filter_length_le (fun v => 240 <? v) levels). lia.
Qed.

(** What [detectGlare] computes on a non-empty image of 1, 3 or 4 channels
    whose pixel count is an [int]. *)
Lemma detectGlare_value (luma : list Z -> Z) (src : Pixel.Mat) :
  0 <= Pixel.rows src * Pixel.cols src <= Int32.INT_MAX ->
  Pixel.channels src = 1 \/ Pixel.channels src = 3 \/ Pixel.channels src = 4 ->
  Pixel.empty src = false ->
  Pixel.detectGlare luma src
  = Ok (F32.div
          (F32.of_int (Spec.glare_count_gt
                         (map (Pixel.gray_level luma src) (Pixel.data src))))
          (F32.of_int (Pixel.rows src * Pixel.cols src))).
Proof.
  intros Htotal Hch Hne. unfold Pixel.detectGlare. rewrite Hne.
  unfold Pixel.toGray, Pixel.cvtColor, Pixel.gray_level, Spec.glare_count_gt.
  destruct Hch as [Hc | [Hc | Hc]]; rewrite Hc; cbn [Z.eqb Pos.eqb orb bind];
    unfold Pixel.countNonZero, Pixel.threshold, Pixel.clone;
    cbn [Pixel.channels Pixel.rows Pixel.cols Pixel.data];
    rewrite ?Hc; cbn [Z.eqb Pos.eqb bind];
    rewrite mul_small by in_range_lia;
    rewrite ?bright_samples_gray, ?bright_samples_plain; reflexivity.
Qed.

(** C7, as the code has it.  On a non-empty 8-bit image of 1, 3 or 4
    channels, [detectGlare] returns the [float] quotient of the number of
    gray levels greater than 240 (a level of exactly 240 is not counted) by
    the number of pixels, a value between 0 and 1; on an empty image it
    returns 1.0. *)
Theorem detectGlare_ratio (luma : list Z -> Z) (src : Pixel.Mat) :
  Pixel.well_formed src ->
  Pixel.rows src * Pixel.cols src <= Int32.INT_MAX ->
  Pixel.channels src = 1 \/ Pixel.channels src = 3 \/ Pixel.channels src = 4 ->
  let levels := map (Pixel.gray_level luma src) (Pixel.data src) in
  let score :=
    F32.div (F32.of_int (Spec.glare_count_gt levels))
            (F32.of_int (Pixel.rows src * Pixel.cols src)) in
  (Pixel.empty src = false ->
   Pixel.detectGlare luma src = Ok score
   /\ Fp.leb F32.zero score = true /\ Fp.leb score F32.one = true)
  /\ (Pixel.empty src = true -> Pixel.detectGlare luma src = Ok F32.one).
Proof.
  intros (Hrows & Hcols & Hlen & _) Hmax Hch levels score. split.
  - intros Hne.
    assert (Htot : 0 < Pixel.rows src * Pixel.cols src).
    { unfold Pixel.empty in Hne. apply Z.eqb_neq in Hne. nia. }
    split; [apply detectGlare_value; auto; lia|].
    pose proof (glare_count_gt_le levels) as Hcount.
    assert (Hl : Z.of_nat (length levels) = Pixel.rows src * Pixel.cols src)
      by (unfold levels; rewrite length_map; exact Hlen).
    rewrite Hl in Hcount.
    apply div_unit_interval.
    + apply of_int_mant_nonneg. lia.
    + pose proof (of_int_mant_bounds _ Htot). lia.
    + apply of_int_mono. lia.
  - intros Hemp. unfold Pixel.detectGlare. now rewrite Hemp.
Qed.

Lemma detectGlare_ratio_witness :
  Pixel.detectGlare (hd 0) (Pixel.mkMat 2 2 1 [[240]; [241]; [100]; [255]])
  = Ok (F32.lit 1 2)
  /\ Pixel.detectGlare (hd 0) (Pixel.mkMat 0 0 1 []) = Ok F32.one.
Proof.
  assert (Hwf : Pixel.well_formed (Pixel.mkMat 2 2 1 [[240]; [241]; [100]; [255]])).
  { unfold Pixel.well_formed. cbn. repeat split; try lia.
    repeat constructor. }
  assert (Hwf0 : Pixel.well_formed (Pixel.mkMat 0 0 1 [])).
  { unfold Pixel.well_formed. cbn. repeat split; try lia. constructor. }
  split.
  - pose proof (detectGlare_ratio (hd 0) _ Hwf ltac:(vm_compute; discriminate)
                  ltac:(left; reflexivity)) as H.
    cbv zeta in H. destruct H as [H _].
    destruct (H eq_refl) as [Heq _]. rewrite Heq. reflexivity.
  - pose proof (detectGlare_ratio (hd 0) _ Hwf0 ltac:(vm_compute; discriminate)
                  ltac:(left; reflexivity)) as H.
    cbv zeta in H. destruct H as [_ H]. apply H. reflexivity.
Defined.

(** C7, refuted as stated: a pixel of gray level exactly 240 is not counted.
    A 1x1 image of level 240 scores 0.0, not 1/1, and of the levels 240,
    241, 100, 255 only two are counted, not three. *)
Lemma detectGlare_240_not_counted :
  let one_pixel := Pixel.mkMat 1 1 1 [[240]] in
  let four_pixels := Pixel.mkMat 2 2 1 [[240]; [241]; [100]; [255]] in
  Spec.glare_count_ge (map (Pixel.gray_level (hd 0) one_pixel) (Pixel.data one_pixel)) = 1
  /\ Pixel.detectGlare (hd 0) one_pixel = Ok F32.zero
  /\ Pixel.detectGlare (hd 0) one_pixel
     <> Ok (F32.div (F32.of_int 1) (F32.of_int (1 * 1)))
  /\ Spec.glare_count_ge (map (Pixel.gray_level (hd 0) four_pixels) (Pixel.data four_pixels)) = 3
  /\ Pixel.detectGlare (hd 0) four_pixels = Ok (F32.lit 2 4)
  /\ Pixel.detectGlare (hd 0) four_pixels
     <> Ok (F32.div (F32.of_int 3) (F32.of_int (2 * 2))).
Proof.
  cbv zeta. repeat split; try reflexivity; vm_compute; discriminate.
Qed.

(** ** The MRZ crop and its binarization *)

Lemma all_from_spec (n : nat) :
  forall (r : Z) (f : Z -> bool),
    Spec.all_from n r f = true ->
    forall k, r <= k < r + Z.of_nat n -> f k = true.
Proof.
  induction n as [|n IH]; intros r f Hall k Hk.
  - lia.
  - cbn [Spec.all_from] in Hall. apply andb_true_iff in Hall as [Hr Hrest].
    destruct (Z.eq_dec k r) as [-> | Hne]; [exact Hr|].
    apply (IH (r + 1) f Hrest). lia.
Qed.

(** Checked by evaluation for every height of at most 65535 rows. *)
Lemma mrzTopOf_checked :
  Spec.all_from (Z.to_nat 65536) 0 (fun r => mrzTopOf r =? 72 * r / 100) = true.
Proof. vm_cast_no_check (eq_refl true). Qed.

Lemma mrzTopOf_floor (h : Z) : 0 <= h <= 65535 -> mrzTopOf h = 72 * h / 100.
Proof.
  intros Hh. apply Z.eqb_eq.
  apply (all_from_spec _ _ _ mrzTopOf_checked h). lia.
Qed.

(** The product in [float] leaves the floor for tall images; the first
    height at which it does is 728193. *)
Example mrzTopOf_departs :
  mrzTopOf 728192 = 72 * 728192 / 100
  /\ mrzTopOf 728193 = 524299 /\ 72 * 728193 / 100 = 524298.
Proof. repeat split; reflexivity. Qed.

Lemma mrzRectOf_bottom (h w : Z) :
  0 <= h <= 65535 -> mrzRectOf h w = Spec.bottom_28_percent h w.
Proof.
  intros Hh. unfold mrzRectOf, Spec.bottom_28_percent.
  rewrite mrzTopOf_floor by exact Hh.
  assert (0 <= 72 * h / 100 <= h).
  { split; [apply Z.div_pos; lia|].
    apply Z.div_le_upper_bound; lia. }
  rewrite sub_small by in_range_lia. reflexivity.
Qed.

(** C6, as the code has it.  On a non-empty card of at most 65535 rows,
    [extractMRZRegion] crops the rows from floor(0.72 H) to H at full width
    and binarizes the crop with the general [binarizeForOCR] profile (CLAHE,
    denoising, adaptive threshold with block 15 and constant 10, close,
    median blur).  The lighter MRZ profile (Gaussian blur 3x3, adaptive
    threshold with block 13 and constant 10) is what [extractROI] applies to
    the MRZ field. *)
Theorem extractMRZRegion_general_profile
  (Mat : Type) (cv : OpenCV Mat) (src : Mat) :
  empty src = false ->
  0 <= rows src <= 65535 ->
  extractMRZRegion src
  = (cropped <- roi src (Spec.bottom_28_percent (rows src) (cols src)) ;;
     Spec.general_profile (clone cropped))
  /\ extractROI src ROIType.MRZ true
     = (cropped <- roi src (roiRectOf (cols src) (rows src) BackROI.MRZ) ;;
        Spec.mrz_light_profile (clone cropped)).
Proof.
  intros Hne Hrows. split.
  - unfold extractMRZRegion. rewrite Hne, mrzRectOf_bottom by exact Hrows.
    reflexivity.
  - unfold extractROI. rewrite Hne. reflexivity.
Qed.

Lemma extractMRZRegion_general_profile_witness :
  extractMRZRegion (Trace.image 540 856 3)
  = Ok (Trace.mkMat 152 856 1
          [ Trace.Roi (mkRect 0 388 856 152);
            Trace.CvtColor COLOR_BGR2GRAY;
            Trace.CLAHE 2 (8, 8);
            Trace.FastNlMeansDenoising 10 7 21;
            Trace.AdaptiveThreshold 255 ADAPTIVE_THRESH_GAUSSIAN_C THRESH_BINARY 15 10;
            Trace.MorphologyEx MORPH_CLOSE MORPH_RECT (1, 1);
            Trace.MedianBlur 3 ]).
Proof.
  rewrite (proj1 (extractMRZRegion_general_profile Trace.Mat Trace.opencv
                    (Trace.image 540 856 3) eq_refl
                    ltac:(vm_compute; split; discriminate))).
  reflexivity.
Defined.

(** C6, refuted as stated: on the canonical 856x540 card the calls
    [extractMRZRegion] makes are those of the general profile, not those of
    the lighter MRZ profile. *)
Lemma extractMRZRegion_not_light_profile :
  Spec.extractMRZRegion_light (Trace.image 540 856 3)
  = Ok (Trace.mkMat 152 856 1
          [ Trace.Roi (mkRect 0 388 856 152);
            Trace.CvtColor COLOR_BGR2GRAY;
            Trace.GaussianBlurCall (3, 3) 0;
            Trace.AdaptiveThreshold 255 ADAPTIVE_THRESH_GAUSSIAN_C THRESH_BINARY 13 10 ])
  /\ extractMRZRegion (Trace.image 540 856 3)
     <> Spec.extractMRZRegion_light (Trace.image 540 856 3).
Proof.
  split; [reflexivity|]. vm_compute. discriminate.
Qed.

(* ================================================================== *)
(** * Part III. Further properties of the code *)
(* ================================================================== *)

(** ** Check digits *)

Lemma weighted_sum_app (a b : list ascii) :
  forall i, Spec.weighted_sum i (a ++ b)
            = Spec.weighted_sum i a + Spec.weighted_sum (i + length a) b.
Proof.
  induction a as [|c a IH]; intros i; cbn [app Spec.weighted_sum length].
  - rewrite Nat.add_0_r. lia.
  - rewrite IH. replace (S i + length a)%nat with (i + S (length a))%nat by lia. lia.
Qed.

Lemma weight_cases (i : nat) :
  (Spec.weight i = 7 /\ Spec.weight (S i) = 3)
  \/ (Spec.weight i = 3 /\ Spec.weight (S i) = 1)
  \/ (Spec.weight i = 1 /\ Spec.weight (S i) = 7).
Proof.
  unfold Spec.weight.
  pose proof (Nat.mod_upper_bound i 3 ltac:(lia)) as Hlt.
  pose proof (Nat.div_mod_eq i 3) as Hi.
  destruct (i mod 3)%nat as [|[|[|?]]] eqn:E; try lia.
  - replace (S i) with (1 + (i / 3) * 3)%nat by lia.
    rewrite Nat.Div0.mod_add. cbn. auto.
  - replace (S i) with (2 + (i / 3) * 3)%nat by lia.
    rewrite Nat.Div0.mod_add. cbn. auto.
  - replace (S i) with (0 + (S (i / 3)) * 3)%nat by lia.
    rewrite Nat.Div0.mod_add. cbn. auto.
Qed.

Lemma digit_value (c : ascii) :
  Spec.is_digit c -> Spec.value c = Spec.digit_val c /\ 0 <= Spec.digit_val c <= 9.
Proof.
  intros Hd. apply is_digitb_spec in Hd.
  unfold Spec.value. rewrite Hd. split; [reflexivity|].
  now apply digit_val_bounds.
Qed.

Lemma digit_val_inj (c c' : ascii) :
  Spec.digit_val c = Spec.digit_val c' -> c = c'.
Proof.
  unfold Spec.digit_val. intros H.
  rewrite <- (ascii_of_code c), <- (ascii_of_code c'). f_equal. f_equal. lia.
Qed.

(** X1.  On data within the accumulator bound, [calculateChecksum] returns a
    digit 0..9, and [validateCheckDigit] accepts exactly one check
    character: the digit character of that checksum. *)
Theorem check_digit_unique (sgn : bool) (data : list ascii) :
  245 * Z.of_nat (length data) <= Int32.INT_MAX ->
  0 <= calculateChecksum sgn data <= 9
  /\ (forall c : ascii,
         validateCheckDigit sgn data c = true
         <-> c = Spec.digit_char (calculateChecksum sgn data)).
Proof.
  intros Hlen. rewrite calculateChecksum_checksum by exact Hlen.
  pose proof (checksum_range data) as Hr. split; [exact Hr|].
  intros c. rewrite validateCheckDigit_spec by exact Hlen. split.
  - intros [Hd Heq]. rewrite Heq. unfold Spec.digit_char, Spec.digit_val.
    replace (48 + (Spec.code c - 48)) with (Spec.code c) by lia.
    symmetry. apply ascii_of_code.
  - intros ->. unfold Spec.is_digit, Spec.digit_val.
    rewrite code_digit_char by exact Hr. lia.
Qed.

Lemma check_digit_unique_witness :
  validateCheckDigit true (Str.lit "L898902C3") "6" = true
  /\ validateCheckDigit true (Str.lit "L898902C3") "5" = false.
Proof.
  pose proof (check_digit_unique true (Str.lit "L898902C3")
                ltac:(vm_compute; discriminate)) as [_ H].
  split.
  - apply H. reflexivity.
  - destruct (validateCheckDigit true (Str.lit "L898902C3") "5") eqn:E;
      [|reflexivity].
    apply H in E. vm_compute in E. discriminate E.
Defined.

Lemma zero_tail_sum (sgn : bool) (tail : list ascii) :
  Forall (fun c => charToValue sgn c = 0) tail ->
  forall i, Spec.weighted_sum i tail = 0.
Proof.
  induction 1 as [|c tail Hc _ IH]; intros i; cbn [Spec.weighted_sum].
  - reflexivity.
  - rewrite charToValue_value in Hc. rewrite Hc, IH. lia.
Qed.

(** X2.  Characters of value 0 at the end of the data (the filler '<', or
    any character outside [0-9A-Z]) do not change the checksum: padding a
    field with fillers keeps its check digit. *)
Theorem checksum_ignores_trailing_filler
  (sgn : bool) (data tail : list ascii) :
  Forall (fun c => charToValue sgn c = 0) tail ->
  245 * Z.of_nat (length (data ++ tail)) <= Int32.INT_MAX ->
  calculateChecksum sgn (data ++ tail) = calculateChecksum sgn data.
Proof.
  intros Htail Hlen.
  rewrite length_app in Hlen.
  rewrite !calculateChecksum_checksum by (rewrite ?length_app; lia).
  unfold Spec.checksum. rewrite weighted_sum_app.
  rewrite (zero_tail_sum sgn tail Htail). now rewrite Z.add_0_r.
Qed.

Lemma checksum_ignores_trailing_filler_witness :
  calculateChecksum false (Str.lit "AB12<<<<<") = calculateChecksum false (Str.lit "AB12").
Proof.
  apply (checksum_ignores_trailing_filler false (Str.lit "AB12") (Str.lit "<<<<<")).
  - repeat constructor.
  - vm_compute. discriminate.
Defined.

(** X3.  Replacing one digit of the data by a different digit always
    changes the checksum: the weights 7, 3 and 1 are units modulo 10. *)
Theorem checksum_detects_digit_substitution
  (sgn : bool) (pre post : list ascii) (c c' : ascii) :
  Spec.is_digit c -> Spec.is_digit c' -> c <> c' ->
  245 * Z.of_nat (length (pre ++ c :: post)) <= Int32.INT_MAX ->
  calculateChecksum sgn (pre ++ c :: post)
  <> calculateChecksum sgn (pre ++ c' :: post).
Proof.
  intros Hc Hc' Hne Hlen.
  assert (Hlen' : 245 * Z.of_nat (length (pre ++ c' :: post)) <= Int32.INT_MAX)
    by (rewrite length_app in *; exact Hlen).
  rewrite !calculateChecksum_checksum by assumption.
  unfold Spec.checksum. rewrite !weighted_sum_app. cbn [Spec.weighted_sum].
  destruct (digit_value c Hc) as [-> Hv]. destruct (digit_value c' Hc') as [-> Hv'].
  assert (Hd : Spec.digit_val c <> Spec.digit_val c')
    by (intros E; apply Hne, digit_val_inj, E).
  set (A := Spec.weighted_sum 0 pre).
  set (B := Spec.weighted_sum (S (0 + length pre)) post).
  set (v := Spec.digit_val c) in *. set (v' := Spec.digit_val c') in *.
  destruct (weight_cases (0 + length pre)) as [[-> _] | [[-> _] | [-> _]]];
    intros Heq; Z.to_euclidean_division_equations; lia.
Qed.

Lemma checksum_detects_digit_substitution_witness :
  calculateChecksum false (Str.lit "123456789")
  <> calculateChecksum false (Str.lit "123956789").
Proof.
  apply (checksum_detects_digit_substitution false (Str.lit "123") (Str.lit "56789")
           "4" "9").
  - vm_compute. split; discriminate.
  - vm_compute. split; discriminate.
  - discriminate.
  - vm_compute. discriminate.
Defined.

(** X4.  Swapping two adjacent digits goes unnoticed exactly when they are
    equal or differ by 5: neighbouring weights differ by 4, 2 or 6. *)
Theorem checksum_adjacent_transposition
  (sgn : bool) (pre post : list ascii) (a b : ascii) :
  Spec.is_digit a -> Spec.is_digit b ->
  245 * Z.of_nat (length (pre ++ a :: b :: post)) <= Int32.INT_MAX ->
  calculateChecksum sgn (pre ++ a :: b :: post)
  = calculateChecksum sgn (pre ++ b :: a :: post)
  <-> (Spec.digit_val a - Spec.digit_val b) mod 5 = 0.
Proof.
  intros Ha Hb Hlen.
  assert (Hlen' : 245 * Z.of_nat (length (pre ++ b :: a :: post)) <= Int32.INT_MAX)
    by (rewrite length_app in *; exact Hlen).
  rewrite !calculateChecksum_checksum by assumption.
  unfold Spec.checksum. rewrite !weighted_sum_app. cbn [Spec.weighted_sum].
  destruct (digit_value a Ha) as [-> Hva]. destruct (digit_value b Hb) as [-> Hvb].
  set (A := Spec.weighted_sum 0 pre).
  set (B := Spec.weighted_sum (S (S (0 + length pre))) post).
  set (va := Spec.digit_val a) in *. set (vb := Spec.digit_val b) in *.
  destruct (weight_cases (0 + length pre)) as [[-> ->] | [[-> ->] | [-> ->]]];
    split; intros Heq; Z.to_euclidean_division_equations; lia.
Qed.

Lemma checksum_adjacent_transposition_witness :
  calculateChecksum false (Str.lit "1649") = calculateChecksum false (Str.lit "6149")
  /\ calculateChecksum false (Str.lit "1249") <> calculateChecksum false (Str.lit "2149").
Proof.
  assert (H1 : Spec.is_digit "1") by (vm_compute; split; discriminate).
  assert (H2 : Spec.is_digit "2") by (vm_compute; split; discriminate).
  assert (H6 : Spec.is_digit "6") by (vm_compute; split; discriminate).
  assert (Hlen : forall a b, 245 * Z.of_nat (length ([] ++ a :: b :: Str.lit "49"))
                             <= Int32.INT_MAX)
    by (intros; vm_compute; discriminate).
  split.
  - apply (proj2 (checksum_adjacent_transposition false [] (Str.lit "49") "1" "6"
                    H1 H6 (Hlen _ _))).
    reflexivity.
  - intros H.
    apply (proj1 (checksum_adjacent_transposition false [] (Str.lit "49") "1" "2"
                    H1 H2 (Hlen _ _))) in H.
    vm_compute in H. discriminate H.
Defined.

(** ** More on OCR correction *)

Lemma correctChar_idempotent (sgn : bool) (c : ascii) :
  correctChar sgn (correctChar sgn c) = correctChar sgn c.
Proof. destruct sgn; each_char c; reflexivity. Qed.

Lemma correctChar_alphabet (sgn : bool) (c : ascii) :
  existsb (Ascii.eqb (correctChar sgn c)) Props.corrected_alphabet = true.
Proof. destruct sgn; each_char c; reflexivity. Qed.

Lemma correctChar_upcase (sgn : bool) (c : ascii) :
  correctChar sgn (Spec.upcase c) = correctChar sgn c.
Proof. destruct sgn; each_char c; reflexivity. Qed.

(** X5.  [correctOCRErrors] is idempotent and does not see the case of
    letters: correcting a corrected line, or an uppercased line, gives the
    same result as correcting the line. *)
Theorem correctOCRErrors_idempotent (sgn : bool) (line : list ascii) :
  correctOCRErrors sgn (correctOCRErrors sgn line) = correctOCRErrors sgn line
  /\ correctOCRErrors sgn (map Spec.upcase line) = correctOCRErrors sgn line.
Proof.
  split; induction line as [|c rest IH]; cbn [correctOCRErrors map];
    try reflexivity.
  - now rewrite correctChar_idempotent, IH.
  - now rewrite correctChar_upcase, IH.
Qed.

(** X6.  Every character of a corrected line is one of
    ACEFHJKLMNPRTUVWXY0123456789<: the output stays in the MRZ character
    set, and the letters O, I, S, B, G, D, Q and Z never survive, whether
    they stood in a numeric field or in a name. *)
Theorem correctOCRErrors_alphabet (sgn : bool) (line : list ascii) :
  Forall (fun c => In c Props.corrected_alphabet) (correctOCRErrors sgn line)
  /\ (forall c, In c (Str.lit "OISBGDQZ") -> ~ In c (correctOCRErrors sgn line)).
Proof.
  assert (Hall : Forall (fun c => In c Props.corrected_alphabet)
                        (correctOCRErrors sgn line)).
  { induction line as [|c rest IH]; cbn [correctOCRErrors]; constructor; [|exact IH].
    pose proof (correctChar_alphabet sgn c) as H.
    apply existsb_exists in H as (x & Hin & Heq).
    apply Ascii.eqb_eq in Heq. now subst x. }
  split; [exact Hall|].
  intros c Hbad Hin.
  rewrite Forall_forall in Hall. specialize (Hall c Hin).
  cbn in Hbad, Hall.
  repeat (destruct Hbad as [Hbad | Hbad];
          [subst c; repeat (destruct Hall as [Hall | Hall]; [discriminate Hall|]);
           exact Hall|]).
  exact Hbad.
Qed.

(** ** More on the score record *)

(** The verdict is a function of the four check-digit tests on the two
    padded lines. *)
Lemma validateWithScore_verdict (sgn : bool) (line1 line2 line3 : list ascii) :
  let p1 := paddedLine sgn line1 in
  let p2 := paddedLine sgn line2 in
  let b1 := validateCheckDigit sgn (Str.substr p1 5 9) (Str.at_ p1 14) in
  let b2 := validateCheckDigit sgn (Str.substr p2 0 6) (Str.at_ p2 6) in
  let b3 := validateCheckDigit sgn (Str.substr p2 8 6) (Str.at_ p2 14) in
  let b4 := validateCheckDigit sgn (compositeData p1 p2) (Str.at_ p2 29) in
  let pts := fun b : bool => if b then 15 else 0 in
  Props.verdict (validateWithScore sgn line1 line2 line3)
  = (pts b1 + pts b2 + pts b3 + pts b4, pts b1, pts b2, pts b3, pts b4,
     b1, b2, b3, b4).
Proof.
  cbv zeta.
  unfold validateWithScore, checkDocNum, checkDob, checkExpiry, checkComposite.
  rewrite !paddedLine_length. cbn [Nat.leb andb].
  split_ifs; reflexivity.
Qed.

Lemma correctedLines_of (sgn : bool) (line1 line2 line3 : list ascii) :
  correctedLine1 (validateWithScore sgn line1 line2 line3) = correctOCRErrors sgn line1
  /\ correctedLine2 (validateWithScore sgn line1 line2 line3) = correctOCRErrors sgn line2
  /\ correctedLine3 (validateWithScore sgn line1 line2 line3) = correctOCRErrors sgn line3.
Proof.
  unfold validateWithScore, checkDocNum, checkDob, checkExpiry, checkComposite.
  split_ifs; repeat split; reflexivity.
Qed.

Lemma correctOCRErrors_firstn (sgn : bool) (n : nat) (line : list ascii) :
  correctOCRErrors sgn (firstn n line) = firstn n (correctOCRErrors sgn line).
Proof. rewrite !correctOCRErrors_map. symmetry. apply firstn_map. Qed.

Lemma resize_firstn (s : list ascii) :
  Str.resize (firstn 30 s) 30 "<" = Str.resize s 30 "<".
Proof.
  destruct (Nat.le_gt_cases 30 (length s)) as [Hge | Hlt].
  - unfold Str.resize. rewrite (firstn_length_le s Hge).
    destruct (Nat.leb_spec 30 (length s)); [|lia].
    cbn [Nat.leb]. apply firstn_firstn.
  - now rewrite firstn_all2 by lia.
Qed.

Lemma paddedLine_firstn (sgn : bool) (line : list ascii) :
  paddedLine sgn (firstn 30 line) = paddedLine sgn line.
Proof.
  unfold paddedLine. rewrite correctOCRErrors_firstn. apply resize_firstn.
Qed.

(** X7.  The scores and flags depend on the first 30 characters of lines 1
    and 2 only: line 3, and whatever follows column 30, never influence the
    verdict. *)
Theorem verdict_reads_30_columns_of_two_lines
  (sgn : bool) (line1 line2 line3 other3 : list ascii) :
  Props.verdict (validateWithScore sgn (firstn 30 line1) (firstn 30 line2) other3)
  = Props.verdict (validateWithScore sgn line1 line2 line3).
Proof.
  rewrite !validateWithScore_verdict. cbv zeta.
  now rewrite !paddedLine_firstn.
Qed.

Lemma paddedLine_corrected (sgn : bool) (line : list ascii) :
  paddedLine sgn (correctOCRErrors sgn line) = paddedLine sgn line.
Proof.
  unfold paddedLine.
  induction line as [|c rest IH]; [reflexivity|].
  f_equal. cbn [correctOCRErrors]. rewrite correctChar_idempotent. f_equal.
  clear IH. induction rest as [|d rest IH]; [reflexivity|].
  cbn [correctOCRErrors]. now rewrite correctChar_idempotent, IH.
Qed.

(** X8.  Validation absorbs the correction: lines that were already
    corrected (the [correctedLine] fields of an earlier result, say) give
    the same result, corrected lines included. *)
Theorem validateWithScore_absorbs_correction
  (sgn : bool) (line1 line2 line3 : list ascii) :
  validateWithScore sgn (correctOCRErrors sgn line1) (correctOCRErrors sgn line2)
                    (correctOCRErrors sgn line3)
  = validateWithScore sgn line1 line2 line3.
Proof.
  unfold validateWithScore. rewrite !paddedLine_corrected.
  pose proof (correctOCRErrors_map sgn) as Hmap.
  assert (Hidem : forall l, correctOCRErrors sgn (correctOCRErrors sgn l)
                            = correctOCRErrors sgn l).
  { induction l as [|c rest IH]; cbn [correctOCRErrors]; [reflexivity|].
    now rewrite correctChar_idempotent, IH. }
  now rewrite !Hidem.
Qed.

Lemma verdict_fields (s : ValidationScore) (t d b e c : Z) (dv bv ev cv : bool) :
  Props.verdict s = (t, d, b, e, c, dv, bv, ev, cv) ->
  totalScore s = t /\ docNumScore s = d /\ dobScore s = b /\ expiryScore s = e
  /\ compositeScore s = c /\ docNumValid s = dv /\ dobValid s = bv
  /\ expiryValid s = ev /\ compositeValid s = cv.
Proof.
  unfold Props.verdict. intros H. inversion H. repeat split; reflexivity.
Qed.

Lemma paddedLine_filler (sgn : bool) (line : list ascii) (k : nat) :
  (length line <= k < 30)%nat -> Str.at_ (paddedLine sgn line) k = "<"%char.
Proof.
  intros [Hlo Hhi]. unfold Str.at_, paddedLine, Str.resize.
  assert (Hlen : length (correctOCRErrors sgn line) = length line)
    by (rewrite correctOCRErrors_map; apply length_map).
  rewrite Hlen.
  destruct (Nat.leb_spec 30 (length line)); [lia|].
  rewrite app_nth2 by lia. rewrite Hlen.
  apply nth_repeat_lt. lia.
Qed.

Lemma filler_is_no_check_digit (sgn : bool) (data : list ascii) :
  validateCheckDigit sgn data "<" = false.
Proof. unfold validateCheckDigit. destruct sgn; reflexivity. Qed.

(** X9.  A check whose check-digit column lies beyond the end of the line
    fails: the column then holds the filler, which is no digit.  A line 1
    of at most 14 characters loses the document-number check, a line 2 of
    at most 6, 14 or 29 characters the birth-date, expiry and composite
    checks; empty input scores 0. *)
Theorem short_lines_fail (sgn : bool) (line1 line2 line3 : list ascii) :
  let s := validateWithScore sgn line1 line2 line3 in
  ((length line1 <= 14)%nat -> docNumValid s = false /\ docNumScore s = 0)
  /\ ((length line2 <= 6)%nat -> dobValid s = false /\ dobScore s = 0)
  /\ ((length line2 <= 14)%nat -> expiryValid s = false /\ expiryScore s = 0)
  /\ ((length line2 <= 29)%nat -> compositeValid s = false /\ compositeScore s = 0)
  /\ totalScore (validateWithScore sgn [] [] line3) = 0.
Proof.
  pose proof (validateWithScore_verdict sgn line1 line2 line3) as Hv.
  pose proof (validateWithScore_verdict sgn [] [] line3) as Hv0.
  cbv zeta in *.
  apply verdict_fields in Hv as (_ & Hd & Hb & He & Hc & Hdv & Hbv & Hev & Hcv).
  apply verdict_fields in Hv0 as (Ht0 & _).
  rewrite Hd, Hb, He, Hc, Hdv, Hbv, Hev, Hcv, Ht0.
  repeat apply conj.
  - intros H. rewrite paddedLine_filler by lia.
    now rewrite filler_is_no_check_digit.
  - intros H. rewrite paddedLine_filler by lia.
    now rewrite filler_is_no_check_digit.
  - intros H. rewrite (paddedLine_filler sgn line2 14) by lia.
    now rewrite filler_is_no_check_digit.
  - intros H. rewrite (paddedLine_filler sgn line2 29) by lia.
    now rewrite filler_is_no_check_digit.
  - rewrite !paddedLine_filler by (cbn; lia).
    now rewrite !filler_is_no_check_digit.
Qed.

Lemma short_lines_fail_witness :
  docNumValid (validateWithScore false (Str.lit "I<TUR") [] []) = false
  /\ compositeScore (validateWithScore false [] (Str.lit "9001011M3001012TUR") []) = 0.
Proof.
  split.
  - apply (proj1 (short_lines_fail false (Str.lit "I<TUR") [] [])). cbn. lia.
  - apply (proj1 (proj2 (proj2 (proj2
             (short_lines_fail false [] (Str.lit "9001011M3001012TUR") []))))).
    cbn. lia.
Defined.

(** ** More on the TCKN rule *)

Lemma is_digit_digit_char (d : Z) : 0 <= d <= 9 -> Spec.is_digit (Spec.digit_char d).
Proof.
  intros Hd. unfold Spec.is_digit. rewrite code_digit_char by exact Hd. lia.
Qed.

Lemma digit_char_inj (a b : Z) :
  0 <= a <= 9 -> 0 <= b <= 9 -> Spec.digit_char a = Spec.digit_char b -> a = b.
Proof.
  intros Ha Hb H. apply (f_equal Spec.code) in H.
  rewrite !code_digit_char in H by assumption. lia.
Qed.

Lemma mod10_range (x : Z) : 0 <= x mod 10 <= 9.
Proof. pose proof (Z.mod_pos_bound x 10). lia. Qed.

(** X10.  A string [validateTCKN] accepts consists of eleven decimal
    digits, the first of which is not '0'; anything else (a wrong length,
    a letter, a space, in any position) is rejected. *)
Theorem validateTCKN_accepts_digits_only (sgn : bool) (s : list ascii) :
  validateTCKN sgn s = true ->
  length s = 11%nat
  /\ (forall i, (i < 11)%nat -> Spec.is_digit (nth i s zero))
  /\ nth 0 s zero <> "0"%char.
Proof.
  intros H. apply validateTCKN_tckn_valid in H.
  destruct H as (Hlen & H0 & Hdig & H9 & H10).
  split; [exact Hlen|]. split; [|exact H0].
  intros i Hi.
  destruct (Nat.lt_ge_cases i 9) as [Hlt | Hge]; [now apply Hdig|].
  assert (Hcase : i = 9%nat \/ i = 10%nat) by lia.
  destruct Hcase as [-> | ->].
  - rewrite H9. apply is_digit_digit_char, mod10_range.
  - rewrite H10. apply is_digit_digit_char, mod10_range.
Qed.

Lemma validateTCKN_accepts_digits_only_witness :
  length (Str.lit "10000000146") = 11%nat
  /\ (forall i, (i < 11)%nat -> Spec.is_digit (nth i (Str.lit "10000000146") zero))
  /\ nth 0 (Str.lit "10000000146") zero <> "0"%char.
Proof.
  apply (validateTCKN_accepts_digits_only false). reflexivity.
Defined.

(** The two check digits, as functions of the nine leading digit values. *)
Lemma tckn_valid_digits (s : list ascii) :
  Spec.tckn_valid s ->
  exists c0 c1 c2 c3 c4 c5 c6 c7 c8 c9 c10,
    s = [c0; c1; c2; c3; c4; c5; c6; c7; c8; c9; c10]
    /\ Forall Spec.is_digit [c0; c1; c2; c3; c4; c5; c6; c7; c8]
    /\ c0 <> "0"%char
    /\ c9 = Spec.digit_char
              (((Spec.digit_val c0 + Spec.digit_val c2 + Spec.digit_val c4
                 + Spec.digit_val c6 + Spec.digit_val c8) * 7
                - (Spec.digit_val c1 + Spec.digit_val c3 + Spec.digit_val c5
                   + Spec.digit_val c7)) mod 10)
    /\ c10 = Spec.digit_char
               ((Spec.digit_val c0 + Spec.digit_val c2 + Spec.digit_val c4
                 + Spec.digit_val c6 + Spec.digit_val c8
                 + (Spec.digit_val c1 + Spec.digit_val c3 + Spec.digit_val c5
                    + Spec.digit_val c7)
                 + ((Spec.digit_val c0 + Spec.digit_val c2 + Spec.digit_val c4
                     + Spec.digit_val c6 + Spec.digit_val c8) * 7
                    - (Spec.digit_val c1 + Spec.digit_val c3 + Spec.digit_val c5
                       + Spec.digit_val c7)) mod 10) mod 10).
Proof.
  intros (Hlen & H0 & Hdig & H9 & H10).
  do 11 (destruct s as [|? s]; [discriminate Hlen|]).
  destruct s; [|discriminate Hlen].
  unfold Spec.digit_at in H9, H10. cbn [nth] in H0, H9, H10.
  do 11 eexists. split; [reflexivity|].
  split; [|split; [exact H0|split; [exact H9|exact H10]]].
  repeat (apply Forall_cons;
          [ first [ exact (Hdig 0%nat ltac:(lia)) | exact (Hdig 1%nat ltac:(lia))
                  | exact (Hdig 2%nat ltac:(lia)) | exact (Hdig 3%nat ltac:(lia))
                  | exact (Hdig 4%nat ltac:(lia)) | exact (Hdig 5%nat ltac:(lia))
                  | exact (Hdig 6%nat ltac:(lia)) | exact (Hdig 7%nat ltac:(lia))
                  | exact (Hdig 8%nat ltac:(lia)) ] |]).
  apply Forall_nil.
Qed.

Lemma code_inj (a b : ascii) : Spec.code a = Spec.code b -> a = b.
Proof.
  intros H. rewrite <- (ascii_of_code a), <- (ascii_of_code b). now rewrite H.
Qed.

(** One goal for each index below [n], and a last one for the rest. *)
Ltac index_cases n i tac :=
  match n with
  | O => idtac
  | S ?k => destruct i as [|i]; [tac | index_cases k i tac]
  end.

Ltac forall_digits :=
  repeat match goal with
         | H : Forall Spec.is_digit (_ :: _) |- _ =>
             apply Forall_cons_iff in H; destruct H as [? H]
         | H : Forall Spec.is_digit [] |- _ => clear H
         end.

(** One replaced character: a check character that no longer matches, or a
    leading digit, which the tenth character gives away. *)
Ltac tckn_replaced c Hne E9 H9 E10 H10 :=
  first
    [ solve [apply Hne; rewrite E9, H9; reflexivity]
    | solve [apply Hne; rewrite E10, H10; reflexivity]
    | rewrite H9 in E9;
      apply digit_char_inj in E9; [| apply mod10_range | apply mod10_range];
      match type of Hne with
      | _ <> ?ci =>
          assert (Spec.code c <> Spec.code ci)
            by (let Hc := fresh in intros Hc; apply Hne, code_inj, Hc)
      end;
      unfold Spec.is_digit, Spec.digit_val in *;
      Z.to_euclidean_division_equations; lia ].

(** X11.  The two check digits catch every single-character error: if a
    string is accepted, the string obtained by replacing any one of its
    eleven characters by a different character is rejected. *)
Theorem validateTCKN_detects_substitution
  (sgn : bool) (s : list ascii) (i : nat) (c : ascii) :
  validateTCKN sgn s = true ->
  (i < 11)%nat ->
  c <> nth i s zero ->
  validateTCKN sgn (Props.replace_at i c s) = false.
Proof.
  intros Hvalid Hi Hne.
  destruct (validateTCKN sgn (Props.replace_at i c s)) eqn:E; [exfalso|reflexivity].
  apply validateTCKN_tckn_valid in Hvalid, E.
  apply tckn_valid_digits in Hvalid
    as (c0 & c1 & c2 & c3 & c4 & c5 & c6 & c7 & c8 & c9 & c10
        & -> & Hdig & H0 & H9 & H10).
  apply tckn_valid_digits in E
    as (e0 & e1 & e2 & e3 & e4 & e5 & e6 & e7 & e8 & e9 & e10
        & Es & Edig & E0 & E9 & E10).
  forall_digits.
  index_cases 11%nat i
    ltac:(unfold Props.replace_at in Es; cbn [firstn skipn app nth] in Es, Hne;
          injection Es as <- <- <- <- <- <- <- <- <- <- <-;
          tckn_replaced c Hne E9 H9 E10 H10).
  lia.
Qed.

Lemma validateTCKN_detects_substitution_witness :
  validateTCKN false (Str.lit "10000000146") = true
  /\ validateTCKN false (Str.lit "10000030146") = false.
Proof.
  split; [reflexivity|].
  apply (validateTCKN_detects_substitution false (Str.lit "10000000146") 6 "3").
  - reflexivity.
  - lia.
  - discriminate.
Defined.

(** ** The pipeline on traced images: no call is refused *)

Lemma image_like_nonempty (m : Trace.Mat) :
  Props.image_like m -> Trace.is_empty m = false.
Proof.
  intros (Hr & Hc & _). unfold Trace.is_empty. apply Z.eqb_neq. nia.
Qed.

Lemma trace_toGray (m : Trace.Mat) :
  Props.image_like m ->
  exists g, toGray m = Ok g
            /\ Props.shape g = (Trace.mat_rows m, Trace.mat_cols m, 1)
            /\ exists added, Trace.calls g = Trace.calls m ++ added.
Proof.
  intros (_ & _ & Hch). unfold toGray. cbn [channels cvtColor clone Trace.opencv].
  unfold Trace.do_cvtColor.
  destruct Hch as [Hc | [Hc | Hc]]; rewrite Hc; cbn [Z.eqb Pos.eqb orb].
  - exists m. unfold Props.shape. rewrite Hc. repeat split.
    exists []. now rewrite app_nil_r.
  - eexists. repeat split. eexists. reflexivity.
  - eexists. repeat split. eexists. reflexivity.
Qed.

(** The block-size coercion of [binarizeROI]. *)
Lemma block_coercion (bs : Z) :
  Int32.in_range bs -> 0 < bs ->
  let b := Int32.max 3 (if Int32.rem bs 2 =? 0 then Int32.add bs 1 else bs) in
  Z.odd b = true /\ 3 <= b /\ bs <= b <= bs + 2.
Proof.
  intros Hr Hpos. cbv zeta. unfold Int32.rem, Int32.max.
  assert (Hrem : Z.rem bs 2 = bs mod 2) by (apply Z.rem_mod_nonneg; lia).
  rewrite Hrem. pose proof (Z.mod_pos_bound bs 2 ltac:(lia)) as Hm.
  pose proof (Z.div_mod bs 2 ltac:(lia)) as Hdm.
  destruct (Z.eqb_spec (bs mod 2) 0) as [He | Ho].
  - assert (Hlt : bs < Int32.INT_MAX).
    { unfold Int32.in_range, Int32.INT_MAX in *. lia. }
    rewrite add_small by in_range_lia.
    destruct (Z.ltb_spec 3 (bs + 1)); (split; [|lia]).
    + rewrite Z.odd_spec. exists (bs / 2). lia.
    + reflexivity.
  - destruct (Z.ltb_spec 3 bs); (split; [|lia]).
    + rewrite Z.odd_spec. exists (bs / 2). lia.
    + reflexivity.
Qed.

(** [binarizeROI] on a traced image: the shape of its result and the last
    two calls it makes, with the block size as the code computes it. *)
Lemma trace_binarizeROI (m : Trace.Mat) (region : ROIRegion) :
  Props.image_like m ->
  Int32.in_range (binarizeBlockSize region) ->
  exists out prefix,
    binarizeROI m region = Ok out
    /\ Props.shape out = (Trace.mat_rows m, Trace.mat_cols m, 1)
    /\ Trace.calls out
       = prefix
         ++ [ (if 0 <? binarizeBlockSize region
               then Trace.AdaptiveThreshold 255 ADAPTIVE_THRESH_GAUSSIAN_C
                      THRESH_BINARY
                      (Int32.max 3
                         (if Int32.rem (binarizeBlockSize region) 2 =? 0
                          then Int32.add (binarizeBlockSize region) 1
                          else binarizeBlockSize region))
                      (binarizeC region)
               else Trace.Threshold 0 255 THRESH_BINARY_OTSU);
              Trace.MorphologyEx MORPH_CLOSE MORPH_RECT (1, 1) ].
Proof.
  intros Himg Hbs. unfold binarizeROI.
  change (empty m) with (Trace.is_empty m).
  rewrite (image_like_nonempty m Himg).
  destruct (trace_toGray m Himg) as (g & -> & Hshape & added & Hcalls).
  unfold Props.shape in Hshape. injection Hshape as Hgr Hgc Hgch.
  cbn [bind claheApply bitwise_not adaptiveThreshold threshold morphologyEx
       Trace.opencv].
  set (enh := if invertColors region
              then Trace.after (Trace.after g (Trace.CLAHE 3 (4, 4))) Trace.BitwiseNot
              else Trace.after g (Trace.CLAHE 3 (4, 4))).
  assert (Henh : (if invertColors region
                  then Ok (Trace.after (Trace.after g (Trace.CLAHE 3 (4, 4)))
                                       Trace.BitwiseNot)
                  else Ok (Trace.after g (Trace.CLAHE 3 (4, 4)))) = Ok enh)
    by (unfold enh; destruct (invertColors region); reflexivity).
  rewrite Henh. cbn [bind].
  assert (Hes : Trace.mat_rows enh = Trace.mat_rows m
                /\ Trace.mat_cols enh = Trace.mat_cols m
                /\ Trace.mat_channels enh = 1)
    by (unfold enh; destruct (invertColors region); cbn; auto).
  destruct Hes as (Her & Hec & Hech).
  destruct (Z.ltb_spec 0 (binarizeBlockSize region)) as [Hpos | Hnon].
  - pose proof (block_coercion _ Hbs Hpos) as Hb. cbv zeta in Hb.
    set (b := Int32.max 3 _) in *. destruct Hb as (Hodd & H3 & Hrange).
    unfold Trace.do_adaptiveThreshold. rewrite Hech, Hodd.
    destruct (Z.ltb_spec 1 b); [|lia]. cbn [Z.eqb Pos.eqb andb bind].
    eexists. exists (Trace.calls enh). split; [reflexivity|].
    unfold Props.shape. cbn. rewrite Her, Hec, Hech.
    split; [reflexivity|]. rewrite <- app_assoc. reflexivity.
  - eexists. exists (Trace.calls enh). split; [reflexivity|].
    unfold Props.shape. cbn. rewrite Her, Hec, Hech.
    split; [reflexivity|]. rewrite <- app_assoc. reflexivity.
Qed.

(** X12.  [binarizeROI] never hands OpenCV an even block size or one below
    3: for every [int] block size, a positive one is coerced to the next odd
    value of at least 3 before [adaptiveThreshold] is called, and a zero or
    negative one selects the Otsu threshold instead.  On an image that
    checks what it is asked, no call is refused, and the result is a
    single-channel image of the same size. *)
Theorem binarizeROI_block_size (m : Trace.Mat) (region : ROIRegion) :
  Props.image_like m ->
  Int32.in_range (binarizeBlockSize region) ->
  exists out prefix,
    binarizeROI m region = Ok out
    /\ Props.shape out = (Trace.mat_rows m, Trace.mat_cols m, 1)
    /\ ((0 < binarizeBlockSize region ->
         exists b,
           Trace.calls out
           = prefix ++ [ Trace.AdaptiveThreshold 255 ADAPTIVE_THRESH_GAUSSIAN_C
                           THRESH_BINARY b (binarizeC region);
                         Trace.MorphologyEx MORPH_CLOSE MORPH_RECT (1, 1) ]
           /\ Z.odd b = true /\ 3 <= b
           /\ binarizeBlockSize region <= b <= binarizeBlockSize region + 2)
        /\ (binarizeBlockSize region <= 0 ->
            Trace.calls out
            = prefix ++ [ Trace.Threshold 0 255 THRESH_BINARY_OTSU;
                          Trace.MorphologyEx MORPH_CLOSE MORPH_RECT (1, 1) ])).
Proof.
  intros Himg Hbs.
  destruct (trace_binarizeROI m region Himg Hbs)
    as (out & prefix & Heq & Hshape & Hcalls).
  exists out, prefix. split; [exact Heq|]. split; [exact Hshape|]. split.
  - intros Hpos. eexists. split; [|exact (block_coercion _ Hbs Hpos)].
    rewrite Hcalls. destruct (Z.ltb_spec 0 (binarizeBlockSize region)); [|lia].
    reflexivity.
  - intros Hnon. rewrite Hcalls.
    destruct (Z.ltb_spec 0 (binarizeBlockSize region)); [lia|]. reflexivity.
Qed.

Lemma binarizeROI_block_size_witness :
  exists out,
    binarizeROI (Trace.image 64 239 3)
                (mkROIRegion F32.zero F32.zero F32.one F32.one true 20 7)
    = Ok out
    /\ Props.shape out = (64, 239, 1).
Proof.
  assert (Himg : Props.image_like (Trace.image 64 239 3)).
  { unfold Props.image_like. cbn. unfold Int32.INT_MAX. lia. }
  assert (Hbs : Int32.in_range
                  (binarizeBlockSize (mkROIRegion F32.zero F32.zero F32.one F32.one
                                                  true 20 7))).
  { cbn. unfold Int32.in_range, Int32.INT_MIN, Int32.INT_MAX. lia. }
  destruct (binarizeROI_block_size _ _ Himg Hbs) as (out & prefix & Heq & Hshape & _).
  exists out. split; assumption.
Defined.

Lemma shape_fields (m : Trace.Mat) (r c ch : Z) :
  Props.shape m = (r, c, ch) ->
  Trace.mat_rows m = r /\ Trace.mat_cols m = c /\ Trace.mat_channels m = ch.
Proof. unfold Props.shape. intros H. inversion H. auto. Qed.

Lemma trace_mrzProfile (m : Trace.Mat) :
  Props.image_like m ->
  exists out, mrzProfile m = Ok out
              /\ Props.shape out = (Trace.mat_rows m, Trace.mat_cols m, 1).
Proof.
  intros Himg. unfold mrzProfile.
  destruct (trace_toGray m Himg) as (g & -> & Hshape & _).
  unfold Props.shape in Hshape. injection Hshape as Hgr Hgc Hgch.
  cbn [bind GaussianBlur adaptiveThreshold Trace.opencv].
  unfold Trace.do_adaptiveThreshold. cbn [Trace.after Trace.mat_channels].
  rewrite Hgch. cbn.
  eexists. split; [reflexivity|].
  unfold Props.shape. cbn. now rewrite Hgr, Hgc, Hgch.
Qed.

Lemma getROIRegion_block_range (type : ROIType.t) (isBackSide : bool) :
  Int32.in_range (binarizeBlockSize (getROIRegion type isBackSide)).
Proof.
  destruct isBackSide, type; cbn; unfold Int32.in_range, Int32.INT_MIN, Int32.INT_MAX; lia.
Qed.

(** X13.  On a traced card image (gray, BGR or BGRA, at least one pixel),
    [extractROI] never has a call refused, for any field and side: the crop
    rectangle lies inside the card, and the result has the size of that
    rectangle.  The photo is returned as the bare crop, with the channels of
    the card; every other field comes back as a single-channel image. *)
Theorem extractROI_succeeds
  (card : Trace.Mat) (type : ROIType.t) (isBackSide : bool) :
  Props.image_like card ->
  let r := roiRectOf (Trace.mat_cols card) (Trace.mat_rows card)
                     (getROIRegion type isBackSide) in
  exists out,
    extractROI card type isBackSide = Ok out
    /\ Trace.mat_rows out = rect_height r
    /\ Trace.mat_cols out = rect_width r
    /\ (type = ROIType.PHOTO ->
        out = Trace.mkMat (rect_height r) (rect_width r) (Trace.mat_channels card)
                          (Trace.calls card ++ [Trace.Roi r]))
    /\ (type <> ROIType.PHOTO -> Trace.mat_channels out = 1).
Proof.
  intros Himg r. pose proof Himg as (Hrows & Hcols & Hch).
  unfold extractROI. change (empty card) with (Trace.is_empty card).
  rewrite (image_like_nonempty card Himg).
  change (cols card) with (Trace.mat_cols card).
  change (rows card) with (Trace.mat_rows card). fold r.
  destruct (roiRectOf_inside (Trace.mat_cols card) (Trace.mat_rows card)
              (getROIRegion type isBackSide) Hrows Hcols)
    as [(Hx & Hw & Hxw) (Hy & Hh & Hyh)]. fold r in Hx, Hw, Hxw, Hy, Hh, Hyh.
  assert (Hroi : roi card r
                 = Ok (Trace.mkMat (rect_height r) (rect_width r)
                         (Trace.mat_channels card) (Trace.calls card ++ [Trace.Roi r]))).
  { cbn [roi Trace.opencv]. unfold Trace.do_roi, Trace.inside.
    repeat match goal with
           | |- context [?a <=? ?b] => destruct (Z.leb_spec a b); [|lia]
           end.
    reflexivity. }
  rewrite Hroi. cbn [bind clone Trace.opencv].
  set (crop := Trace.mkMat (rect_height r) (rect_width r) (Trace.mat_channels card)
                           (Trace.calls card ++ [Trace.Roi r])).
  assert (Hcrop : Props.image_like crop).
  { unfold Props.image_like, crop.
    cbn [Trace.mat_rows Trace.mat_cols Trace.mat_channels].
    unfold Int32.INT_MAX in *.
    split; [lia|]. split; [lia|]. exact Hch. }
  destruct (trace_mrzProfile crop Hcrop) as (o1 & Ho1 & Hs1).
  destruct (trace_binarizeROI crop (getROIRegion type isBackSide) Hcrop
              (getROIRegion_block_range type isBackSide))
    as (o2 & prefix & Ho2 & Hs2 & _).
  unfold Props.shape in Hs1, Hs2. injection Hs1 as Hr1 Hc1 Hch1.
  injection Hs2 as Hr2 Hc2 Hch2.
  destruct type;
    first
      [ (rewrite Ho2; exists o2; repeat split; auto; discriminate)
      | (rewrite Ho1; exists o1; repeat split; auto; discriminate)
      | (exists crop; repeat split; auto; intros H; now contradiction H) ].
Qed.

Lemma extractROI_succeeds_witness :
  exists out,
    extractROI (Trace.image 540 856 3) ROIType.TCKN false = Ok out
    /\ Props.shape out = (64, 239, 1).
Proof.
  assert (Himg : Props.image_like (Trace.image 540 856 3)).
  { unfold Props.image_like. cbn. unfold Int32.INT_MAX. lia. }
  destruct (extractROI_succeeds (Trace.image 540 856 3) ROIType.TCKN false Himg)
    as (out & Heq & Hr & Hc & _ & Hch).
  exists out. split; [exact Heq|].
  unfold Props.shape. rewrite Hr, Hc, (Hch ltac:(discriminate)).
  vm_compute. reflexivity.
Defined.

Lemma trace_binarizeForOCR (m : Trace.Mat) :
  Props.image_like m ->
  exists out, binarizeForOCR m = Ok out
              /\ Props.shape out = (Trace.mat_rows m, Trace.mat_cols m, 1).
Proof.
  intros Himg. unfold binarizeForOCR.
  change (empty m) with (Trace.is_empty m).
  rewrite (image_like_nonempty m Himg).
  destruct (trace_toGray m Himg) as (g & -> & Hshape & _).
  unfold Props.shape in Hshape. injection Hshape as Hgr Hgc Hgch.
  cbn [bind claheApply fastNlMeansDenoising adaptiveThreshold morphologyEx
       medianBlur Trace.opencv].
  unfold Trace.do_adaptiveThreshold. cbn [Trace.after Trace.mat_channels].
  rewrite Hgch. cbn.
  eexists. split; [reflexivity|].
  unfold Props.shape. cbn. now rewrite Hgr, Hgc, Hgch.
Qed.

(** [extractMRZRegion] on a traced card of at most 65535 rows. *)
Lemma trace_extractMRZRegion (card : Trace.Mat) :
  Props.image_like card ->
  Trace.mat_rows card <= 65535 ->
  exists out,
    extractMRZRegion card = Ok out
    /\ Props.shape out
       = (Trace.mat_rows card - 72 * Trace.mat_rows card / 100,
          Trace.mat_cols card, 1).
Proof.
  intros Himg Hmax. pose proof Himg as (Hrows & Hcols & Hch).
  unfold extractMRZRegion. change (empty card) with (Trace.is_empty card).
  rewrite (image_like_nonempty card Himg).
  change (cols card) with (Trace.mat_cols card).
  change (rows card) with (Trace.mat_rows card).
  rewrite mrzRectOf_bottom by lia. unfold Spec.bottom_28_percent.
  assert (Htop : 0 <= 72 * Trace.mat_rows card / 100 < Trace.mat_rows card).
  { split; [apply Z.div_pos; lia|]. apply Z.div_lt_upper_bound; lia. }
  assert (Hheight : 1 <= Trace.mat_rows card - 72 * Trace.mat_rows card / 100
                    <= Int32.INT_MAX) by lia.
  cbn [roi Trace.opencv]. unfold Trace.do_roi, Trace.inside.
  cbn [rect_x rect_y rect_width rect_height].
  repeat match goal with
         | |- context [?a <=? ?b] => destruct (Z.leb_spec a b); [|lia]
         end.
  cbn [andb bind clone Trace.opencv].
  match goal with
  | |- context [binarizeForOCR ?c] => set (crop := c)
  end.
  assert (Hcrop : Props.image_like crop).
  { unfold Props.image_like, crop.
    cbn [Trace.mat_rows Trace.mat_cols Trace.mat_channels].
    split; [exact Hheight|]. split; [exact Hcols|]. exact Hch. }
  destruct (trace_binarizeForOCR crop Hcrop) as (out & Hout & Hshape).
  exists out. split; [exact Hout | exact Hshape].
Qed.

(** X14.  On a traced card image of at most 65535 rows, [extractMRZRegion]
    never has a call refused: the crop starts at row [72 * rows / 100]
    (rounded down), reaches the bottom, keeps the full width, is never empty,
    and comes back as a single-channel image.  Its height is 28% of the
    card's, rounded up to a whole row. *)
Theorem extractMRZRegion_succeeds (card : Trace.Mat) :
  Props.image_like card ->
  Trace.mat_rows card <= 65535 ->
  exists out,
    extractMRZRegion card = Ok out
    /\ Props.shape out
       = (Trace.mat_rows card - 72 * Trace.mat_rows card / 100,
          Trace.mat_cols card, 1)
    /\ 1 <= Trace.mat_rows out <= Trace.mat_rows card
    /\ 28 * Trace.mat_rows card <= 100 * Trace.mat_rows out
       < 28 * Trace.mat_rows card + 100.
Proof.
  intros Himg Hmax. pose proof Himg as (Hrows & _).
  destruct (trace_extractMRZRegion card Himg Hmax) as (out & Hout & Hshape).
  exists out. split; [exact Hout|]. split; [exact Hshape|].
  apply shape_fields in Hshape as (Hr & _ & _). rewrite Hr.
  pose proof (Z.div_mod (72 * Trace.mat_rows card) 100 ltac:(lia)) as Hdm.
  pose proof (Z.mod_pos_bound (72 * Trace.mat_rows card) 100 ltac:(lia)) as Hmod.
  lia.
Qed.

Lemma extractMRZRegion_succeeds_witness :
  exists out,
    extractMRZRegion (Trace.image 540 856 4) = Ok out
    /\ Props.shape out = (152, 856, 1).
Proof.
  assert (Himg : Props.image_like (Trace.image 540 856 4)).
  { unfold Props.image_like. cbn. unfold Int32.INT_MAX. lia. }
  destruct (extractMRZRegion_succeeds _ Himg ltac:(cbn; lia))
    as (out & Heq & Hshape & _).
  exists out. split; [exact Heq|exact Hshape].
Defined.

(** [warpToID1] on a traced image: the one call it adds. *)
Lemma trace_warpToID1 (src : Trace.Mat) (corners : list Point) :
  length corners = 4%nat ->
  Trace.is_empty src = false ->
  exists w h,
    ((w = 856 /\ h = 540) \/ (w = 540 /\ h = 856))
    /\ warpToID1 src corners
       = Ok (Trace.mkMat h w (Trace.mat_channels src)
               (Trace.calls src
                ++ [Trace.WarpPerspective
                      (Some (orderCorners corners,
                             [ (F32.of_int 0, F32.of_int 0);
                               (F32.of_int (w - 1), F32.of_int 0);
                               (F32.of_int (w - 1), F32.of_int (h - 1));
                               (F32.of_int 0, F32.of_int (h - 1)) ]))
                      (w, h) INTER_CUBIC])).
Proof.
  intros Hlen Hne. unfold warpToID1.
  apply Nat.eqb_eq in Hlen. rewrite Hlen.
  change (empty src) with (Trace.is_empty src). rewrite Hne.
  cbn [negb orb].
  match goal with
  | |- context [if Fp.ltb ?a ?b then _ else _] => destruct (Fp.ltb a b)
  end; cbn [bind getPerspectiveTransform warpPerspective Trace.opencv];
    [exists 540, 856 | exists 856, 540]; (split; [tauto|]); reflexivity.
Qed.

(** X15.  Given four corners and a non-empty traced image, [warpToID1]
    returns an image of exactly 856x540 or 540x856 pixels with the channels
    of its source, whatever the corners are; the one call it adds warps the
    ordered corners onto the four corners of that frame, top-left first,
    clockwise. *)
Theorem warpToID1_canonical_size (src : Trace.Mat) (corners : list Point) :
  length corners = 4%nat ->
  Trace.is_empty src = false ->
  exists out,
    warpToID1 src corners = Ok out
    /\ Trace.mat_channels out = Trace.mat_channels src
    /\ ((Trace.mat_cols out = 856 /\ Trace.mat_rows out = 540)
        \/ (Trace.mat_cols out = 540 /\ Trace.mat_rows out = 856))
    /\ Trace.calls out
       = Trace.calls src
         ++ [Trace.WarpPerspective
               (Some (orderCorners corners,
                      [ (F32.of_int 0, F32.of_int 0);
                        (F32.of_int (Trace.mat_cols out - 1), F32.of_int 0);
                        (F32.of_int (Trace.mat_cols out - 1),
                         F32.of_int (Trace.mat_rows out - 1));
                        (F32.of_int 0, F32.of_int (Trace.mat_rows out - 1)) ]))
               (Trace.mat_cols out, Trace.mat_rows out) INTER_CUBIC].
Proof.
  intros Hlen Hne.
  destruct (trace_warpToID1 src corners Hlen Hne) as (w & h & Hsize & Heq).
  eexists. split; [exact Heq|].
  cbn [Trace.mat_channels Trace.mat_cols Trace.mat_rows Trace.calls].
  split; [reflexivity|]. split; [tauto | reflexivity].
Qed.

Lemma warpToID1_canonical_size_witness :
  exists out,
    warpToID1 (Trace.image 480 640 3) [(40, 30); (600, 35); (590, 400); (45, 410)]
    = Ok out
    /\ Props.shape out = (540, 856, 3).
Proof.
  destruct (warpToID1_canonical_size (Trace.image 480 640 3)
              [(40, 30); (600, 35); (590, 400); (45, 410)] eq_refl eq_refl)
    as (out & Heq & _).
  exists out. split; [exact Heq|].
  assert (Hc : warpToID1 (Trace.image 480 640 3)
                 [(40, 30); (600, 35); (590, 400); (45, 410)]
               = Ok (Trace.mkMat 540 856 3
                       [Trace.WarpPerspective
                          (Some ([ (F32.of_int 40, F32.of_int 30);
                                   (F32.of_int 600, F32.of_int 35);
                                   (F32.of_int 590, F32.of_int 400);
                                   (F32.of_int 45, F32.of_int 410) ],
                                 [ (F32.of_int 0, F32.of_int 0);
                                   (F32.of_int 855, F32.of_int 0);
                                   (F32.of_int 855, F32.of_int 539);
                                   (F32.of_int 0, F32.of_int 539) ]))
                          (856, 540) INTER_CUBIC]))
    by (vm_compute; reflexivity).
  rewrite Hc in Heq. injection Heq as <-. reflexivity.
Defined.

(** ** Floating-point values over a common scale *)

Lemma pow2_pos (k : Z) : 0 <= k -> 0 < 2 ^ k.
Proof. intros. apply Z.pow_pos_nonneg; lia. Qed.

Lemma pow2_split (a b : Z) : 0 <= a -> 0 <= b -> 2 ^ (a + b) = 2 ^ a * 2 ^ b.
Proof. intros. apply Z.pow_add_r; assumption. Qed.

Lemma at_most_scaled (x : Fp.t) (K s : Z) :
  0 <= s -> 0 <= Fp.expo x + s ->
  Bound.at_most x K <-> scaled s x <= K * 2 ^ s.
Proof.
  intros Hs Hes. unfold Bound.at_most, scaled.
  destruct (Z_le_gt_dec 0 (Fp.expo x)) as [He | He].
  - rewrite (Z.max_r 0 (Fp.expo x)), (Z.max_l 0 (- Fp.expo x)) by lia.
    rewrite pow2_split by lia. change (2 ^ 0) with 1.
    pose proof (pow2_pos s Hs). pose proof (pow2_pos (Fp.expo x) He). nia.
  - rewrite (Z.max_l 0 (Fp.expo x)), (Z.max_r 0 (- Fp.expo x)) by lia.
    change (2 ^ 0) with 1.
    replace s with ((Fp.expo x + s) + (- Fp.expo x)) at 2 by lia.
    rewrite (pow2_split (Fp.expo x + s) (- Fp.expo x)) by lia.
    pose proof (pow2_pos (Fp.expo x + s) Hes).
    pose proof (pow2_pos (- Fp.expo x) ltac:(lia)). nia.
Qed.

Lemma at_least_scaled (x : Fp.t) (K s : Z) :
  0 <= s -> 0 <= Fp.expo x + s ->
  Bound.at_least x K <-> K * 2 ^ s <= scaled s x.
Proof.
  intros Hs Hes. unfold Bound.at_least, scaled.
  destruct (Z_le_gt_dec 0 (Fp.expo x)) as [He | He].
  - rewrite (Z.max_r 0 (Fp.expo x)), (Z.max_l 0 (- Fp.expo x)) by lia.
    rewrite pow2_split by lia. change (2 ^ 0) with 1.
    pose proof (pow2_pos s Hs). pose proof (pow2_pos (Fp.expo x) He). nia.
  - rewrite (Z.max_l 0 (Fp.expo x)), (Z.max_r 0 (- Fp.expo x)) by lia.
    change (2 ^ 0) with 1.
    replace s with ((Fp.expo x + s) + (- Fp.expo x)) at 1 by lia.
    rewrite (pow2_split (Fp.expo x + s) (- Fp.expo x)) by lia.
    pose proof (pow2_pos (Fp.expo x + s) Hes).
    pose proof (pow2_pos (- Fp.expo x) ltac:(lia)). nia.
Qed.

Lemma aligned_scaled (a b : Fp.t) (s : Z) :
  0 <= Fp.expo a + s -> 0 <= Fp.expo b + s ->
  scaled s a = fst (Fp.aligned a b) * 2 ^ (Z.min (Fp.expo a) (Fp.expo b) + s)
  /\ scaled s b = snd (Fp.aligned a b) * 2 ^ (Z.min (Fp.expo a) (Fp.expo b) + s).
Proof.
  intros Ha Hb. unfold scaled, Fp.aligned. cbn [fst snd].
  set (m := Z.min (Fp.expo a) (Fp.expo b)).
  assert (Hm : m <= Fp.expo a /\ m <= Fp.expo b /\ 0 <= m + s) by (unfold m; lia).
  split.
  - replace (Fp.expo a + s) with ((Fp.expo a - m) + (m + s)) by lia.
    rewrite pow2_split by lia. lia.
  - replace (Fp.expo b + s) with ((Fp.expo b - m) + (m + s)) by lia.
    rewrite pow2_split by lia. lia.
Qed.

Lemma leb_scaled (a b : Fp.t) (s : Z) :
  0 <= Fp.expo a + s -> 0 <= Fp.expo b + s ->
  Fp.leb a b = true <-> scaled s a <= scaled s b.
Proof.
  intros Ha Hb. destruct (aligned_scaled a b s Ha Hb) as [-> ->].
  unfold Fp.leb. rewrite Z.leb_le.
  pose proof (pow2_pos (Z.min (Fp.expo a) (Fp.expo b) + s) ltac:(lia)). nia.
Qed.

Lemma ltb_scaled (a b : Fp.t) (s : Z) :
  0 <= Fp.expo a + s -> 0 <= Fp.expo b + s ->
  Fp.ltb a b = true <-> scaled s a < scaled s b.
Proof.
  intros Ha Hb. destruct (aligned_scaled a b s Ha Hb) as [-> ->].
  unfold Fp.ltb. rewrite Z.ltb_lt.
  pose proof (pow2_pos (Z.min (Fp.expo a) (Fp.expo b) + s) ltac:(lia)). nia.
Qed.

Lemma ltb_false_leb (a b : Fp.t) : Fp.ltb a b = false -> Fp.leb b a = true.
Proof.
  intros H. apply (leb_scaled b a (scale2 a b)); try (unfold scale2; lia).
  destruct (Z_lt_le_dec (scaled (scale2 a b) a) (scaled (scale2 a b) b)) as [Hlt | Hge];
    [|exact Hge].
  apply (ltb_scaled a b (scale2 a b)) in Hlt; try (unfold scale2; lia). congruence.
Qed.

Lemma ltb_leb (a b : Fp.t) : Fp.ltb a b = true -> Fp.leb a b = true.
Proof.
  intros H. apply (ltb_scaled a b (scale2 a b)) in H; try (unfold scale2; lia).
  apply (leb_scaled a b (scale2 a b)); try (unfold scale2; lia). lia.
Qed.

Lemma leb_trans (a b c : Fp.t) :
  Fp.leb a b = true -> Fp.leb b c = true -> Fp.leb a c = true.
Proof.
  intros Hab Hbc.
  apply (leb_scaled a b (scale3 a b c)) in Hab; try (unfold scale3; lia).
  apply (leb_scaled b c (scale3 a b c)) in Hbc; try (unfold scale3; lia).
  apply (leb_scaled a c (scale3 a b c)); try (unfold scale3; lia). lia.
Qed.

Lemma ltb_at_most (a b : Fp.t) (K : Z) :
  Fp.ltb a b = true -> Bound.at_most b K -> Bound.at_most a K.
Proof.
  intros Hlt Hb.
  apply (ltb_scaled a b (scale2 a b)) in Hlt; try (unfold scale2; lia).
  apply (at_most_scaled b K (scale2 a b)) in Hb; try (unfold scale2; lia).
  apply (at_most_scaled a K (scale2 a b)); try (unfold scale2; lia). lia.
Qed.

(** ** Rounding against integer bounds *)

Lemma round_pos_mant_nonneg (p n d : Z) :
  0 < d -> 0 <= Fp.mant (Fp.round_pos p n d).
Proof.
  intros Hd. unfold Fp.round_pos.
  destruct (Z.leb_spec n 0); cbn [Fp.mant]; [lia|].
  apply rne_nonneg; [apply num_at_nonneg; lia | apply den_at_pos; exact Hd].
Qed.

Lemma round_mant_nonneg (p n d : Z) :
  0 < d -> 0 <= n -> 0 <= Fp.mant (Fp.round p n d).
Proof.
  intros Hd Hn. unfold Fp.round. destruct (Z.ltb_spec n 0); [lia|].
  now apply round_pos_mant_nonneg.
Qed.

Lemma at_least_0 (x : Fp.t) : 0 <= Fp.mant x -> Bound.at_least x 0.
Proof.
  intros H. unfold Bound.at_least.
  pose proof (pow2_pos (Z.max 0 (Fp.expo x)) ltac:(lia)). nia.
Qed.

Lemma at_least_0_mant (x : Fp.t) : Bound.at_least x 0 -> 0 <= Fp.mant x.
Proof.
  unfold Bound.at_least. intros H.
  pose proof (pow2_pos (Z.max 0 (Fp.expo x)) ltac:(lia)). nia.
Qed.

Lemma at_most_nonpos_mant (x : Fp.t) (K : Z) :
  Fp.mant x <= 0 -> 0 <= K -> Bound.at_most x K.
Proof.
  intros Hm HK. unfold Bound.at_most.
  pose proof (pow2_pos (Z.max 0 (Fp.expo x)) ltac:(lia)).
  pose proof (pow2_pos (Z.max 0 (- Fp.expo x)) ltac:(lia)). nia.
Qed.

(** Rounding does not cross an integer that the format represents with
    room to spare. *)
Lemma round_at_most (p n d K : Z) :
  0 < d -> 0 <= K -> Z.log2 K <= p - 2 -> n <= K * d ->
  Bound.at_most (Fp.round p n d) K.
Proof.
  intros Hd HK Hlog Hn. unfold Fp.round.
  destruct (Z.ltb_spec n 0) as [Hneg | Hnn].
  - apply at_most_nonpos_mant; [|exact HK]. cbn [Fp.mant].
    pose proof (round_pos_mant_nonneg p (- n) d Hd). lia.
  - unfold Fp.round_pos. destruct (Z.leb_spec n 0) as [Hz | Hpos].
    + apply at_most_nonpos_mant; [cbn; lia | exact HK].
    + assert (HK1 : 1 <= K) by nia.
      set (e0 := Z.log2 n - Z.log2 d - (p - 1)).
      set (e := if Fp.num_at n e0 <? 2 ^ (p - 1) * Fp.den_at d e0 then e0 - 1 else e0).
      assert (He : e <= 0).
      { assert (He0 : e0 <= 0).
        { pose proof (Z.log2_le_mono n (K * d) Hn).
          pose proof (Z.log2_mul_above K d ltac:(lia) ltac:(lia)).
          unfold e0. lia. }
        unfold e. destruct (_ <? _); lia. }
      unfold Bound.at_most. cbn [Fp.mant Fp.expo].
      rewrite (Z.max_l 0 e), (Z.max_r 0 (- e)) by lia. change (2 ^ 0) with 1.
      rewrite Z.mul_1_r.
      assert (Hnum : Fp.num_at n e = n * 2 ^ (- e))
        by (unfold Fp.num_at; rewrite Z.max_r by lia; reflexivity).
      assert (Hden : Fp.den_at d e = d)
        by (unfold Fp.den_at; rewrite Z.max_l by lia; change (2 ^ 0) with 1; lia).
      rewrite Hnum, Hden.
      pose proof (pow2_pos (- e) ltac:(lia)).
      apply rne_le_int; [exact Hd | nia].
Qed.

Lemma round_within_0 (p n d K : Z) :
  0 < d -> 0 <= K -> Z.log2 K <= p - 2 -> 0 <= n <= K * d ->
  Bound.within 0 K (Fp.round p n d).
Proof.
  intros Hd HK Hlog [Hn0 HnK]. split.
  - apply at_least_0, round_mant_nonneg; assumption.
  - apply round_at_most; assumption.
Qed.


(** ** Bounds through the operations *)

Lemma bind_ok {A B : Type} (e : result A) (k : A -> result B) (b : B) :
  bind e k = Ok b -> exists a, e = Ok a /\ k a = Ok b.
Proof. destruct e as [a|]; cbn; [eauto | discriminate]. Qed.

Lemma Ok_inj {A : Type} (a b : A) : Ok a = Ok b -> a = b.
Proof. congruence. Qed.

Lemma narrow_within (x : Fp.t) (K : Z) :
  0 <= K -> Z.log2 K <= 22 -> Bound.within 0 K x -> Bound.within 0 K (narrow x).
Proof.
  intros HK Hlog [Hlo Hhi]. unfold narrow, F32.prec.
  apply round_within_0; [apply pow2_pos; lia | lia | lia |].
  unfold Bound.at_least in Hlo. unfold Bound.at_most in Hhi. lia.
Qed.

Lemma narrow_at_most (x : Fp.t) (K : Z) :
  0 <= K -> Z.log2 K <= 22 -> Bound.at_most x K -> Bound.at_most (narrow x) K.
Proof.
  intros HK Hlog Hhi. unfold narrow, F32.prec.
  apply round_at_most; [apply pow2_pos; lia | lia | lia | exact Hhi].
Qed.

Lemma mul_mant_nonneg (p : Z) (a b : Fp.t) :
  0 <= Fp.mant a * Fp.mant b -> 0 <= Fp.mant (Fp.mul p a b).
Proof.
  intros H. unfold Fp.mul. apply round_mant_nonneg.
  - apply pow2_pos; lia.
  - pose proof (pow2_pos (Z.max 0 (Fp.expo a + Fp.expo b)) ltac:(lia)). nia.
Qed.

Lemma square_nonneg (p : Z) (a : Fp.t) : 0 <= Fp.mant (Fp.mul p a a).
Proof. apply mul_mant_nonneg. nia. Qed.

(** An integer literal that the format holds exactly. *)
Lemma lit_at_most (p K : Z) :
  0 <= K -> Z.log2 K <= p - 2 -> Bound.at_most (Fp.round p K 1) K.
Proof. intros. apply round_at_most; lia. Qed.

Lemma lit_mant_nonneg (p n d : Z) : 0 <= n -> 0 < d -> 0 <= Fp.mant (Fp.round p n d).
Proof. intros. now apply round_mant_nonneg. Qed.

Lemma min_at_most (c x : Fp.t) (K : Z) :
  Bound.at_most c K -> Bound.at_most (F64.min c x) K.
Proof.
  intros Hc. unfold F64.min. destruct (Fp.ltb x c) eqn:E; [|exact Hc].
  exact (ltb_at_most x c K E Hc).
Qed.

Lemma min_mant_nonneg (c x : Fp.t) :
  0 <= Fp.mant c -> 0 <= Fp.mant x -> 0 <= Fp.mant (F64.min c x).
Proof. intros. unfold F64.min. now destruct (Fp.ltb x c). Qed.

Lemma leb_mant_nonneg (a b : Fp.t) :
  Fp.leb a b = true -> 0 <= Fp.mant a -> 0 <= Fp.mant b.
Proof.
  intros Hle Ha.
  apply (leb_scaled a b (scale2 a b)) in Hle; try (unfold scale2; lia).
  unfold scaled in Hle.
  pose proof (pow2_pos (Fp.expo a + scale2 a b) ltac:(unfold scale2; lia)).
  pose proof (pow2_pos (Fp.expo b + scale2 a b) ltac:(unfold scale2; lia)). nia.
Qed.

(** Normalisation: a positive fraction rounds to a positive value. *)
Lemma round_pos_mant_pos (p n d : Z) :
  1 <= p -> 0 < n -> 0 < d -> 0 < Fp.mant (Fp.round_pos p n d).
Proof.
  intros Hp Hn Hd. unfold Fp.round_pos. destruct (Z.leb_spec n 0); [lia|].
  set (e0 := Z.log2 n - Z.log2 d - (p - 1)).
  pose proof (Z.log2_spec n Hn) as [Hnlo Hnhi].
  pose proof (Z.log2_spec d Hd) as [Hdlo Hdhi].
  pose proof (Z.log2_nonneg n). pose proof (Z.log2_nonneg d).
  pose proof (pow2_pos (p - 1) ltac:(lia)) as Hpp.
  destruct (Z.ltb_spec (Fp.num_at n e0) (2 ^ (p - 1) * Fp.den_at d e0)) as [Hlt | Hge];
    cbn [Fp.mant].
  - (* one more digit is needed *)
    assert (Hge : 2 ^ (p - 1) * Fp.den_at d (e0 - 1) <= Fp.num_at n (e0 - 1)).
    { unfold Fp.num_at, Fp.den_at.
      destruct (Z_le_gt_dec 1 e0) as [He | He].
      - rewrite (Z.max_l 0 (- (e0 - 1))), (Z.max_r 0 (e0 - 1)) by lia.
        change (2 ^ 0) with 1.
        (* d * 2^(e0-1) * 2^(p-1) = d * 2^(ln - ld - 1) < 2^ln <= n *)
        assert (E : 2 ^ (p - 1) * 2 ^ (e0 - 1) * 2 ^ Z.succ (Z.log2 d) = 2 ^ Z.log2 n).
        { rewrite <- !Z.pow_add_r by lia. f_equal. unfold e0. lia. }
        pose proof (pow2_pos (e0 - 1) ltac:(lia)). nia.
      - rewrite (Z.max_r 0 (- (e0 - 1))), (Z.max_l 0 (e0 - 1)) by lia.
        change (2 ^ 0) with 1.
        destruct (Z_le_gt_dec (Z.succ (Z.log2 d)) (Z.log2 n)) as [Hl | Hl].
        + assert (E : 2 ^ (p - 1) * 2 ^ Z.succ (Z.log2 d)
                      * 2 ^ (Z.log2 n - Z.succ (Z.log2 d) - (p - 1) + - (e0 - 1) )
                      = 2 ^ Z.log2 n * 2 ^ (- (e0 - 1))).
          { rewrite <- !Z.pow_add_r by (unfold e0; lia). f_equal. lia. }
          replace (Z.log2 n - Z.succ (Z.log2 d) - (p - 1) + - (e0 - 1)) with 0 in E
            by (unfold e0; lia).
          change (2 ^ 0) with 1 in E.
          pose proof (pow2_pos (- (e0 - 1)) ltac:(lia)). nia.
        + assert (E : 2 ^ (p - 1) * 2 ^ Z.succ (Z.log2 d)
                      = 2 ^ Z.log2 n * 2 ^ (- (e0 - 1))).
          { rewrite <- !Z.pow_add_r by (unfold e0; lia). f_equal. unfold e0. lia. }
          pose proof (pow2_pos (- (e0 - 1)) ltac:(lia)). nia. }
    pose proof (den_at_pos d (e0 - 1) Hd).
    pose proof (rne_ge_int (Fp.num_at n (e0 - 1)) (Fp.den_at d (e0 - 1)) (2 ^ (p - 1))
                  ltac:(assumption) ltac:(lia)). lia.
  - pose proof (den_at_pos d e0 Hd).
    pose proof (rne_ge_int (Fp.num_at n e0) (Fp.den_at d e0) (2 ^ (p - 1))
                  ltac:(assumption) ltac:(lia)). lia.
Qed.

(** Comparison with a value that is an integer. *)
Lemma scaled_exact (c : Fp.t) (K s : Z) :
  Fp.expo c <= 0 -> Fp.mant c = K * 2 ^ (- Fp.expo c) -> 0 <= Fp.expo c + s ->
  scaled s c = K * 2 ^ s.
Proof.
  intros He Hm Hs. unfold scaled. rewrite Hm.
  replace s with (- Fp.expo c + (Fp.expo c + s)) at 2 by lia.
  rewrite (pow2_split (- Fp.expo c) (Fp.expo c + s)) by lia. lia.
Qed.

Lemma leb_exact_r (x c : Fp.t) (K : Z) :
  Fp.expo c <= 0 -> Fp.mant c = K * 2 ^ (- Fp.expo c) ->
  Fp.leb x c = true <-> Bound.at_most x K.
Proof.
  intros He Hm. set (s := scale2 x c).
  rewrite (leb_scaled x c s), (at_most_scaled x K s) by (unfold s, scale2; lia).
  rewrite (scaled_exact c K s He Hm) by (unfold s, scale2; lia). reflexivity.
Qed.

Lemma leb_exact_l (x c : Fp.t) (K : Z) :
  Fp.expo c <= 0 -> Fp.mant c = K * 2 ^ (- Fp.expo c) ->
  Fp.leb c x = true <-> Bound.at_least x K.
Proof.
  intros He Hm. set (s := scale2 x c).
  rewrite (leb_scaled c x s), (at_least_scaled x K s) by (unfold s, scale2; lia).
  rewrite (scaled_exact c K s He Hm) by (unfold s, scale2; lia). reflexivity.
Qed.

Lemma unit_interval_within (x : Fp.t) :
  Fp.leb F32.zero x = true /\ Fp.leb x F32.one = true <-> Bound.within 0 1 x.
Proof.
  unfold Bound.within.
  rewrite (leb_exact_l x F32.zero 0), (leb_exact_r x F32.one 1);
    [reflexivity | | | | ]; cbn; lia.
Qed.

(** [1.0f - q] for [q] in the unit interval. *)
Lemma sub_one_within (q : Fp.t) :
  Bound.within 0 1 q -> Bound.within 0 1 (F32.sub F32.one q).
Proof.
  intros [Hlo Hhi]. pose proof (at_least_0_mant q Hlo) as Hm.
  unfold F32.sub, Fp.sub, Fp.add, F32.prec. rewrite F32_one_eq.
  unfold Fp.aligned. cbn [Fp.mant Fp.expo fst snd].
  set (e := Z.min (-23) (Fp.expo q)).
  assert (He : e <= -23 /\ e <= Fp.expo q) by (unfold e; lia).
  rewrite (Z.max_l 0 e), (Z.max_r 0 (- e)) by lia.
  change (2 ^ 0) with 1. rewrite Z.mul_1_r.
  apply (at_most_scaled q 1 (- e)) in Hhi; try lia.
  unfold scaled in Hhi.
  replace (Fp.expo q + - e) with (Fp.expo q - e) in Hhi by lia.
  assert (E : 8388608 * 2 ^ (-23 - e) = 2 ^ (- e)).
  { change 8388608 with (2 ^ 23). rewrite <- Z.pow_add_r by lia. f_equal. lia. }
  rewrite E.
  pose proof (pow2_pos (Fp.expo q - e) ltac:(lia)).
  apply round_within_0; [apply pow2_pos; lia | lia | cbn; lia | nia].
Qed.

Lemma lit_255 : F32.lit 255 1 = Fp.mk 16711680 (-16).
Proof. reflexivity. Qed.

Lemma div_255_within (x : Fp.t) :
  Bound.within 0 255 x -> Bound.within 0 1 (F32.div x (F32.lit 255 1)).
Proof.
  intros [Hlo Hhi]. apply unit_interval_within. apply div_unit_interval.
  - now apply at_least_0_mant.
  - rewrite lit_255. cbn. lia.
  - apply (leb_exact_r x (F32.lit 255 1) 255); [rewrite lit_255; cbn; lia | reflexivity | exact Hhi].
Qed.

(** ** The quality scores *)

Lemma zero_within (K : Z) : 0 <= K -> Bound.within 0 K (F32.lit 0 1).
Proof.
  intros HK. change (F32.lit 0 1) with (Fp.mk 0 0).
  split; [apply at_least_0 | apply at_most_nonpos_mant]; cbn [Fp.mant]; lia.
Qed.

Section Scores.

Context {Mat : Type} {cv : OpenCV Mat} {stats : OpenCVStats Mat}.

(** X16.  Whatever deviation the library measures, a blur score that
    [calculateBlurScore] returns lies between 0 and 100: the square and the
    scaling keep it non-negative, the cap and the conversion to [float] keep
    it at most 100. *)
Theorem calculateBlurScore_range (src : Mat) (score : Fp.t) :
  calculateBlurScore src = Ok score -> Bound.within 0 100 score.
Proof.
  unfold calculateBlurScore. destruct (empty src).
  - intros [= <-]. apply zero_within. lia.
  - intros H.
    apply bind_ok in H as (gray & _ & H).
    apply bind_ok in H as (laplacian & _ & H).
    apply bind_ok in H as ([m stddev] & _ & H).
    apply Ok_inj in H. subst score. cbn [snd].
    apply narrow_within; [lia | now vm_compute |]. split.
    + apply at_least_0, min_mant_nonneg; [now vm_compute|].
      apply mul_mant_nonneg.
      pose proof (square_nonneg F64.prec stddev).
      assert (0 <= Fp.mant (F64.lit 20 1)) by now vm_compute.
      unfold F64.mul. nia.
    + apply min_at_most. apply lit_at_most; now vm_compute.
Qed.

(** X17.  When the mean absolute difference the library reports is a gray
    level, between 0 and 255, the stability [calculateStability] returns
    lies between 0 and 1, roundings included. *)
Theorem calculateStability_range (current previous : Mat) (stability : Fp.t) :
  (forall diff m, mean diff = Ok m -> Bound.within 0 255 m) ->
  calculateStability current previous = Ok stability ->
  Bound.within 0 1 stability.
Proof.
  intros Hmean. unfold calculateStability. destruct (empty current || empty previous).
  - intros [= <-]. apply zero_within. lia.
  - intros H.
    apply bind_ok in H as (pair & _ & H).
    apply bind_ok in H as (currGray & _ & H).
    apply bind_ok in H as (prevGray & _ & H).
    apply bind_ok in H as (diff & _ & H).
    apply bind_ok in H as (meanDiff & Hm & H).
    apply Ok_inj in H. subst stability.
    apply sub_one_within, div_255_within, narrow_within; [lia | now vm_compute |].
    exact (Hmean diff meanDiff Hm).
Qed.

End Scores.

Lemma calculateBlurScore_range_witness :
  calculateBlurScore (stats := Fixture.stats) Fixture.frame = Ok (F32.lit 45 1)
  /\ Bound.within 0 100 (F32.lit 45 1).
Proof.
  assert (H : calculateBlurScore (stats := Fixture.stats) Fixture.frame
              = Ok (F32.lit 45 1)) by (vm_compute; reflexivity).
  split; [exact H|].
  exact (calculateBlurScore_range (stats := Fixture.stats) Fixture.frame _ H).
Defined.

Lemma calculateStability_range_witness :
  calculateStability (stats := Fixture.stats) Fixture.frame Fixture.frame
  = Ok (F32.lit 8 10)
  /\ Bound.within 0 1 (F32.lit 8 10).
Proof.
  assert (H : calculateStability (stats := Fixture.stats) Fixture.frame Fixture.frame
              = Ok (F32.lit 8 10)) by (vm_compute; reflexivity).
  split; [exact H|].
  apply (calculateStability_range (stats := Fixture.stats)
           Fixture.frame Fixture.frame _); [|exact H].
  intros diff m Hm. cbn [mean Fixture.stats] in Hm. apply Ok_inj in Hm. subst m.
  split; vm_compute; discriminate.
Defined.

(** ** Corner detection *)

Lemma round_mant_pos (p n d : Z) :
  1 <= p -> 0 < n -> 0 < d -> 0 < Fp.mant (Fp.round p n d).
Proof.
  intros Hp Hn Hd. unfold Fp.round. destruct (Z.ltb_spec n 0); [lia|].
  now apply round_pos_mant_pos.
Qed.

Lemma mul_mant_pos (p : Z) (a b : Fp.t) :
  1 <= p -> 0 < Fp.mant a -> 0 < Fp.mant b -> 0 < Fp.mant (Fp.mul p a b).
Proof.
  intros Hp Ha Hb. unfold Fp.mul. apply round_mant_pos; [exact Hp | | apply pow2_pos; lia].
  pose proof (pow2_pos (Z.max 0 (Fp.expo a + Fp.expo b)) ltac:(lia)). nia.
Qed.

Lemma div_mant_nonneg (p : Z) (a b : Fp.t) :
  0 <= Fp.mant a -> 0 < Fp.mant b -> 0 <= Fp.mant (Fp.div p a b).
Proof.
  intros Ha Hb. unfold Fp.div. destruct (Z.ltb_spec (Fp.mant b) 0); [lia|].
  rewrite !Z.mul_1_l.
  pose proof (pow2_pos (Z.max 0 (Fp.expo a - Fp.expo b)) ltac:(lia)).
  pose proof (pow2_pos (Z.max 0 (- (Fp.expo a - Fp.expo b))) ltac:(lia)).
  apply round_mant_nonneg; nia.
Qed.

(** The pixel count of a frame, scaled by a positive constant. *)
Lemma area_share_pos (N n d : Z) :
  0 < N -> 0 < n -> 0 < d ->
  0 < Fp.mant (F64.mul (F64.of_int N) (F64.lit n d)).
Proof.
  intros HN Hn Hd. unfold F64.mul, F64.of_int, F64.lit, F64.prec.
  apply mul_mant_pos; [lia | |]; apply round_mant_pos; lia.
Qed.

Section Corners.

Context {Mat : Type} {cv : OpenCV Mat} {stats : OpenCVStats Mat}.

(** An iteration either leaves the best candidate as it is or replaces it
    by a quadrilateral that is not smaller than the minimum area. *)
Lemma considerContour_cases (src : Mat) (minArea : Fp.t) (st st' : Best)
  (contour : list Point) :
  considerContour src minArea st contour = Ok st' ->
  st' = st
  \/ exists approx,
       length approx = 4%nat
       /\ Fp.ltb (contourArea contour) minArea = false
       /\ st' = (approx, contourArea contour, confidenceOf src (contourArea contour)).
Proof.
  destruct st as [[bestApprox bestScore] conf]. unfold considerContour.
  destruct (Fp.ltb (contourArea contour) minArea) eqn:Earea;
    [intros H; apply Ok_inj in H; now left|].
  intros H. apply bind_ok in H as (approx & _ & H).
  destruct (length approx =? 4)%nat eqn:Elen; cbn [negb] in H;
    [|apply Ok_inj in H; now left].
  destruct (isContourConvex approx); cbn [negb] in H;
    [|apply Ok_inj in H; now left].
  destruct (_ || _); [apply Ok_inj in H; now left|].
  destruct (Fp.ltb bestScore (contourArea contour));
    apply Ok_inj in H; [|now left].
  right. exists approx. apply Nat.eqb_eq in Elen. auto.
Qed.

Lemma contourLoop_invariant (P : Best -> Prop) (src : Mat) (minArea : Fp.t) :
  (forall st contour st',
     P st -> considerContour src minArea st contour = Ok st' -> P st') ->
  forall contours st st',
    P st -> contourLoop src minArea contours st = Ok st' -> P st'.
Proof.
  intros Hstep. induction contours as [|contour rest IH]; intros st st' HP H.
  - cbn in H. apply Ok_inj in H. now subst.
  - cbn [contourLoop] in H. apply bind_ok in H as (st1 & H1 & H).
    exact (IH st1 st' (Hstep st contour st1 HP H1) H).
Qed.

(** What [findCardCorners] returns is what its loop leaves. *)
Lemma findCardCorners_loop (P : Best -> Prop) (src : Mat) (r : CornerResult.t) :
  P ([], F64.lit 0 1, F32.lit 0 1) ->
  (forall st contour st',
     P st ->
     considerContour src
       (F64.mul (F64.of_int (Int32.mul (rows src) (cols src))) (F64.lit 5 100))
       st contour = Ok st' ->
     P st') ->
  findCardCorners src = Ok r ->
  r = CornerResult.mk [] (F32.lit 0 1) false
  \/ exists bestApprox bestScore conf,
       P (bestApprox, bestScore, conf)
       /\ r = if (length bestApprox =? 4)%nat
              then CornerResult.mk bestApprox conf true
              else CornerResult.mk [] conf false.
Proof.
  intros H0 Hstep. unfold findCardCorners.
  destruct (empty src); [intros H; apply Ok_inj in H; now left|].
  intros H.
  apply bind_ok in H as (gray & _ & H).
  apply bind_ok in H as (blurred & _ & H).
  apply bind_ok in H as (median & _ & H).
  apply bind_ok in H as (edged & _ & H).
  apply bind_ok in H as (edged' & _ & H).
  apply bind_ok in H as (contours & _ & H).
  destruct contours as [|c cs]; [apply Ok_inj in H; now left|].
  apply bind_ok in H as ([[bestApprox bestScore] conf] & Hloop & H).
  right. exists bestApprox, bestScore, conf. split.
  - exact (contourLoop_invariant P src _ Hstep (c :: cs) _ _ H0 Hloop).
  - destruct (length bestApprox =? 4)%nat; apply Ok_inj in H; now subst.
Qed.

(** The two results of [findCardCorners]. *)
Lemma findCardCorners_cases (src : Mat) (r : CornerResult.t) :
  findCardCorners src = Ok r ->
  (CornerResult.detected r = true /\ length (CornerResult.corners r) = 4%nat)
  \/ (CornerResult.detected r = false /\ CornerResult.corners r = []
      /\ CornerResult.confidence r = F32.lit 0 1).
Proof.
  intros H.
  apply (findCardCorners_loop
           (fun st => length (fst (fst st)) = 4%nat
                      \/ (fst (fst st) = [] /\ snd st = F32.lit 0 1))) in H.
  - destruct H as [-> | (b & s & c & HP & ->)]; [right; auto|].
    cbn [fst snd] in HP.
    destruct (length b =? 4)%nat eqn:E; cbn.
    + left. apply Nat.eqb_eq in E. auto.
    + right. destruct HP as [HP | [_ ->]]; [|auto].
      apply Nat.eqb_neq in E. contradiction.
  - right. auto.
  - intros st contour st' HP Hc.
    apply considerContour_cases in Hc as [-> | (approx & Hlen & _ & ->)];
      [exact HP | left; exact Hlen].
Qed.

(** The confidence of a candidate. *)
Lemma confidenceOf_within (src : Mat) (area : Fp.t) :
  0 < Int32.mul (rows src) (cols src) -> 0 <= Fp.mant area ->
  Bound.within 0 1 (confidenceOf src area).
Proof.
  intros HN Ha. unfold confidenceOf.
  apply narrow_within; [lia | now vm_compute |]. split.
  - apply at_least_0, min_mant_nonneg; [now vm_compute|].
    apply div_mant_nonneg; [exact Ha|]. apply area_share_pos; lia.
  - apply min_at_most. apply lit_at_most; now vm_compute.
Qed.


Lemma findCardCorners_unit (src : Mat) (r : CornerResult.t) :
  0 < Int32.mul (rows src) (cols src) ->
  findCardCorners src = Ok r ->
  Bound.within 0 1 (CornerResult.confidence r).
Proof.
  intros HN H.
  apply (findCardCorners_loop (fun st => Bound.within 0 1 (snd st))) in H.
  - destruct H as [-> | (b & s & c & HP & ->)]; [apply zero_within; lia|].
    cbn [snd] in HP. now destruct (length b =? 4)%nat.
  - apply zero_within. lia.
  - intros st contour st' HP Hc.
    apply considerContour_cases in Hc as [-> | (approx & _ & Harea & ->)];
      [exact HP|].
    cbn [snd]. apply confidenceOf_within; [exact HN|].
    apply ltb_false_leb in Harea.
    apply (leb_mant_nonneg _ _ Harea).
    pose proof (area_share_pos (Int32.mul (rows src) (cols src)) 5 100
                  HN ltac:(lia) ltac:(lia)). lia.
Qed.

(** X18.  [findCardCorners] reports a card exactly when it returns four
    corners; when it reports none, it returns no corner at all and the
    confidence 0.0, whatever candidates the loop has seen. *)
Theorem findCardCorners_result (src : Mat) (r : CornerResult.t) :
  findCardCorners src = Ok r ->
  (CornerResult.detected r = true <-> length (CornerResult.corners r) = 4%nat)
  /\ (CornerResult.detected r = false ->
      CornerResult.corners r = [] /\ CornerResult.confidence r = F32.lit 0 1).
Proof.
  intros H.
  destruct (findCardCorners_cases src r H) as [[Hd Hlen] | (Hd & Hc & Hconf)].
  - split; [tauto | congruence].
  - split; [|auto]. rewrite Hd, Hc. cbn. split; discriminate.
Qed.

(** X19.  On a frame whose pixel count is an [int], the confidence that
    [findCardCorners] returns lies between 0 and 1, whatever contours and
    areas the library reports. *)
Theorem findCardCorners_confidence (src : Mat) (r : CornerResult.t) :
  0 < rows src * cols src <= Int32.INT_MAX ->
  findCardCorners src = Ok r ->
  Bound.within 0 1 (CornerResult.confidence r).
Proof.
  intros HN. apply findCardCorners_unit.
  rewrite mul_small by in_range_lia. lia.
Qed.

End Corners.

Lemma findCardCorners_result_witness :
  exists r,
    findCardCorners (stats := Fixture.stats) Fixture.frame = Ok r
    /\ CornerResult.detected r = true
    /\ length (CornerResult.corners r) = 4%nat.
Proof.
  assert (H : findCardCorners (stats := Fixture.stats) Fixture.frame
              = Ok (CornerResult.mk Fixture.quad (F32.lit 12800 30000) true))
    by (vm_compute; reflexivity).
  eexists. split; [exact H|].
  destruct (findCardCorners_result (stats := Fixture.stats) Fixture.frame _ H)
    as [Hiff _].
  split; [reflexivity|]. apply Hiff. reflexivity.
Defined.

Lemma findCardCorners_confidence_witness :
  exists r,
    findCardCorners (stats := Fixture.stats) Fixture.frame = Ok r
    /\ Bound.within 0 1 (CornerResult.confidence r).
Proof.
  assert (H : findCardCorners (stats := Fixture.stats) Fixture.frame
              = Ok (CornerResult.mk Fixture.quad (F32.lit 12800 30000) true))
    by (vm_compute; reflexivity).
  eexists. split; [exact H|].
  apply (findCardCorners_confidence (stats := Fixture.stats) Fixture.frame _);
    [|exact H].
  cbn. unfold Int32.INT_MAX. lia.
Defined.

(** ** The corner order *)

Section Order.

Context {Mat : Type} {cv : OpenCV Mat}.

(** X20.  Given four corners, and a [std::sort] that returns them in
    ascending order of [y], [orderCorners] returns the same four points as
    top-left, top-right, bottom-right, bottom-left: the first two are not
    below the last two, the top-left is not right of the top-right, and the
    bottom-left is not right of the bottom-right. *)
Theorem orderCorners_layout (corners : list Point) :
  let pts := map (fun p => (F32.of_int (fst p), F32.of_int (snd p))) corners in
  length corners = 4%nat ->
  Permutation (sort_by_y pts) pts ->
  StronglySorted (fun a b => Fp.ltb (snd b) (snd a) = false) (sort_by_y pts) ->
  exists tl tr br bl,
    orderCorners corners = [tl; tr; br; bl]
    /\ Permutation [tl; tr; br; bl] pts
    /\ Fp.leb (fst tl) (fst tr) = true
    /\ Fp.leb (fst bl) (fst br) = true
    /\ Forall (fun top =>
                 Forall (fun bottom => Fp.leb (snd top) (snd bottom) = true)
                        [br; bl])
              [tl; tr].
Proof.
  intros pts Hlen Hperm Hsorted. unfold orderCorners.
  apply Nat.eqb_eq in Hlen as Hlen'. rewrite Hlen'. cbn [negb]. fold pts.
  assert (Hl : length (sort_by_y pts) = 4%nat).
  { rewrite (Permutation_length Hperm). unfold pts. now rewrite length_map. }
  destruct (sort_by_y pts) as [|p0 [|p1 [|p2 [|p3 [|]]]]]; try discriminate.
  clear Hl.
  apply StronglySorted_inv in Hsorted as [Hs1 H0].
  apply StronglySorted_inv in Hs1 as [Hs2 H1].
  apply StronglySorted_inv in Hs2 as [_ H2].
  inversion H0 as [|? ? H01 H0']; subst.
  inversion H0' as [|? ? H02 H0'']; subst.
  inversion H0'' as [|? ? H03 _]; subst.
  inversion H1 as [|? ? H12 H1']; subst.
  inversion H1' as [|? ? H13 _]; subst.
  apply ltb_false_leb in H02, H03, H12, H13.
  destruct (Fp.ltb (fst p1) (fst p0)) eqn:Etop;
    destruct (Fp.ltb (fst p3) (fst p2)) eqn:Ebottom;
    try apply ltb_leb in Etop; try apply ltb_false_leb in Etop;
    try apply ltb_leb in Ebottom; try apply ltb_false_leb in Ebottom;
    do 4 eexists; (split; [reflexivity|]);
    (split; [etransitivity; [|exact Hperm]|]);
    try (split; [assumption|]; split; [assumption|]; repeat constructor; assumption).
  - apply perm_swap.
  - apply perm_trans with [p0; p1; p3; p2]; [apply perm_swap|].
    do 2 apply perm_skip. apply perm_swap.
  - reflexivity.
  - do 2 apply perm_skip. apply perm_swap.
Qed.

End Order.

Lemma orderCorners_layout_witness :
  exists tl tr br bl,
    orderCorners (cv := Trace.opencv) [(600, 35); (40, 30); (590, 400); (45, 410)]
    = [tl; tr; br; bl]
    /\ Fp.leb (fst tl) (fst tr) = true
    /\ Fp.leb (fst bl) (fst br) = true.
Proof.
  destruct (orderCorners_layout (cv := Trace.opencv)
              [(600, 35); (40, 30); (590, 400); (45, 410)] eq_refl)
    as (tl & tr & br & bl & Heq & _ & Htop & Hbottom & _).
  - vm_compute. apply perm_swap.
  - vm_compute. repeat constructor.
  - exists tl, tr, br, bl. auto.
Defined.

(** ** The frame pipeline *)

Section Frame.

Context {Mat : Type} {cv : OpenCV Mat} {stats : OpenCVStats Mat}.

(** The two ways [processForOCR] returns. *)
Lemma processForOCR_cases (inputRGB : Mat) (f : ProcessedFrame.t Mat) :
  processForOCR inputRGB = Ok f ->
  (ProcessedFrame.cardDetected f = false
   /\ ProcessedFrame.normalized f = Mat_new
   /\ ProcessedFrame.binarized f = Mat_new
   /\ ProcessedFrame.mrzRegion f = Mat_new
   /\ ProcessedFrame.cardWidth f = 0 /\ ProcessedFrame.cardHeight f = 0)
  \/ (exists found glare warped binarized mrz,
        findCardCorners inputRGB = Ok found
        /\ CornerResult.detected found = true
        /\ detectGlare inputRGB = Ok glare
        /\ warpToID1 inputRGB (CornerResult.corners found) = Ok warped
        /\ empty warped = false
        /\ binarizeForOCR warped = Ok binarized
        /\ extractMRZRegion warped = Ok mrz
        /\ f = ProcessedFrame.mk (clone warped) binarized mrz true
                 (CornerResult.confidence found) glare (cols warped) (rows warped)).
Proof.
  unfold processForOCR.
  destruct (empty inputRGB); [intros H; apply Ok_inj in H; subst f; left; cbn; auto 6|].
  intros H. apply bind_ok in H as (found & Hfound & H).
  destruct (CornerResult.detected found) eqn:Edet; cbn [negb] in H;
    [|apply Ok_inj in H; subst f; left; cbn; auto 6].
  apply bind_ok in H as (glare & Hglare & H).
  apply bind_ok in H as (warped & Hwarp & H).
  destruct (empty warped) eqn:Ewarped;
    [apply Ok_inj in H; subst f; left; cbn; auto 6|].
  apply bind_ok in H as (binarized & Hbin & H).
  apply bind_ok in H as (mrz & Hmrz & H).
  apply Ok_inj in H. right. exists found, glare, warped, binarized, mrz.
  auto 10.
Qed.

(** X21.  A frame that [processForOCR] reports as not detected carries no
    image and no size; a frame reported as detected comes from four corners
    and one non-empty warped image, of which [normalized] is a copy,
    [binarized] the binarisation, [mrzRegion] the MRZ crop, and [cardWidth]
    and [cardHeight] the size. *)
Theorem processForOCR_frame (inputRGB : Mat) (f : ProcessedFrame.t Mat) :
  processForOCR inputRGB = Ok f ->
  (ProcessedFrame.cardDetected f = false ->
   ProcessedFrame.normalized f = Mat_new
   /\ ProcessedFrame.binarized f = Mat_new
   /\ ProcessedFrame.mrzRegion f = Mat_new
   /\ ProcessedFrame.cardWidth f = 0 /\ ProcessedFrame.cardHeight f = 0)
  /\ (ProcessedFrame.cardDetected f = true ->
      exists found warped,
        findCardCorners inputRGB = Ok found
        /\ length (CornerResult.corners found) = 4%nat
        /\ warpToID1 inputRGB (CornerResult.corners found) = Ok warped
        /\ empty warped = false
        /\ ProcessedFrame.normalized f = clone warped
        /\ binarizeForOCR warped = Ok (ProcessedFrame.binarized f)
        /\ extractMRZRegion warped = Ok (ProcessedFrame.mrzRegion f)
        /\ ProcessedFrame.cardWidth f = cols warped
        /\ ProcessedFrame.cardHeight f = rows warped
        /\ ProcessedFrame.perspectiveConfidence f = CornerResult.confidence found).
Proof.
  intros H. apply processForOCR_cases in H
    as [(Hd & Hrest) | (found & glare & warped & binarized & mrz & Hfound & Hdet
                        & Hglare & Hwarp & Hne & Hbin & Hmrz & ->)].
  - split; [intros _; exact Hrest | intros Ht; congruence].
  - split; [cbn; discriminate|]. intros _. exists found, warped.
    destruct (findCardCorners_cases inputRGB found Hfound) as [[_ Hlen] | [Hno _]];
      [|congruence].
    cbn. auto 12.
Qed.

End Frame.

Lemma processForOCR_frame_witness :
  exists f found warped,
    processForOCR (stats := Fixture.stats) Fixture.frame = Ok f
    /\ ProcessedFrame.cardDetected f = true
    /\ findCardCorners (stats := Fixture.stats) Fixture.frame = Ok found
    /\ length (CornerResult.corners found) = 4%nat
    /\ warpToID1 Fixture.frame (CornerResult.corners found) = Ok warped
    /\ ProcessedFrame.cardWidth f = cols warped
    /\ ProcessedFrame.cardHeight f = rows warped.
Proof.
  destruct (processForOCR (stats := Fixture.stats) Fixture.frame) as [f|] eqn:E;
    [|vm_compute in E; discriminate].
  assert (Hd : ProcessedFrame.cardDetected f = true).
  { clear - E. vm_compute in E. apply Ok_inj in E. subst f. reflexivity. }
  destruct (processForOCR_frame (stats := Fixture.stats) Fixture.frame f E)
    as [_ Hyes].
  destruct (Hyes Hd)
    as (found & warped & Hfound & Hlen & Hwarp & _ & _ & _ & _ & Hw & Hh & _).
  exists f, found, warped. auto 10.
Defined.

(** ** The frame pipeline on traced images *)

Section TracedFrame.

Context {stats : OpenCVStats Trace.Mat}.

(** X22.  On a traced camera frame, whatever the library measures: once
    the corners are found and the glare is measured, [processForOCR] returns
    a detected frame and no later call is refused; the card is 856x540 or
    540x856, [normalized] has that size and the channels of the input,
    [binarized] that size and one channel, and [mrzRegion] the full width,
    one channel and the rows below 72% of the height. *)
Theorem processForOCR_canonical
  (inputRGB : Trace.Mat) (found : CornerResult.t) (glare : Fp.t) :
  Props.image_like inputRGB ->
  findCardCorners inputRGB = Ok found ->
  CornerResult.detected found = true ->
  detectGlare inputRGB = Ok glare ->
  exists f w h,
    processForOCR inputRGB = Ok f
    /\ ProcessedFrame.cardDetected f = true
    /\ ((w = 856 /\ h = 540) \/ (w = 540 /\ h = 856))
    /\ ProcessedFrame.cardWidth f = w /\ ProcessedFrame.cardHeight f = h
    /\ Props.shape (ProcessedFrame.normalized f)
       = (h, w, Trace.mat_channels inputRGB)
    /\ Props.shape (ProcessedFrame.binarized f) = (h, w, 1)
    /\ Props.shape (ProcessedFrame.mrzRegion f) = (h - 72 * h / 100, w, 1)
    /\ ProcessedFrame.perspectiveConfidence f = CornerResult.confidence found
    /\ ProcessedFrame.glareScore f = glare.
Proof.
  intros Himg Hfound Hdet Hglare. pose proof Himg as (_ & _ & Hch).
  pose proof (image_like_nonempty inputRGB Himg) as Hne.
  destruct (findCardCorners_cases inputRGB found Hfound) as [[_ Hlen] | [Hno _]];
    [|congruence].
  destruct (trace_warpToID1 inputRGB _ Hlen Hne) as (w & h & Hwh & Hwarp).
  set (warped := Trace.mkMat h w _ _) in Hwarp.
  assert (Hwch : Trace.mat_channels warped = Trace.mat_channels inputRGB)
    by reflexivity.
  assert (Hsize : (Trace.mat_cols warped = 856 /\ Trace.mat_rows warped = 540)
                  \/ (Trace.mat_cols warped = 540 /\ Trace.mat_rows warped = 856))
    by exact Hwh.
  assert (Hwimg : Props.image_like warped /\ Trace.mat_rows warped <= 65535).
  { unfold Props.image_like, Int32.INT_MAX. rewrite Hwch.
    destruct Hsize as [[-> ->] | [-> ->]]; repeat split; try lia; exact Hch. }
  destruct Hwimg as [Hwimg Hwrows].
  destruct (trace_binarizeForOCR warped Hwimg) as (binarized & Hbin & Hbshape).
  destruct (trace_extractMRZRegion warped Hwimg Hwrows) as (mrz & Hmrz & Hmshape).
  exists (ProcessedFrame.mk (clone warped) binarized mrz true
            (CornerResult.confidence found) glare (cols warped) (rows warped)),
         (Trace.mat_cols warped), (Trace.mat_rows warped).
  split.
  - unfold processForOCR. change (empty inputRGB) with (Trace.is_empty inputRGB).
    rewrite Hne, Hfound. cbn [bind]. rewrite Hdet. cbn [negb]. rewrite Hglare.
    cbn [bind]. rewrite Hwarp. cbn [bind].
    change (empty warped) with (Trace.is_empty warped).
    rewrite (image_like_nonempty warped Hwimg), Hbin. cbn [bind]. rewrite Hmrz.
    reflexivity.
  - cbn [ProcessedFrame.cardDetected ProcessedFrame.cardWidth
         ProcessedFrame.cardHeight ProcessedFrame.normalized
         ProcessedFrame.binarized ProcessedFrame.mrzRegion
         ProcessedFrame.perspectiveConfidence ProcessedFrame.glareScore].
    split; [reflexivity|]. split; [tauto|].
    split; [reflexivity|]. split; [reflexivity|].
    split; [unfold Props.shape; cbn [clone Trace.opencv]; now rewrite Hwch|].
    split; [exact Hbshape|]. split; [exact Hmshape|]. split; reflexivity.
Qed.

End TracedFrame.

Lemma processForOCR_canonical_witness :
  exists f,
    processForOCR (stats := Fixture.stats) Fixture.frame = Ok f
    /\ Props.shape (ProcessedFrame.normalized f) = (540, 856, 3)
    /\ Props.shape (ProcessedFrame.binarized f) = (540, 856, 1)
    /\ Props.shape (ProcessedFrame.mrzRegion f) = (152, 856, 1).
Proof.
  assert (Himg : Props.image_like Fixture.frame).
  { unfold Props.image_like. cbn. unfold Int32.INT_MAX. lia. }
  assert (Hfound : findCardCorners (stats := Fixture.stats) Fixture.frame
                   = Ok (CornerResult.mk Fixture.quad (F32.lit 12800 30000) true))
    by (vm_compute; reflexivity).
  assert (Hglare : detectGlare (stats := Fixture.stats) Fixture.frame
                   = Ok (F32.lit 0 1)) by (vm_compute; reflexivity).
  destruct (processForOCR_canonical (stats := Fixture.stats) Fixture.frame _ _
              Himg Hfound eq_refl Hglare)
    as (f & w & h & Hf & _ & _ & Hw & Hh & Hn & Hb & Hm & _).
  exists f. split; [exact Hf|].
  assert (Hwh : w = 856 /\ h = 540).
  { rewrite <- Hw, <- Hh. clear - Hf. vm_compute in Hf. apply Ok_inj in Hf.
    subst f. split; reflexivity. }
  destruct Hwh as [-> ->]. rewrite Hn, Hb, Hm. repeat split.
Defined.

(** ** Percentages *)




(** ** The JNI entry points *)

Section NativeConfidence.

Context {Mat : Type} {cv : OpenCV Mat} {stats : OpenCVStats Mat}.


End NativeConfidence.




(** ** The largest candidate *)

Lemma leb_refl (a : Fp.t) : Fp.leb a a = true.
Proof. unfold Fp.leb. apply Z.leb_refl. Qed.

Section Largest.

Context {Mat : Type} {cv : OpenCV Mat} {stats : OpenCVStats Mat}.

(** One iteration, by what it does with a candidate. *)
Lemma considerContour_candidate (src : Mat) (minArea : Fp.t)
  (bestApprox : list Point) (bestScore conf : Fp.t) (st' : Best)
  (contour : list Point) :
  considerContour src minArea (bestApprox, bestScore, conf) contour = Ok st' ->
  (st' = (bestApprox, bestScore, conf)
   /\ forall approx,
        candidate minArea contour approx ->
        Fp.leb (contourArea contour) bestScore = true)
  \/ (exists approx,
        candidate minArea contour approx
        /\ Fp.ltb bestScore (contourArea contour) = true
        /\ st' = (approx, contourArea contour,
                  confidenceOf src (contourArea contour))).
Proof.
  unfold considerContour, candidate.
  destruct (Fp.ltb (contourArea contour) minArea) eqn:Earea.
  { intros H. apply Ok_inj in H. left. split; [now subst|].
    intros approx (Hc & _). discriminate. }
  intros H. apply bind_ok in H as (approx & Happrox & H).
  destruct (length approx =? 4)%nat eqn:Elen; cbn [negb] in H.
  2:{ apply Ok_inj in H. left. split; [now subst|].
      intros approx' (_ & Ha & Hl & _). rewrite Happrox in Ha.
      apply Ok_inj in Ha. subst approx'. apply Nat.eqb_neq in Elen. contradiction. }
  destruct (isContourConvex approx) eqn:Econvex; cbn [negb] in H.
  2:{ apply Ok_inj in H. left. split; [now subst|].
      intros approx' (_ & Ha & _ & Hcv & _). rewrite Happrox in Ha.
      apply Ok_inj in Ha. subst approx'. congruence. }
  destruct (Fp.ltb (calculateAspectRatio approx) (F32.lit 2 10)) eqn:Elow;
    cbn [orb] in H.
  { apply Ok_inj in H. left. split; [now subst|].
    intros approx' (_ & Ha & _ & _ & Hlo & _). rewrite Happrox in Ha.
    apply Ok_inj in Ha. subst approx'. congruence. }
  destruct (Fp.ltb (F32.lit 5 1) (calculateAspectRatio approx)) eqn:Ehigh.
  { apply Ok_inj in H. left. split; [now subst|].
    intros approx' (_ & Ha & _ & _ & _ & Hhi). rewrite Happrox in Ha.
    apply Ok_inj in Ha. subst approx'. congruence. }
  destruct (Fp.ltb bestScore (contourArea contour)) eqn:Ebest; apply Ok_inj in H.
  - right. exists approx. apply Nat.eqb_eq in Elen. auto 10.
  - left. split; [now subst|]. intros _ _. now apply ltb_false_leb.
Qed.

(** The loop, from any state that bounds the candidates seen so far. *)
Lemma contourLoop_largest (src : Mat) (minArea : Fp.t) (rest : list (list Point)) :
  forall (seen : list (list Point)) (best : list Point) (score conf : Fp.t)
         (best' : list Point) (score' conf' : Fp.t),
    (forall contour approx,
       In contour seen -> candidate minArea contour approx ->
       Fp.leb (contourArea contour) score = true) ->
    contourLoop src minArea rest (best, score, conf) = Ok (best', score', conf') ->
    (forall contour approx,
       In contour (seen ++ rest) -> candidate minArea contour approx ->
       Fp.leb (contourArea contour) score' = true)
    /\ ((best', score', conf') = (best, score, conf)
        \/ exists contour,
             In contour rest /\ candidate minArea contour best'
             /\ score' = contourArea contour
             /\ conf' = confidenceOf src (contourArea contour)).
Proof.
  induction rest as [|c rest IH];
    intros seen best score conf best' score' conf' Hseen H.
  - cbn in H. apply Ok_inj in H. rewrite app_nil_r. injection H as <- <- <-.
    split; [exact Hseen | now left].
  - cbn [contourLoop] in H. apply bind_ok in H as ([[b1 s1] c1] & Hstep & H).
    apply considerContour_candidate in Hstep
      as [[E Hle] | (approx & Hcand & Hlt & E)]; injection E as -> -> ->.
    + destruct (IH (seen ++ [c]) best score conf best' score' conf') as [Hall Hsel];
        [|exact H|].
      { intros contour approx Hin Hc. apply in_app_or in Hin as [Hin | [<- | []]];
          [exact (Hseen contour approx Hin Hc) | exact (Hle approx Hc)]. }
      split.
      * intros contour approx Hin. apply Hall. rewrite <- app_assoc. exact Hin.
      * destruct Hsel as [Hsame | (contour & Hin & Hrest)]; [now left|].
        right. exists contour. split; [now right | exact Hrest].
    + destruct (IH (seen ++ [c]) approx (contourArea c)
                   (confidenceOf src (contourArea c)) best' score' conf')
        as [Hall Hsel]; [|exact H|].
      { intros contour approx' Hin Hc. apply in_app_or in Hin as [Hin | [<- | []]];
          [|apply leb_refl].
        apply (leb_trans _ score _ (Hseen contour approx' Hin Hc)).
        now apply ltb_leb. }
      split.
      * intros contour approx' Hin. apply Hall. rewrite <- app_assoc. exact Hin.
      * right. destruct Hsel as [Hsame | (contour & Hin & Hrest)].
        -- injection Hsame as -> -> ->. exists c. split; [now left | auto].
        -- exists contour. split; [now right | exact Hrest].
Qed.

(** X25.  The loop of [findCardCorners] keeps the largest candidate: when
    it ends, no contour that passes the tests has an area above the best
    score, and the corners it holds, if any, are the quadrilateral of a
    contour that passes the tests, whose area is the best score and gives
    the confidence. *)
Theorem contourLoop_keeps_largest (src : Mat) (minArea : Fp.t)
  (contours : list (list Point)) (best : list Point) (score conf : Fp.t) :
  contourLoop src minArea contours ([], F64.lit 0 1, F32.lit 0 1)
  = Ok (best, score, conf) ->
  (forall contour approx,
     In contour contours -> candidate minArea contour approx ->
     Fp.leb (contourArea contour) score = true)
  /\ ((best = [] /\ conf = F32.lit 0 1)
      \/ exists contour,
           In contour contours /\ candidate minArea contour best
           /\ score = contourArea contour
           /\ conf = confidenceOf src (contourArea contour)).
Proof.
  intros H.
  destruct (contourLoop_largest src minArea contours [] _ _ _ _ _ _
              ltac:(intros ? ? []) H) as [Hall Hsel].
  split; [exact Hall|].
  destruct Hsel as [E | Hsel]; [left; injection E as -> _ ->; auto | now right].
Qed.

End Largest.

Lemma contourLoop_keeps_largest_witness :
  exists best score conf,
    contourLoop (stats := Fixture.stats) Fixture.frame (F64.lit 3000 1)
                [Fixture.quad] ([], F64.lit 0 1, F32.lit 0 1)
    = Ok (best, score, conf)
    /\ forall contour approx,
         In contour [Fixture.quad] ->
         candidate (stats := Fixture.stats) (F64.lit 3000 1) contour approx ->
         Fp.leb (contourArea (OpenCVStats := Fixture.stats) contour) score = true.
Proof.
  assert (H : contourLoop (stats := Fixture.stats) Fixture.frame (F64.lit 3000 1)
                [Fixture.quad] ([], F64.lit 0 1, F32.lit 0 1)
              = Ok (Fixture.quad, F64.lit 12800 1, F32.lit 12800 30000))
    by (vm_compute; reflexivity).
  do 3 eexists. split; [exact H|].
  exact (proj1 (contourLoop_keeps_largest (stats := Fixture.stats) _ _ _ _ _ _ H)).
Defined.

(** ** The back-side band *)

Lemma round_pos_normal (p n d : Z) :
  1 <= p -> 0 < n -> 0 < d -> 2 ^ (p - 1) <= Fp.mant (Fp.round_pos p n d).
Proof.
  intros Hp Hn Hd. unfold Fp.round_pos. destruct (Z.leb_spec n 0); [lia|].
  set (e0 := Z.log2 n - Z.log2 d - (p - 1)).
  pose proof (Z.log2_spec n Hn) as [Hnlo Hnhi].
  pose proof (Z.log2_spec d Hd) as [Hdlo Hdhi].
  pose proof (Z.log2_nonneg n). pose proof (Z.log2_nonneg d).
  pose proof (pow2_pos (p - 1) ltac:(lia)) as Hpp.
  destruct (Z.ltb_spec (Fp.num_at n e0) (2 ^ (p - 1) * Fp.den_at d e0)) as [Hlt | Hge];
    cbn [Fp.mant].
  - assert (Hge : 2 ^ (p - 1) * Fp.den_at d (e0 - 1) <= Fp.num_at n (e0 - 1)).
    { unfold Fp.num_at, Fp.den_at.
      destruct (Z_le_gt_dec 1 e0) as [He | He].
      - rewrite (Z.max_l 0 (- (e0 - 1))), (Z.max_r 0 (e0 - 1)) by lia.
        change (2 ^ 0) with 1.
        assert (E : 2 ^ (p - 1) * 2 ^ (e0 - 1) * 2 ^ Z.succ (Z.log2 d) = 2 ^ Z.log2 n).
        { rewrite <- !Z.pow_add_r by lia. f_equal. unfold e0. lia. }
        pose proof (pow2_pos (e0 - 1) ltac:(lia)). nia.
      - rewrite (Z.max_r 0 (- (e0 - 1))), (Z.max_l 0 (e0 - 1)) by lia.
        change (2 ^ 0) with 1.
        assert (E : 2 ^ (p - 1) * 2 ^ Z.succ (Z.log2 d)
                    = 2 ^ Z.log2 n * 2 ^ (- (e0 - 1))).
        { rewrite <- !Z.pow_add_r by (unfold e0; lia). f_equal. unfold e0. lia. }
        pose proof (pow2_pos (- (e0 - 1)) ltac:(lia)). nia. }
    pose proof (den_at_pos d (e0 - 1) Hd).
    apply rne_ge_int; [assumption | lia].
  - pose proof (den_at_pos d e0 Hd).
    apply rne_ge_int; [assumption | lia].
Qed.

Lemma round_at_least (p n d K : Z) :
  2 <= p -> 0 < d -> 0 <= K -> Z.log2 K <= p - 2 -> K * d <= n ->
  Bound.at_least (Fp.round p n d) K.
Proof.
  intros Hp Hd HK Hlog Hn.
  destruct (Z.eq_dec K 0) as [-> | HK0].
  { apply at_least_0, round_mant_nonneg; lia. }
  assert (Hpos : 0 < n) by nia.
  unfold Fp.round. destruct (Z.ltb_spec n 0); [lia|].
  pose proof (round_pos_normal p n d ltac:(lia) Hpos Hd) as Hnormal.
  assert (HKp : K < 2 ^ (p - 1)).
  { apply Z.log2_lt_pow2; lia. }
  unfold Fp.round_pos in *. destruct (Z.leb_spec n 0); [lia|].
  set (e0 := Z.log2 n - Z.log2 d - (p - 1)) in *.
  set (e := if Fp.num_at n e0 <? 2 ^ (p - 1) * Fp.den_at d e0 then e0 - 1 else e0) in *.
  cbn [Fp.mant] in Hnormal.
  unfold Bound.at_least. cbn [Fp.mant Fp.expo].
  destruct (Z_le_gt_dec e 0) as [He | He].
  - rewrite (Z.max_l 0 e), (Z.max_r 0 (- e)) by lia. change (2 ^ 0) with 1.
    rewrite Z.mul_1_r.
    assert (Hnum : Fp.num_at n e = n * 2 ^ (- e))
      by (unfold Fp.num_at; rewrite Z.max_r by lia; reflexivity).
    assert (Hden : Fp.den_at d e = d)
      by (unfold Fp.den_at; rewrite Z.max_l by lia; change (2 ^ 0) with 1; lia).
    rewrite Hnum, Hden.
    pose proof (pow2_pos (- e) ltac:(lia)).
    apply rne_ge_int; [exact Hd | nia].
  - rewrite (Z.max_r 0 e), (Z.max_l 0 (- e)) by lia. change (2 ^ 0) with 1.
    pose proof (pow2_pos e ltac:(lia)). nia.
Qed.

Lemma of_int_exact (c : Z) :
  0 <= c < 8388608 -> Bound.within c c (F32.of_int c).
Proof.
  intros Hc. unfold F32.of_int, F32.prec.
  assert (Hlog : Z.log2 c <= 22).
  { destruct (Z.eq_dec c 0) as [-> | Hne]; [cbn; lia|].
    assert (Z.log2 c < 23) by (apply Z.log2_lt_pow2; [lia|]; cbn; lia). lia. }
  split; [apply round_at_least | apply round_at_most]; lia.
Qed.

Lemma mul_one_exact (x : Fp.t) (c : Z) :
  0 <= c -> Z.log2 c <= 22 -> Bound.within c c x ->
  Bound.within c c (F32.mul F32.one x).
Proof.
  intros Hc Hlog [Hlo Hhi]. rewrite F32_one_eq.
  unfold F32.mul, Fp.mul, F32.prec. cbn [Fp.mant Fp.expo].
  unfold Bound.at_least in Hlo. unfold Bound.at_most in Hhi.
  set (ex := Fp.expo x) in *. set (mx := Fp.mant x) in *.
  assert (Hval : 8388608 * mx * 2 ^ Z.max 0 (-23 + ex)
                 = c * 2 ^ Z.max 0 (- (-23 + ex))).
  { destruct (Z_le_gt_dec 23 ex) as [He | He].
    - rewrite (Z.max_r 0 (-23 + ex)), (Z.max_l 0 (- (-23 + ex))) by lia.
      rewrite (Z.max_r 0 ex), (Z.max_l 0 (- ex)) in Hlo, Hhi by lia.
      change (2 ^ 0) with 1 in *.
      assert (E : 2 ^ ex = 8388608 * 2 ^ (-23 + ex)).
      { change 8388608 with (2 ^ 23). rewrite <- Z.pow_add_r by lia. f_equal. lia. }
      lia.
    - rewrite (Z.max_l 0 (-23 + ex)), (Z.max_r 0 (- (-23 + ex))) by lia.
      change (2 ^ 0) with 1.
      destruct (Z_le_gt_dec 0 ex) as [He0 | He0].
      + rewrite (Z.max_r 0 ex), (Z.max_l 0 (- ex)) in Hlo, Hhi by lia.
        change (2 ^ 0) with 1 in Hlo, Hhi.
        assert (E : 8388608 = 2 ^ ex * 2 ^ (- (-23 + ex))).
        { change 8388608 with (2 ^ 23). rewrite <- Z.pow_add_r by lia. f_equal. lia. }
        nia.
      + rewrite (Z.max_l 0 ex), (Z.max_r 0 (- ex)) in Hlo, Hhi by lia.
        change (2 ^ 0) with 1 in Hlo, Hhi.
        assert (E : 2 ^ (- (-23 + ex)) = 8388608 * 2 ^ (- ex)).
        { change 8388608 with (2 ^ 23). rewrite <- Z.pow_add_r by lia. f_equal. lia. }
        nia. }
  pose proof (pow2_pos (Z.max 0 (- (-23 + ex))) ltac:(lia)).
  split; [apply round_at_least | apply round_at_most]; lia.
Qed.

Lemma trunc_exact (x : Fp.t) (c : Z) :
  0 <= c -> Bound.within c c x -> Fp.trunc x = c.
Proof.
  intros Hc [Hlo Hhi]. unfold Bound.at_least in Hlo. unfold Bound.at_most in Hhi.
  unfold Fp.trunc. destruct (Z.leb_spec 0 (Fp.expo x)) as [He | He].
  - rewrite (Z.max_r 0 (Fp.expo x)), (Z.max_l 0 (- Fp.expo x)) in Hlo, Hhi by lia.
    change (2 ^ 0) with 1 in *. lia.
  - rewrite (Z.max_l 0 (Fp.expo x)), (Z.max_r 0 (- Fp.expo x)) in Hlo, Hhi by lia.
    change (2 ^ 0) with 1 in *.
    assert (E : Fp.mant x = c * 2 ^ (- Fp.expo x)) by lia.
    rewrite E. pose proof (pow2_pos (- Fp.expo x) ltac:(lia)).
    rewrite Z.quot_mul by lia. reflexivity.
Qed.

Lemma mul_comm (p : Z) (a b : Fp.t) : Fp.mul p a b = Fp.mul p b a.
Proof.
  unfold Fp.mul. rewrite (Z.mul_comm (Fp.mant a)), (Z.add_comm (Fp.expo a)).
  reflexivity.
Qed.

Lemma mul_zero_l (x : Fp.t) : F32.to_int (F32.mul (F32.lit 0 1) x) = 0.
Proof.
  change (F32.lit 0 1) with (Fp.mk 0 0). unfold F32.mul, Fp.mul.
  cbn [Fp.mant Fp.expo]. rewrite !Z.mul_0_l. reflexivity.
Qed.

(** X26.  On the back side, whatever field is asked for, the rectangle of
    [extractROI] is a band of the MRZ crop of [extractMRZRegion]: the same
    left edge, top row and width, and at least one row but never more rows
    than that crop, for cards of at most 65535 rows and fewer than 2^23
    columns. *)
Theorem back_side_band (type : ROIType.t) (cardRows cardCols : Z) :
  1 <= cardRows <= 65535 -> 1 <= cardCols < 8388608 ->
  let r := roiRectOf cardCols cardRows (getROIRegion type true) in
  let m := mrzRectOf cardRows cardCols in
  rect_x r = rect_x m /\ rect_y r = rect_y m /\ rect_width r = rect_width m
  /\ 1 <= rect_height r <= rect_height m.
Proof.
  intros Hrows Hcols.
  assert (Hregion : getROIRegion type true = BackROI.MRZ) by (destruct type; reflexivity).
  rewrite Hregion. cbv zeta. unfold roiRectOf, mrzRectOf.
  cbn [rect_x rect_y rect_width rect_height BackROI.MRZ region_x region_y
       region_width region_height].
  rewrite mul_zero_l.
  assert (Hw : F32.to_int (F32.mul (F32.lit 1 1) (F32.of_int cardCols)) = cardCols).
  { unfold F32.to_int.
    rewrite (trunc_exact _ cardCols); [apply wrap_small; in_range_lia | lia |].
    assert (Hlog : Z.log2 cardCols <= 22).
    { assert (Z.log2 cardCols < 23) by (apply Z.log2_lt_pow2; [lia|]; cbn; lia). lia. }
    apply (mul_one_exact _ cardCols); [lia | exact Hlog |].
    apply of_int_exact. lia. }
  rewrite Hw.
  assert (Hy : F32.to_int (F32.mul (F32.lit 72 100) (F32.of_int cardRows))
               = 72 * cardRows / 100).
  { rewrite <- (mrzTopOf_floor cardRows) by lia. unfold mrzTopOf, MRZ_TOP_RATIO.
    unfold F32.mul. now rewrite mul_comm. }
  rewrite Hy, (mrzTopOf_floor cardRows) by lia.
  assert (Htop : 0 <= 72 * cardRows / 100 <= cardRows - 1).
  { split; [apply Z.div_pos; lia|].
    assert (72 * cardRows / 100 < cardRows) by (apply Z.div_lt_upper_bound; lia). lia. }
  pose proof (to_int_range (F32.mul (F32.lit 28 100) (F32.of_int cardRows))) as Hh.
  set (h0 := F32.to_int (F32.mul (F32.lit 28 100) (F32.of_int cardRows))) in *.
  set (top := 72 * cardRows / 100) in *.
  assert (Hx : Int32.max 0 (Int32.min 0 (Int32.sub cardCols 1)) = 0).
  { rewrite sub_small by in_range_lia. unfold Int32.max, Int32.min.
    destruct (Z.ltb_spec (cardCols - 1) 0); [lia | reflexivity]. }
  assert (Hyc : Int32.max 0 (Int32.min top (Int32.sub cardRows 1)) = top).
  { rewrite sub_small by in_range_lia. unfold Int32.max, Int32.min.
    destruct (Z.ltb_spec (cardRows - 1) top); [lia|].
    destruct (Z.ltb_spec 0 top); lia. }
  rewrite Hx, Hyc, !sub_small by in_range_lia.
  rewrite Z.sub_0_r. unfold Int32.max, Int32.min.
  rewrite Z.ltb_irrefl.
  destruct (Z.ltb_spec 1 cardCols);
    destruct (Z.ltb_spec (cardRows - top) h0);
    repeat match goal with
           | |- context [?a <? ?b] => destruct (Z.ltb_spec a b)
           end; lia.
Qed.

Lemma back_side_band_witness :
  roiRectOf 856 540 (getROIRegion ROIType.TCKN true) = mkRect 0 388 856 151
  /\ mrzRectOf 540 856 = mkRect 0 388 856 152
  /\ 1 <= 151 <= 152.
Proof.
  pose proof (back_side_band ROIType.TCKN 540 856 ltac:(lia) ltac:(lia)) as H.
  cbv zeta in H.
  assert (E1 : roiRectOf 856 540 (getROIRegion ROIType.TCKN true)
               = mkRect 0 388 856 151) by (vm_compute; reflexivity).
  assert (E2 : mrzRectOf 540 856 = mkRect 0 388 856 152) by (vm_compute; reflexivity).
  rewrite E1, E2 in H. cbn [rect_height] in H.
  split; [exact E1|]. split; [exact E2|]. exact (proj2 (proj2 (proj2 H))).
Defined.
